(** * axe: preview command, simulator resolution, companion and file watching

  A shallow embedding of the Go sources of the axe command line tool
  (cmd/axe/preview.go, cmd/internal/platform/simulator.go,
  cmd/internal/preview/shared_watcher.go), of the functions that only
  their tests show (the companion of the idb package, the directory layout
  of the preview package, the numbering of the managed simulators), and
  the properties that the specification states about them.

  Go strings are byte sequences and are modelled by [string]; Go [int] is
  the 64-bit signed integer and is modelled by [Z] with its range written
  out where the code can leave it; Go maps are [gmap]s; a function that
  returns an error returns a [result]; what a function does to the outside
  is the list of its actions.

  The definitions come first, the properties after them. *)

From Stdlib Require Import ZArith Ascii String List Lia Bool DecimalString.
From stdpp Require Import base decidable option list gmap strings.

Local Open Scope Z_scope.

(** ** Go string primitives *)

Module GoString.

(** [strings.HasPrefix(s, p)] *)
Fixpoint HasPrefix (s p : string) : bool :=
  match p, s with
  | EmptyString, _ => true
  | String _ _, EmptyString => false
  | String b p', String a s' => if decide (a = b) then HasPrefix s' p' else false
  end.

(** [strings.Contains(s, sub)]: some suffix of [s] starts with [sub]. *)
Fixpoint Contains (s sub : string) : bool :=
  HasPrefix s sub ||
  match s with
  | EmptyString => false
  | String _ s' => Contains s' sub
  end.

(** [strings.HasSuffix(s, suf)] *)
Definition HasSuffix (s suf : string) : bool :=
  (String.length suf <=? String.length s)%nat &&
  bool_decide
    (String.substring (String.length s - String.length suf)
                      (String.length suf) s = suf).

(** [strings.CutPrefix(s, p)]: what follows [p] in [s], when [s] starts
    with [p]. *)
Fixpoint CutPrefix (s p : string) : option string :=
  match p, s with
  | EmptyString, _ => Some s
  | String _ _, EmptyString => None
  | String b p', String a s' => if decide (a = b) then CutPrefix s' p' else None
  end.

(** [strings.CutSuffix(s, suf)]: what precedes [suf] in [s], when [s] ends
    in [suf]. *)
Definition CutSuffix (s suf : string) : option string :=
  if HasSuffix s suf
  then Some (String.substring 0 (String.length s - String.length suf) s)
  else None.

(** [a < b] on Go strings: byte-wise lexicographic order. *)
Definition lt (a b : string) : bool := String.ltb a b.

End GoString.

(** ** Returned errors *)

Module Go.

(** A Go function that returns [(A, error)]: the value when the error is
    [nil], the message of the error otherwise. *)
Inductive result (A : Type) : Type :=
| Ok (a : A)
| Error (msg : string).
Global Arguments Ok {A} a.
Global Arguments Error {A} msg.

(** The line feed of Go's ["\n"]. *)
Definition nl : string := String (ascii_of_nat 10) EmptyString.

End Go.

(** ** cmd/axe/preview.go: merging flags with .axerc *)

Module PreviewCmd.

(** The package-level flag variables that [RunE] reads and assigns. *)
Record flags := mkFlags {
  previewProject : string;
  previewWorkspace : string;
  previewScheme : string;
  previewConfiguration : string;
  previewDevice : string
}.

(** [rc[k]]: indexing a Go [map[string]string]; a missing key reads as
    the empty string. *)
Definition rcGet (rc : gmap string string) (k : string) : string :=
  default "" (rc !! k).

(** [if flag == "" && rc[k] != "" { flag = rc[k] }] *)
Definition fallback (flag : string) (rc : gmap string string) (k : string) : string :=
  if bool_decide (flag = "") && negb (bool_decide (rcGet rc k = ""))
  then rcGet rc k else flag.

(** The five assignments at the top of [RunE]. *)
Definition mergeRC (f : flags) (rc : gmap string string) : flags :=
  {| previewProject := fallback (previewProject f) rc "PROJECT";
     previewWorkspace := fallback (previewWorkspace f) rc "WORKSPACE";
     previewScheme := fallback (previewScheme f) rc "SCHEME";
     previewConfiguration := fallback (previewConfiguration f) rc "CONFIGURATION";
     previewDevice := fallback (previewDevice f) rc "DEVICE" |}.

(** The three checks that follow the merge; [None] is Go's [nil] error. *)
Definition validate (f : flags) : option string :=
  if negb (bool_decide (previewProject f = "")) &&
     negb (bool_decide (previewWorkspace f = ""))
  then Some "--project and --workspace are mutually exclusive"
  else if bool_decide (previewProject f = "") &&
          bool_decide (previewWorkspace f = "")
  then Some "either --project or --workspace is required. Use flags or set PROJECT/WORKSPACE in .axerc"
  else if bool_decide (previewScheme f = "")
  then Some "--scheme is required. Use the flag or set SCHEME in .axerc"
  else None.

(** The value a flag variable is expected to hold after the merge: the
    explicit flag when there is one, the .axerc entry otherwise. *)
Definition merged (flag : string) (rc : gmap string string) (k : string) : string :=
  if bool_decide (flag = "") then rcGet rc k else flag.

Section RunE.
(** What [RunE] does after the checks (building the project
    configuration, looking for idb_companion, running the preview):
    it reads the merged flags and returns an error or [nil]. *)
Variable run : flags -> option string.

(** [previewCmd.RunE]: the flag variables after the call, and the
    returned error. *)
Definition RunE (f : flags) (rc : gmap string string) : flags * option string :=
  let f' := mergeRC f rc in
  match validate f' with
  | Some e => (f', Some e)
  | None => (f', run f')
  end.
End RunE.

End PreviewCmd.

(** ** cmd/internal/platform/simulator.go *)

Module Platform.
Import Go.

Record simDevice := mkSimDevice {
  Name : string;
  UDID : string;
  State : string;
  DeviceTypeIdentifier : string
}.

(** [simDevice{}], the zero value. *)
Definition zeroDevice : simDevice := mkSimDevice "" "" "" "".

(** *** The regular expression [iOS-(\d+)-(\d+)] *)

(** [\d] of Go's regexp package: an ASCII decimal digit. *)
Definition isDigit (c : ascii) : bool :=
  (48 <=? nat_of_ascii c)%nat && (nat_of_ascii c <=? 57)%nat.

Fixpoint allDigits (s : string) : bool :=
  match s with
  | EmptyString => true
  | String c s' => isDigit c && allDigits s'
  end.

(** The longest run of digits at the head of [s], and what follows it: the
    greedy [\d*]. *)
Fixpoint spanDigits (s : string) : string * string :=
  match s with
  | EmptyString => (EmptyString, EmptyString)
  | String c s' =>
      if isDigit c
      then (String c (spanDigits s').1, (spanDigits s').2)
      else (EmptyString, s)
  end.

(** A match of the expression that starts at the first byte of [s]: the two
    captured groups. After [iOS-] the first group is the whole run of digits
    (a shorter one would be followed by a digit, not by [-]); the second
    group is greedy. *)
Definition matchHere (s : string) : option (string * string) :=
  match s with
  | String "i" (String "O" (String "S" (String "-" rest))) =>
      match spanDigits rest with
      | (String _ _ as d1, String "-" rest') =>
          match spanDigits rest' with
          | (String _ _ as d2, _) => Some (d1, d2)
          | _ => None
          end
      | _ => None
      end
  | _ => None
  end.

(** [iosVersionRe.FindStringSubmatch(s)]: the groups [m[1]], [m[2]] of the
    leftmost match, [None] for Go's [nil]. *)
Fixpoint FindStringSubmatch (s : string) : option (string * string) :=
  match matchHere s with
  | Some m => Some m
  | None =>
      match s with
      | EmptyString => None
      | String _ s' => FindStringSubmatch s'
      end
  end.

(** *** [strconv.Atoi] *)

(** The largest and the smallest Go [int]. *)
Definition maxInt : Z := 2 ^ 63 - 1.
Definition minInt : Z := - 2 ^ 63.

Definition digitVal (c : ascii) : Z := Z.of_nat (nat_of_ascii c) - 48.

(** The number a string of decimal digits denotes. *)
Fixpoint decimalFrom (acc : Z) (s : string) : Z :=
  match s with
  | EmptyString => acc
  | String c s' => decimalFrom (10 * acc + digitVal c) s'
  end.

Definition decimal (s : string) : Z := decimalFrom 0 s.

(** [strconv.Atoi(s)]: the value and whether an error is returned. A string
    that is not an optional sign followed by digits gives 0 and a syntax
    error; a number out of the range of [int] gives the nearest bound and a
    range error. *)
Definition Atoi (s : string) : Z * bool :=
  let '(neg, body) :=
    match s with
    | String "-" b => (true, b)
    | String "+" b => (false, b)
    | _ => (false, s)
    end in
  match body with
  | EmptyString => (0, true)
  | _ =>
      if allDigits body then
        let v := if neg then - decimal body else decimal body in
        if v >? maxInt then (maxInt, true)
        else if v <? minInt then (minInt, true)
        else (v, false)
      else (0, true)
  end.

(** [parseIOSVersion]: the errors of [Atoi] are discarded. *)
Definition parseIOSVersion (runtime : string) : Z * Z :=
  match FindStringSubmatch runtime with
  | None => (-1, -1)
  | Some (m1, m2) => ((Atoi m1).1, (Atoi m2).1)
  end.

(** *** What the specification says of the expression *)

(** [s] reads [pre iOS-d1-d2 post] with [d1], [d2] non-empty runs of decimal
    digits: the keys "of the form ...iOS-<major>-<minor>...". *)
Definition iosForm (s pre d1 d2 post : string) : Prop :=
  s = pre +:+ "iOS-" +:+ d1 +:+ "-" +:+ d2 +:+ post /\
  allDigits d1 = true /\ d1 <> "" /\ allDigits d2 = true /\ d2 <> "".

Definition hasIOSForm (s : string) : Prop :=
  exists pre d1 d2 post, iosForm s pre d1 d2 post.

(** [post] does not go on with a digit: [d2] is the whole minor number. *)
Definition noDigitAhead (post : string) : Prop :=
  match post with
  | EmptyString => True
  | String c _ => isDigit c = false
  end.

(** The match a leftmost, greedy search reports: no match starts before
    [pre] ends, and the minor number is not cut short. *)
Definition leftmostIOSForm (s pre d1 d2 post : string) : Prop :=
  iosForm s pre d1 d2 post /\ noDigitAhead post /\
  forall pre' d1' d2' post',
    iosForm s pre' d1' d2' post' -> (String.length pre <= String.length pre')%nat.

(** The Go [int] a run of digits is read as: its value, or [maxInt] when the
    value does not fit. *)
Definition intOfDigits (d : string) : Z := Z.min (decimal d) maxInt.

(** *** [findLatestIPhone] *)

(** What [xcrun simctl list devices available --json] and the decoding of
    its output give: a failure of the command, a failure of
    [json.Unmarshal], or the entries of [result.Devices] (runtime key and
    devices) in the order in which [range] visits the map. *)
Inductive simctlOutput :=
| ExecFailed (err : string)
| JSONFailed (err : string)
| Listed (devices : list (string * list simDevice)).

(** The loop variables [best], [bestRuntime], [bestVersion]. *)
Record selection := mkSelection {
  best : simDevice;
  bestRuntime : string;
  bestVersion : Z * Z
}.

(** Their zero values, before the loop. *)
Definition noSelection : selection := mkSelection zeroDevice "" (0, 0).

(** The condition under which a device replaces [best]. *)
Definition replaces (v : Z * Z) (d : simDevice) (st : selection) : bool :=
  (v.1 >? (bestVersion st).1) ||
  ((v.1 =? (bestVersion st).1) && (v.2 >? (bestVersion st).2)) ||
  (bool_decide (v = bestVersion st) && GoString.lt (Name (best st)) (Name d)).

(** One iteration of the inner loop. *)
Definition considerDevice (runtime : string) (v : Z * Z)
    (st : selection) (d : simDevice) : selection :=
  if negb (GoString.Contains (Name d) "iPhone") then st
  else if replaces v d st then mkSelection d runtime v else st.

(** One iteration of the outer loop. *)
Definition considerRuntime (st : selection)
    (entry : string * list simDevice) : selection :=
  let runtime := entry.1 in
  let v := parseIOSVersion runtime in
  if v.1 <? 0 then st
  else fold_left (considerDevice runtime v) entry.2 st.

Definition scanRuntimes (entries : list (string * list simDevice)) : selection :=
  fold_left considerRuntime entries noSelection.

(** [findLatestIPhone]: the device and its runtime key, or the error. *)
Definition findLatestIPhone (out : simctlOutput) : result (simDevice * string) :=
  match out with
  | ExecFailed err => Error ("simctl list devices: " +:+ err)
  | JSONFailed err => Error ("parsing simctl output: " +:+ err)
  | Listed entries =>
      let st := scanRuntimes entries in
      if bool_decide (UDID (best st) = "")
      then Error "no available iPhone simulator found"
      else Ok (best st, bestRuntime st)
  end.

(** *** What the specification says of the selection *)

(** [d] is an available iPhone of the iOS runtime [runtime]. *)
Definition availableIPhone (entries : list (string * list simDevice))
    (runtime : string) (d : simDevice) : Prop :=
  (exists devices, In (runtime, devices) entries /\ In d devices) /\
  0 <= (parseIOSVersion runtime).1 /\
  GoString.Contains (Name d) "iPhone" = true.

(** The available iPhones, each with its runtime key, in the order in
    which the two loops meet them. *)
Definition candidates (entries : list (string * list simDevice))
    : list (string * simDevice) :=
  flat_map
    (fun entry : string * list simDevice =>
       if (parseIOSVersion entry.1).1 <? 0 then []
       else map (pair entry.1)
                (filter (fun d => GoString.Contains (Name d) "iPhone" = true) entry.2))
    entries.

(** The two nested loops, as one loop over the candidates. *)
Definition step (st : selection) (c : string * simDevice) : selection :=
  if replaces (parseIOSVersion c.1) c.2 st
  then mkSelection c.2 c.1 (parseIOSVersion c.1) else st.

(** The order of the selection: major version first, then minor, then the
    device name in byte order. *)
Definition rankLe (v : Z * Z) (name : string) (w : Z * Z) (name' : string) : Prop :=
  v.1 < w.1 \/ (v.1 = w.1 /\ v.2 < w.2) \/ (v = w /\ String.leb name name' = true).

(** *** [ResolveAxeSimulator] *)

Inductive level := Debug | Info | Warn.

(** What a call does to the outside: the directory it makes, the lines it
    logs, the devices it asks [simctl] to create. *)
Inductive action :=
| MkdirAll (path : string)
| Slog (l : level) (msg : string)
| SimctlCreate (name deviceType runtime setPath : string).

(** Why listing a device set can fail: the command, or the decoding. *)
Inductive listFailure :=
| ListExec (err : string)
| ListDecode (err : string).

(** What the call finds outside of itself. *)
Record env := mkEnv {
  (** [os.UserHomeDir()] *)
  userHomeDir : result string;
  (** the error of [os.MkdirAll(path, 0o755)], if any *)
  mkdirAllError : string -> option string;
  (** the devices of axe's device set, by runtime key, in the order in
      which [range] visits the decoded map *)
  axeSet : list (string * list simDevice);
  (** whether listing that set fails *)
  axeSetListFailure : option listFailure;
  (** the default of config.json as [store.GetDefault()] returns it; [None]
      when [NewConfigStore()] returns an error *)
  configDefault : option string;
  (** [xcrun simctl list devices available --json], decoded *)
  availableDevices : simctlOutput;
  (** [xcrun simctl --set setPath create name deviceType runtime]: the
      combined output and the error, if any *)
  simctlCreate : string -> string -> string -> string -> string * option string
}.

(** A computation that logs and acts, and returns a value or an error. *)
Definition M (A : Type) : Type := (list action * result A)%type.

Global Instance M_ret : MRet M := fun A a => ([], Ok a).

Global Instance M_bind : MBind M := fun A B f m =>
  match m.2 with
  | Ok a => (m.1 ++ (f a).1, (f a).2)
  | Error e => (m.1, Error e)
  end.

Definition act (a : action) : M unit := ([a], Ok tt).

Definition fail {A : Type} (msg : string) : M A := ([], Error msg).

Definition slog (l : level) (msg : string) : M unit := act (Slog l msg).

(** [fmt.Errorf(prefix + "%w", err)] around a returned error. *)
Definition wrap {A : Type} (prefix : string) (m : M A) : M A :=
  match m.2 with
  | Ok _ => m
  | Error e => (m.1, Error (prefix +:+ e))
  end.

Section Resolve.

(** [filepath.Join] and [strings.TrimSpace] of Go's library. *)
Variable Join : list string -> string.
Variable TrimSpace : string -> string.

(** [AxeDeviceSetPath] *)
Definition AxeDeviceSetPath (e : env) : M string :=
  match userHomeDir e with
  | Error err => fail ("resolving home directory: " +:+ err)
  | Ok home => mret (Join [home; "Library"; "Developer"; "axe"; "Simulator Devices"])
  end.

(** [sort.Slice(all, func(i, j) { return all[i].Name < all[j].Name })], as
    an insertion sort; Go does not fix the order of devices of the same
    name, here they keep the order in which they were collected. *)
Fixpoint insertByName (d : simDevice) (l : list simDevice) : list simDevice :=
  match l with
  | [] => [d]
  | x :: l' =>
      if GoString.lt (Name d) (Name x) then d :: x :: l'
      else x :: insertByName d l'
  end.

Definition sortByName (l : list simDevice) : list simDevice :=
  fold_left (fun acc d => insertByName d acc) l [].

(** [listDevicesInSet] *)
Definition listDevicesInSet (e : env) (deviceSetPath : string) : M (list simDevice) :=
  match axeSetListFailure e with
  | Some (ListExec err) => fail ("simctl list devices in set: " +:+ err)
  | Some (ListDecode err) => fail ("parsing simctl output: " +:+ err)
  | None => mret (sortByName (flat_map snd (axeSet e)))
  end.

(** [createDeviceInSet] *)
Definition createDeviceInSet (e : env)
    (name deviceType runtime setPath : string) : M string :=
  _ ← act (SimctlCreate name deviceType runtime setPath);
  match simctlCreate e name deviceType runtime setPath with
  | (out, Some err) => fail ("simctl create: " +:+ err +:+ nl +:+ out)
  | (out, None) => mret (TrimSpace out)
  end.

(** The first device of the list with the given UDID: the [for] loops that
    return on the first match. *)
Definition findByUDID (udid : string) (devices : list simDevice) : option simDevice :=
  List.find (fun d => bool_decide (UDID d = udid)) devices.

(** Priority 2: the UDID to return, or [None] to fall through. *)
Definition useConfigDefault (e : env) (devices : list simDevice) : M (option string) :=
  match configDefault e with
  | None => mret None
  | Some defaultUDID =>
      if bool_decide (defaultUDID = "") then mret None
      else
        match findByUDID defaultUDID devices with
        | Some d => _ ← slog Info "Using default simulator"; mret (Some (UDID d))
        | None =>
            _ ← slog Warn "Default simulator not found, falling back to auto-select";
            mret None
        end
  end.

(** Priorities 3 and 4: the first device of the list, or a new one. *)
Definition reuseOrCreate (e : env) (deviceSetPath : string)
    (devices : list simDevice) : M (string * string) :=
  match devices with
  | d :: _ =>
      _ ← slog Info "Reusing existing axe simulator";
      mret (UDID d, deviceSetPath)
  | [] =>
      found ← wrap "finding latest iPhone: "
                ([], findLatestIPhone (availableDevices e));
      _ ← slog Info "Creating simulator in axe device set";
      createdUDID ← wrap "creating simulator: "
                      (createDeviceInSet e ("axe " +:+ Name found.1 +:+ " (1)")
                         (DeviceTypeIdentifier found.1) found.2 deviceSetPath);
      mret (createdUDID, deviceSetPath)
  end.

(** The four priorities of [ResolveAxeSimulator], once the device set path
    and the list of [devices] are known. *)
Definition resolveAmong (e : env) (deviceSetPath preferredUDID : string)
    (devices : list simDevice) : M (string * string) :=
  if negb (bool_decide (preferredUDID = "")) then
    match findByUDID preferredUDID devices with
    | Some d => _ ← slog Info "Using specified simulator"; mret (UDID d, deviceSetPath)
    | None =>
        fail ("simulator " +:+ preferredUDID +:+
              " not found in axe device set. Run 'axe preview simulator list' to see available devices")
    end
  else
    fromDefault ← useConfigDefault e devices;
    match fromDefault with
    | Some udid => mret (udid, deviceSetPath)
    | None => reuseOrCreate e deviceSetPath devices
    end.

(** The devices as the call sees them: those that [listDevicesInSet]
    returns, none when it fails (the failure is logged and the call goes
    on). *)
Definition listOrNone (e : env) (deviceSetPath : string) : M (list simDevice) :=
  match listDevicesInSet e deviceSetPath with
  | (t, Ok ds) => (t, Ok ds)
  | (t, Error _) =>
      (t ++ [Slog Debug "Failed to list devices in axe set, will clone"], Ok [])
  end.

(** [ResolveAxeSimulator]: the UDID and the device set path. *)
Definition ResolveAxeSimulator (e : env) (preferredUDID : string) : M (string * string) :=
  deviceSetPath ← AxeDeviceSetPath e;
  _ ← act (MkdirAll deviceSetPath);
  _ ← match mkdirAllError e deviceSetPath with
      | Some err => fail ("creating axe device set directory: " +:+ err)
      | None => mret tt
      end;
  devices ← listOrNone e deviceSetPath;
  resolveAmong e deviceSetPath preferredUDID devices.

(** *** What the specification says of the resolution *)

(** The devices of axe's device set, in the order of a listing. *)
Definition setDevices (e : env) : list simDevice :=
  sortByName (flat_map snd (axeSet e)).

(** The devices that a listing gives the call: those of the set, or none
    when the listing fails. *)
Definition listedDevices (e : env) : list simDevice :=
  match axeSetListFailure e with
  | None => setDevices e
  | Some _ => []
  end.

(** The configured default, empty when there is none. *)
Definition configuredDefault (e : env) : string := default "" (configDefault e).

Definition noDeviceCreated (t : list action) : Prop :=
  forall name deviceType runtime setPath,
    ~ In (SimctlCreate name deviceType runtime setPath) t.

Definition hasUDID (udid : string) (devices : list simDevice) : Prop :=
  exists d, In d devices /\ UDID d = udid.

Definition notFound (preferredUDID : string) : string :=
  "simulator " +:+ preferredUDID +:+
  " not found in axe device set. Run 'axe preview simulator list' to see available devices".

(** The commands of a trace that create a device. *)
Definition isCreate (a : action) : bool :=
  match a with
  | SimctlCreate _ _ _ _ => true
  | _ => false
  end.

Definition created (t : list action) : list action := List.filter isCreate t.

(** What auto-creation does: nothing but an error when no iPhone is found;
    otherwise one [simctl create] of "axe <name> (1)" with the type and
    the runtime of the latest iPhone, whose output is the UDID. *)
Definition autoCreates (e : env) (path : string) (out : M (string * string)) : Prop :=
  match findLatestIPhone (availableDevices e) with
  | Error msg =>
      out.2 = Error ("finding latest iPhone: " +:+ msg) /\ noDeviceCreated out.1
  | Ok (source, runtime) =>
      let name := "axe " +:+ Name source +:+ " (1)" in
      created out.1 = [SimctlCreate name (DeviceTypeIdentifier source) runtime path] /\
      out.2 =
        match simctlCreate e name (DeviceTypeIdentifier source) runtime path with
        | (o, None) => Ok (TrimSpace o, path)
        | (o, Some err) => Error ("creating simulator: simctl create: " +:+ err +:+ nl +:+ o)
        end
  end.

(** The priority order of the resolution, with [set] the devices of the
    isolated device set and [path] its directory: the preferred UDID, then
    the configured default, then the first device, then auto-creation. *)
Definition priorityOrder (set : list simDevice) (e : env) (path preferredUDID : string)
    (out : M (string * string)) : Prop :=
  (preferredUDID <> "" ->
     (hasUDID preferredUDID set ->
        out.2 = Ok (preferredUDID, path) /\ noDeviceCreated out.1) /\
     (~ hasUDID preferredUDID set ->
        out.2 = Error (notFound preferredUDID) /\ noDeviceCreated out.1)) /\
  (preferredUDID = "" ->
     (configuredDefault e <> "" /\ hasUDID (configuredDefault e) set ->
        out.2 = Ok (configuredDefault e, path) /\ noDeviceCreated out.1) /\
     (configuredDefault e <> "" /\ ~ hasUDID (configuredDefault e) set ->
        In (Slog Warn "Default simulator not found, falling back to auto-select") out.1) /\
     (configuredDefault e = "" \/ ~ hasUDID (configuredDefault e) set ->
        (forall d rest, set = d :: rest ->
           out.2 = Ok (UDID d, path) /\ noDeviceCreated out.1) /\
        (set = [] -> autoCreates e path out))) /\
  (~ noDeviceCreated out.1 -> set = []).

End Resolve.

(** *** Two situations of the resolution *)

Definition iOS_18_2 : string := "com.apple.CoreSimulator.SimRuntime.iOS-18-2".

Definition axeIPhone16 : simDevice :=
  mkSimDevice "axe iPhone 16 (1)" "AAAA-1111" "Shutdown"
    "com.apple.CoreSimulator.SimDeviceType.iPhone-16".

Definition iPhone16Pro : simDevice :=
  mkSimDevice "iPhone 16 Pro" "CCCC-3333" "Shutdown"
    "com.apple.CoreSimulator.SimDeviceType.iPhone-16-Pro".

(** The axe set holds one device and everything works. *)
Definition envOneDevice : env :=
  {| userHomeDir := Ok "/Users/dev";
     mkdirAllError := fun _ => None;
     axeSet := [(iOS_18_2, [axeIPhone16])];
     axeSetListFailure := None;
     configDefault := Some "";
     availableDevices := Listed [(iOS_18_2, [iPhone16Pro])];
     simctlCreate := fun _ _ _ _ => ("DDDD-4444" +:+ nl, None) |}.

(** The same, but listing the axe set fails ([simctl] is killed at its
    30 second timeout). *)
Definition envListingFails : env :=
  {| userHomeDir := Ok "/Users/dev";
     mkdirAllError := fun _ => None;
     axeSet := [(iOS_18_2, [axeIPhone16])];
     axeSetListFailure := Some (ListExec "signal: killed");
     configDefault := Some "";
     availableDevices := Listed [(iOS_18_2, [iPhone16Pro])];
     simctlCreate := fun _ _ _ _ => ("DDDD-4444" +:+ nl, None) |}.

(** The path of the axe device set in a home directory. *)
Definition setPathIn (Join : list string -> string) (home : string) : string :=
  Join [home; "Library"; "Developer"; "axe"; "Simulator Devices"].

(** What the loops maintain: [st] holds one of the candidates met so far,
    and none of them ranks above it. *)
Definition holdsBest (seen : list (string * simDevice)) (st : selection) : Prop :=
  In (bestRuntime st, best st) seen /\
  bestVersion st = parseIOSVersion (bestRuntime st) /\
  forall rt d, In (rt, d) seen ->
    rankLe (parseIOSVersion rt) (Name d) (bestVersion st) (Name (best st)).

End Platform.

(** ** cmd/internal/preview/shared_watcher.go *)

Module Watcher.

(** *** fsnotify events *)

(** The bits of [fsnotify.Op]. *)
Definition Create : Z := 1.
Definition Write : Z := 2.
Definition Remove : Z := 4.
Definition Rename : Z := 8.
Definition Chmod : Z := 16.

Record Event := mkEvent {
  EventName : string;
  Op : Z
}.

(** [event.Has(op)]: [e.Op&op != 0]. *)
Definition Has (e : Event) (op : Z) : bool := negb (Z.land (Op e) op =? 0).

(** *** Channels of strings *)

(** A channel [chan string]: its capacity, the values queued in it, the
    receivers parked on it (there are some only while the queue is empty),
    the values handed to receivers directly, and whether it is closed. *)
Record channel := mkChannel {
  capacity : nat;
  queue : list string;
  parked : nat;
  handed : list string;
  closed : bool
}.

(** No receiver waits and the queue has no free slot: a send would have to
    wait. *)
Definition full (ch : channel) : bool :=
  (parked ch =? 0)%nat && (capacity ch <=? length (queue ch))%nat.

(** The channel after it has taken [v]: a parked receiver gets it, else it
    is queued. *)
Definition deliver (ch : channel) (v : string) : channel :=
  match parked ch with
  | S n => mkChannel (capacity ch) (queue ch) n (handed ch ++ [v]) (closed ch)
  | O => mkChannel (capacity ch) (queue ch ++ [v]) 0 (handed ch) (closed ch)
  end.

(** The values that have gone through the channel or wait in it. *)
Definition taken (ch : channel) : list string := handed ch ++ queue ch.

(** The channels that exist, by reference; a reference to none of them is
    the [nil] channel. *)
Abbreviation heap := (gmap positive channel).

(** [select { case ch <- v: default: }]: the heap after it, or [None] when
    it panics (a send on a closed channel). On the [nil] channel and on a
    full channel the [default] case runs and nothing changes. *)
Definition trySend (v : string) (h : heap) (ch : positive) : option heap :=
  match h !! ch with
  | None => Some h
  | Some c =>
      if closed c then None
      else if full c then Some h
      else Some (<[ch := deliver c v]> h)
  end.

(** *** The watcher *)

(** The fields of [sharedWatcher] that the event loop uses: the listeners
    by stream ID, and whether [done] is closed. *)
Record sharedWatcher := mkSharedWatcher {
  listeners : gmap string positive;
  done : bool
}.

(** [addListener] *)
Definition addListener (sw : sharedWatcher) (streamID : string) (ch : positive)
    : sharedWatcher :=
  mkSharedWatcher (<[streamID := ch]> (listeners sw)) (done sw).

(** [removeListener] *)
Definition removeListener (sw : sharedWatcher) (streamID : string) : sharedWatcher :=
  mkSharedWatcher (delete streamID (listeners sw)) (done sw).

(** The body of [broadcast] for the channels in the order in which [range]
    visits them. *)
Fixpoint broadcastIn (order : list positive) (path : string) (h : heap) : option heap :=
  match order with
  | [] => Some h
  | ch :: rest =>
      match trySend path h ch with
      | Some h' => broadcastIn rest path h'
      | None => None
      end
  end.

(** The channels of the listeners, in the order of the map's enumeration. *)
Definition listenerChannels (sw : sharedWatcher) : list positive :=
  (map_to_list (listeners sw)).*2.

(** [broadcast] *)
Definition broadcast (sw : sharedWatcher) (path : string) (h : heap) : option heap :=
  broadcastIn (listenerChannels sw) path h.

(** What one [select] of the loop receives, and what the streams do to the
    listeners between two of them. *)
Inductive input :=
| Cancelled
| Received (ev : Event)
| EventsClosed
| Failed (err : string)
| ErrorsClosed
| Added (streamID : string) (ch : positive)
| Removed (streamID : string).

Section Loop.

(** [filepath.Clean] of Go's library. *)
Variable Clean : string -> string.

(** The [case event, ok := <-sw.watcher.Events] of the loop, for an event
    that was received. *)
Definition onEvent (sw : sharedWatcher) (ev : Event) (h : heap) : option heap :=
  if negb (GoString.HasSuffix (EventName ev) ".swift") then Some h
  else if negb (Has ev Write) && negb (Has ev Create) then Some h
  else
    let cleanPath := Clean (EventName ev) in
    broadcast sw cleanPath h.

(** [loop], over the inputs that arrive: the watcher, the heap and the
    warnings logged, or [None] when a send panics. When the inputs run out
    before the loop returns, it waits in its [select] ([done] still open). *)
Fixpoint loop (sw : sharedWatcher) (h : heap) (warnings : list string)
    (inputs : list input) : option (sharedWatcher * heap * list string) :=
  match inputs with
  | [] => Some (sw, h, warnings)
  | i :: rest =>
      if done sw then Some (sw, h, warnings)
      else
        match i with
        | Cancelled | EventsClosed | ErrorsClosed =>
            Some (mkSharedWatcher (listeners sw) true, h, warnings)
        | Received ev =>
            match onEvent sw ev h with
            | Some h' => loop sw h' warnings rest
            | None => None
            end
        | Failed err => loop sw h (warnings ++ [err]) rest
        | Added streamID ch => loop (addListener sw streamID ch) h warnings rest
        | Removed streamID => loop (removeListener sw streamID) h warnings rest
        end
  end.

End Loop.

(** *** What the specification says of the watcher *)

(** The event is one that the watcher forwards. *)
Definition forwarded (ev : Event) : Prop :=
  GoString.HasSuffix (EventName ev) ".swift" = true /\
  (Has ev Write = true \/ Has ev Create = true).

(** The number of listeners that hold the channel [ch]. *)
Definition holders (order : list positive) (ch : positive) : nat :=
  length (List.filter (fun c => bool_decide (c = ch)) order).

(** One non-blocking send of [v], seen from a channel that is not closed:
    dropped when the channel is full, delivered otherwise. *)
Definition sendOnce (v : string) (c : channel) : channel :=
  if full c then c else deliver c v.

(** [n] such sends. *)
Fixpoint sendTimes (n : nat) (v : string) (c : channel) : channel :=
  match n with
  | O => c
  | S n' => sendTimes n' v (sendOnce v c)
  end.

(** No listener holds a closed channel. *)
Definition noneClosed (order : list positive) (h : heap) : Prop :=
  forall ch c, In ch order -> h !! ch = Some c -> closed c = false.

(** *** A watcher with two listeners *)

(** Stream "a" listens on channel 1, stream "b" on channel 2. *)
Definition swTwo : sharedWatcher :=
  addListener (addListener (mkSharedWatcher ∅ false) "a" 1%positive) "b" 2%positive.

(** Channel 1 has room for four paths and is empty; channel 2 has room for
    one and holds one. *)
Definition heapTwo : heap :=
  <[1%positive := mkChannel 4 [] 0 [] false]>
    (<[2%positive := mkChannel 1 ["/p/Old.swift"] 0 [] false]> ∅).

Definition writeOfView : Event := mkEvent "/p/View.swift" Write.

End Watcher.

(** ** The managed simulators of the platform package *)

Module Simulators.

(** A simulator of axe's device set, as the store lists it; of its fields
    the numbering reads the name only. *)
Record ManagedSimulator := mkManaged {
  Name : string
}.

(** The number [N] of a device named ["axe <base> (N)"], with [N] written
    in decimal digits; [None] for any other name. *)
Definition sequenceOf (baseName name : string) : option Z :=
  match GoString.CutPrefix name ("axe " +:+ baseName +:+ " (") with
  | None => None
  | Some rest =>
      match GoString.CutSuffix rest ")" with
      | None => None
      | Some digits =>
          if Platform.allDigits digits && negb (bool_decide (digits = ""))
          then Some (Platform.decimal digits) else None
      end
  end.

(** The numbers in use for [baseName], in the order of the devices. *)
Definition sequenceNumbers (devices : list ManagedSimulator) (baseName : string) : list Z :=
  omap (fun d => sequenceOf baseName (Name d)) devices.

(** Modelled from the spec: [nextSequenceNumber] of the platform package,
    which is not among the sources (its test, TestNextSequenceNumber, is):
    "[next_sequence_number(devices, base)] returns [max(existing N for
    base) + 1], or [1] if none", the devices counted being those named
    ["axe <base> (N)"]. *)
Definition nextSequenceNumber (devices : list ManagedSimulator) (baseName : string) : Z :=
  match sequenceNumbers devices baseName with
  | [] => 1
  | n :: ns => fold_left Z.max ns n + 1
  end.

(** The name that creation gives to the device with number [n]. *)
Definition hasSequenceName (baseName : string) (n : Z) (name : string) : Prop :=
  exists digits,
    name = "axe " +:+ baseName +:+ " (" +:+ digits +:+ ")" /\
    Platform.allDigits digits = true /\ digits <> "" /\ Platform.decimal digits = n.

(** The device lists of TestNextSequenceNumber. *)
Definition named (names : list string) : list ManagedSimulator := map mkManaged names.

End Simulators.

(** ** The idb package: the companion subprocess

    The sources of the package are not at hand, its tests
    (companion_test.go) are; the definitions below follow the specification
    and what the tests show of the interface. *)

Module Idb.
Import Go.

(** A value of a JSON object, as far as the companion's lines go. *)
Inductive jsonValue :=
| JNull
| JBool (b : bool)
| JInt (n : Z)
| JString (s : string)
| JOther.

(** A line of the subprocess's standard output: a JSON object, or anything
    else (a log line, an empty line). *)
Inductive stdoutLine :=
| Text (text : string)
| Object (fields : gmap string jsonValue).

(** [strconv.Itoa] *)
Definition Itoa (n : Z) : string := NilZero.string_of_int (Z.to_int n).

(** Modelled from the spec: [parseCompanionPort] of the idb package, which
    is not among the sources (TestParseCompanionPort is): the port of a line
    that "is a single JSON object [which] contains a non-zero [grpc_port]",
    and the empty string for any other line. *)
Definition parseCompanionPort (line : stdoutLine) : string :=
  match line with
  | Text _ => ""
  | Object fields =>
      match fields !! "grpc_port" with
      | Some (JInt n) => if n =? 0 then "" else Itoa n
      | _ => ""
      end
  end.

(** A line that reports the state "Booted". *)
Definition reportsBooted (line : stdoutLine) : bool :=
  match line with
  | Text _ => false
  | Object fields =>
      match fields !! "state" with
      | Some (JString s) => bool_decide (s = "Booted")
      | _ => false
      end
  end.

(** What a [CmdRunner] does: the errors of [StdoutPipe] and of [Start], the
    handle that [Process] returns ([None] for [nil]), and the lines written
    to standard output before it is closed. *)
Record CmdRunner := mkCmdRunner {
  pipeError : option string;
  startError : option string;
  processHandle : option positive;
  stdoutLines : list stdoutLine
}.

(** A [Commander]: the command it makes for a name and arguments. *)
Abbreviation Commander := (list string -> CmdRunner).

(** The handle on the subprocess: the port of the handshake, the process,
    whether the channel of [Done] is closed, and the error of the exit. *)
Record Companion := mkCompanion {
  port : string;
  process : option positive;
  doneClosed : bool;
  exitError : option string
}.

Definition Port (c : Companion) : string := port c.
Definition Address (c : Companion) : string := "localhost:" +:+ port c.
Definition Done (c : Companion) : bool := doneClosed c.
Definition Err (c : Companion) : option string := exitError c.

(** The optional [--device-set-path] argument. *)
Definition deviceSetArgs (deviceSetPath : string) : list string :=
  if bool_decide (deviceSetPath = "") then [] else ["--device-set-path"; deviceSetPath].

(** The port of the first line that has one. *)
Fixpoint firstPort (lines : list stdoutLine) : option string :=
  match lines with
  | [] => None
  | line :: rest =>
      if bool_decide (parseCompanionPort line = "") then firstPort rest
      else Some (parseCompanionPort line)
  end.

(** Modelled from the spec: [StartWith] of the idb package, which is not
    among the sources (its tests are): the companion is launched with the
    UDID and the device set path; the first line with a non-zero
    [grpc_port] "establishes readiness"; the output before it is ignored;
    "if stdout closes without yielding a usable port, fail". *)
Definition StartWith (cmdr : Commander) (udid deviceSetPath : string) : result Companion :=
  let cmd := cmdr (["idb_companion"; "--udid"; udid; "--grpc-port"; "0"]
                   ++ deviceSetArgs deviceSetPath) in
  match pipeError cmd with
  | Some e => Error e
  | None =>
      match startError cmd with
      | Some e => Error e
      | None =>
          match firstPort (stdoutLines cmd) with
          | Some p => Ok (mkCompanion p (processHandle cmd) false None)
          | None => Error "idb_companion did not output a port"
          end
      end
  end.

(** Modelled from the spec: [BootHeadlessWith] of the idb package, which is
    not among the sources (its tests are): "[boot_headless] returns a
    handle whose [done] signal closes when the underlying subprocess
    exits"; the boot fails when the subprocess "did not report [Booted]
    state". *)
Definition BootHeadlessWith (cmdr : Commander) (udid deviceSetPath : string)
    : result Companion :=
  let cmd := cmdr (["idb_companion"; "--boot"; udid; "--headless"; "1"]
                   ++ deviceSetArgs deviceSetPath) in
  match pipeError cmd with
  | Some e => Error e
  | None =>
      match startError cmd with
      | Some e => Error e
      | None =>
          if existsb reportsBooted (stdoutLines cmd)
          then Ok (mkCompanion "" (processHandle cmd) false None)
          else Error "idb_companion did not report Booted state"
      end
  end.

(** What the subprocess does once the call has returned: it writes more
    lines, and at some point it exits, [Wait] returning [waitError]
    ([None] for a clean exit). *)
Inductive procEvent :=
| Wrote (line : stdoutLine)
| Exited (waitError : option string).

(** Modelled from the spec: what the handle does when [Wait] returns: the
    error is kept and [done] is closed ("a handle whose [done] signal
    closes when the underlying subprocess exits"). *)
Definition onExit (c : Companion) (waitError : option string) : Companion :=
  mkCompanion (port c) (process c) true waitError.

(** One event of the subprocess, seen from the handle. [Wait] returns once:
    nothing changes after the exit. *)
Definition handle (c : Companion) (ev : procEvent) : Companion :=
  match ev with
  | Wrote _ => c
  | Exited waitError => if doneClosed c then c else onExit c waitError
  end.

(** The handle after the subprocess has gone through [trace]. *)
Definition after (c : Companion) (trace : list procEvent) : Companion :=
  fold_left handle trace c.

(** The subprocess is still running at the end of [trace]. *)
Definition running (trace : list procEvent) : Prop :=
  forall waitError, ~ In (Exited waitError) trace.



(** *** What the specification says of the handshake *)

(** The line is a JSON object with a non-zero [grpc_port], written [p]. *)
Definition usablePort (line : stdoutLine) (p : string) : Prop :=
  exists fields n,
    line = Object fields /\ fields !! "grpc_port" = Some (JInt n) /\
    n <> 0 /\ p = Itoa n.

(** The line has no usable port: it is not a JSON object, or the object has
    no integer [grpc_port], or a [grpc_port] of zero. *)
Definition noUsablePort (line : stdoutLine) : Prop := forall p, ~ usablePort line p.

(** *** The commands of the tests *)

(** A [fakeCommander] whose command writes the given lines and has no
    process handle. *)
Definition fakeCommander (lines : list stdoutLine) : Commander :=
  fun _ => mkCmdRunner None None None lines.

Definition portLine (n : Z) : stdoutLine :=
  Object (<["grpc_swift_port" := JInt n]> (<["grpc_port" := JInt n]> ∅)).

Definition bootedLine (udid : string) : stdoutLine :=
  Object (<["state" := JString "Booted"]> (<["udid" := JString udid]> ∅)).

End Idb.

(** ** The directory layout of the preview package

    [newPreviewDirs] is not among the sources, its tests
    (TestNewPreviewDirs_...) are; the layout below follows section 3 of the
    specification. *)

Module Dirs.

Record previewDirs := mkPreviewDirs {
  Root : string;
  Build : string;
  Session : string;
  Thunk : string;
  Loader : string;
  Staging : string;
  Socket : string
}.

(** The limit of a Unix-domain-socket path on the platform. *)
Definition maxSunPathLen : nat := 104.

Section Layout.

(** The cache directory, the hash of a project key as it is written in a
    path, and the name of the socket of a device (the specification fixes
    none of the three). *)
Variable cache : string.
Variable hash : string -> string.
Variable socketName : string -> string.

(** Modelled from the spec: the paths of [newPreviewDirs], which is not
    among the sources: "[Root] = [<cache>/<hash(project_key)>]; [Build] =
    [Root/build]; [Session] = [Root/devices/<udid>]; [Thunk], [Loader],
    [Staging] = subdirectories of [Session]; [Socket] = a short path under
    [Root] (never under [Session])". *)
Definition layout (projectPath udid : string) : previewDirs :=
  let root := cache +:+ "/" +:+ hash projectPath in
  let session := root +:+ "/devices/" +:+ udid in
  {| Root := root;
     Build := root +:+ "/build";
     Session := session;
     Thunk := session +:+ "/thunk";
     Loader := session +:+ "/loader";
     Staging := session +:+ "/staging";
     Socket := root +:+ "/" +:+ socketName udid |}.




End Layout.

(** *** Counting strings *)



(** *** A layout to try the definitions on *)

Definition toyHash (projectPath : string) : string :=
  if bool_decide (projectPath = "/path/to/project") then "3f2a9c01d4e5b677"
  else "a1b2c3d4e5f60718".

Definition toySocketName (udid : string) : string :=
  String.substring 0 8 udid +:+ ".sock".

End Dirs.

(** * More of the code

    The functions around those above: what they return on the edges of
    their domain, what they keep, and how they compose. *)

From stdpp Require Import sorting.

Local Open Scope Z_scope.

(** ** cmd/internal/platform/simulator.go, besides the resolution order *)

Module PlatformMore.
Import Go Platform.

(** [d1] does not come after [d2] in the order of [sort.Slice]: by name,
    in byte order. *)
Definition nameLe (d1 d2 : simDevice) : Prop :=
  String.leb (Name d1) (Name d2) = true.

(** The same order on the names. *)
Definition strLe (a b : string) : Prop := String.leb a b = true.

(** The listing without what the selection of the latest iPhone skips: the
    runtimes that are no iOS runtimes, and in the others the devices whose
    name does not contain "iPhone". *)
Definition iPhonesOnly (entries : list (string * list simDevice))
    : list (string * list simDevice) :=
  map (fun entry : string * list simDevice =>
         (entry.1,
          List.filter (fun d => GoString.Contains (Name d) "iPhone") entry.2))
      (List.filter (fun entry : string * list simDevice =>
                      negb ((parseIOSVersion entry.1).1 <? 0))
                   entries).

(** The [MkdirAll] actions of a trace. *)
Definition isMkdir (a : action) : bool :=
  match a with
  | MkdirAll _ => true
  | _ => false
  end.

End PlatformMore.

(** ** cmd/internal/preview/shared_watcher.go, besides one broadcast *)

Module WatcherMore.
Import Watcher.

(** No queue holds more than the capacity of its channel. *)
Definition withinCapacity (h : heap) : Prop :=
  forall ch c, h !! ch = Some c -> (length (queue c) <= capacity c)%nat.

(** [c'] is the channel [c] after it has taken some values, all of which
    satisfy [P]: nothing that was queued or handed over is gone or has
    moved, the new values come after the old ones, each value handed over
    went to a receiver that was parked, and the capacity and the closed
    flag are the same. *)
Definition grownBy (P : string -> Prop) (c c' : channel) : Prop :=
  capacity c' = capacity c /\ closed c' = closed c /\
  exists queued given,
    queue c' = queue c ++ queued /\ handed c' = handed c ++ given /\
    Forall P queued /\ Forall P given /\
    (parked c' + length given = parked c)%nat.

(** The same for every channel of the heap; no channel appears or
    disappears. *)
Definition heapGrownBy (P : string -> Prop) (h h' : heap) : Prop :=
  forall ch,
    match h !! ch, h' !! ch with
    | Some c, Some c' => grownBy P c c'
    | None, None => True
    | _, _ => False
    end.

(** [v] is the cleaned path of an event among [inputs] that the watcher
    forwards. *)
Definition forwardedPath (Clean : string -> string) (inputs : list input)
    (v : string) : Prop :=
  exists ev, In (Received ev) inputs /\ forwarded ev /\ v = Clean (EventName ev).

(** The inputs on which [loop] returns. *)
Definition isStop (i : input) : bool :=
  match i with
  | Cancelled | EventsClosed | ErrorsClosed => true
  | _ => false
  end.

Definition isFailed (i : input) : bool :=
  match i with
  | Failed _ => true
  | _ => false
  end.

(** The errors received before the loop returns, in their order. *)
Fixpoint errorsBeforeStop (inputs : list input) : list string :=
  match inputs with
  | [] => []
  | i :: rest =>
      if isStop i then []
      else
        match i with
        | Failed err => err :: errorsBeforeStop rest
        | _ => errorsBeforeStop rest
        end
  end.

End WatcherMore.

(** ** cmd/internal/preview/shared_watcher.go: starting the watcher *)

Module WatcherStart.
Import Go Watcher.

(** What [newSharedWatcher] does, in the order in which it does it. *)
Inductive action :=
| NewWatcher                                 (* fsnotify.NewWatcher() gave a watcher *)
| SlogDebug (msg : string) (args : list string)
| WatcherAdd (dir : string)                  (* watcher.Add(dir) was called *)
| WatcherClose                               (* watcher.Close() *)
| GoLoop.                                    (* go sw.loop(loopCtx) *)

(** What the function finds around it: the error of
    [fsnotify.NewWatcher], [pc.primaryPath()], the results of
    [gitSwiftDirs] and of [walkSwiftDirs] for a root, and the error of
    [watcher.Add] for a directory, given the directories watched so far. *)
Record world := mkWorld {
  NewWatcherErr : option string;
  primaryPath : string;
  gitSwiftDirs : string -> result (list string);
  walkSwiftDirs : string -> result (list string);
  AddErr : list string -> string -> option string
}.

Section NewSharedWatcher.

(** [filepath.Dir] of Go's library. *)
Variable Dir : string -> string.

Variable w : world.

(** [for _, d := range watchDirs { if err := watcher.Add(d); err != nil
    { slog.Debug(...) } }]: what is done, and the directories watched at
    the end. *)
Fixpoint addAll (watched : list string) (watchDirs : list string)
    : list action * list string :=
  match watchDirs with
  | [] => ([], watched)
  | d :: rest =>
      match AddErr w watched d with
      | Some err =>
          let '(t, final) := addAll watched rest in
          (WatcherAdd d :: SlogDebug "Cannot watch directory" [d; err] :: t, final)
      | None =>
          let '(t, final) := addAll (watched ++ [d]) rest in
          (WatcherAdd d :: t, final)
      end
  end.

(** The function from the loop over [watchDirs] on. *)
Definition start (before : list action) (watchDirs : list string)
    : list action * result (sharedWatcher * list string) :=
  let '(t, final) := addAll [] watchDirs in
  (before ++ t ++ [GoLoop], Ok (mkSharedWatcher ∅ false, final)).

(** [newSharedWatcher]: what is done, and the error or the watcher with
    the directories that it watches. *)
Definition newSharedWatcher : list action * result (sharedWatcher * list string) :=
  match NewWatcherErr w with
  | Some err => ([], Error err)
  | None =>
      let watchRoot := Dir (primaryPath w) in
      match gitSwiftDirs w watchRoot with
      | Ok watchDirs => start [NewWatcher] watchDirs
      | Error err =>
          let dbg := SlogDebug "git ls-files unavailable, falling back to WalkDir" [err] in
          match walkSwiftDirs w watchRoot with
          | Error err' => ([NewWatcher; dbg; WatcherClose], Error err')
          | Ok watchDirs => start [NewWatcher; dbg] watchDirs
          end
      end
  end.

(** The directories for which [newSharedWatcher] looks: those of git, or
    those of the walk when git fails. *)
Definition discovered : result (list string) :=
  match gitSwiftDirs w (Dir (primaryPath w)) with
  | Ok dirs => Ok dirs
  | Error _ => walkSwiftDirs w (Dir (primaryPath w))
  end.

End NewSharedWatcher.

(** The directories given to [watcher.Add], in the order of the calls. *)
Definition attempts (t : list action) : list string :=
  omap (fun a => match a with WatcherAdd d => Some d | _ => None end) t.

Definition isClose (a : action) : bool :=
  match a with WatcherClose => true | _ => false end.

Definition isGoLoop (a : action) : bool :=
  match a with GoLoop => true | _ => false end.

(** A project outside git with two directories, the second of which
    cannot be watched. *)
Definition outsideGit : world :=
  mkWorld None "/p/App.xcodeproj"
    (fun _ => Error "exit status 128")
    (fun root => Ok [root +:+ "/Sources"; root +:+ "/Secret"])
    (fun _ d => if GoString.HasSuffix d "/Secret" then Some "permission denied" else None).

End WatcherStart.

(** ** cmd/axe/preview.go: what [RunE] does after the checks *)

Module PreviewCmdMore.
Import Go PreviewCmd.

(** The flag variables that the merge with .axerc leaves alone. *)
Record modes := mkModes {
  previewWatch : bool;
  previewSelector : string;
  previewServe : bool;
  previewReuseBuild : bool
}.

Section Tail.

(** [preview.ProjectConfig] *)
Variable ProjectConfig : Type.

(** What [RunE] calls before it runs the preview:
    [preview.NewProjectConfig], [platform.CheckIDBCompanion] (its error),
    [filepath.Abs] and [os.Stat] (its error). *)
Record host := mkHost {
  NewProjectConfig : string -> string -> string -> string -> result ProjectConfig;
  CheckIDBCompanion : option string;
  Abs : string -> result string;
  Stat : string -> option string
}.

(** The call in which [RunE] ends when it does not return an error of its
    own: [preview.RunServe(pc)] or [preview.Run(...)]. *)
Inductive call :=
| RunServe (pc : ProjectConfig)
| Run (sourceFile : string) (pc : ProjectConfig) (watch : bool)
      (selector : string) (serve : bool) (device : string) (reuseBuild : bool).

(** [RunE] from [preview.NewProjectConfig] on, for the flag variables as
    the merge has left them: the error returned, or the call whose result
    is returned. *)
Definition afterChecks (hst : host) (m : modes) (args : list string) (f : flags)
    : result call :=
  match NewProjectConfig hst (previewProject f) (previewWorkspace f)
                         (previewScheme f) (previewConfiguration f) with
  | Error err => Error err
  | Ok pc =>
      match CheckIDBCompanion hst with
      | Some err => Error err
      | None =>
          if previewServe m then Ok (RunServe pc)
          else
            match args with
            | [] => Error "source file argument is required (or use --serve for multi-stream mode)"
            | arg0 :: _ =>
                match Abs hst arg0 with
                | Error err => Error ("resolving source path: " +:+ err)
                | Ok sourceFile =>
                    match Stat hst sourceFile with
                    | Some _ => Error ("source file not found: " +:+ sourceFile)
                    | None =>
                        Ok (Run sourceFile pc (previewWatch m) (previewSelector m)
                                (previewServe m) (previewDevice f) (previewReuseBuild m))
                    end
                end
            end
      end
  end.

(** The error that [RunE] returns, given what the last call returns. *)
Definition finish (exec : call -> option string) (r : result call) : option string :=
  match r with
  | Error err => Some err
  | Ok c => exec c
  end.

(** The whole of [RunE]. *)
Definition RunEWith (hst : host) (exec : call -> option string) (m : modes)
    (args : list string) (f : flags) (rc : gmap string string) : flags * option string :=
  RunE (fun f' => finish exec (afterChecks hst m args f')) f rc.

(** The error of [RunE]'s own or the call in which it ends. *)
Definition lastCall (hst : host) (m : modes) (args : list string) (f : flags)
    (rc : gmap string string) : result call :=
  match validate (mergeRC f rc) with
  | Some err => Error err
  | None => afterChecks hst m args (mergeRC f rc)
  end.

End Tail.

Arguments mkHost {ProjectConfig}.
Arguments NewProjectConfig {ProjectConfig}.
Arguments CheckIDBCompanion {ProjectConfig}.
Arguments Abs {ProjectConfig}.
Arguments Stat {ProjectConfig}.
Arguments RunServe {ProjectConfig}.
Arguments Run {ProjectConfig}.
Arguments afterChecks {ProjectConfig}.
Arguments finish {ProjectConfig}.
Arguments RunEWith {ProjectConfig}.
Arguments lastCall {ProjectConfig}.

(** A host on which everything succeeds; the project configuration is the
    scheme. *)
Definition hostFine : host string :=
  mkHost (fun _ _ scheme _ => Ok scheme) None (fun p => Ok ("/cwd/" +:+ p)) (fun _ => None).

End PreviewCmdMore.

(** ** vscode-extension: binaryResolver.ts *)

Module BinaryResolver.
Import Go.

(** What [resolve] does besides returning, in the order in which it does
    it. *)
Inductive effect :=
| CheckCliVersion (execPath : string)
| Which (command : string)
| ShowPrompt (message : string) (items : list string)
| RunInstallScript
| OpenSettings (settingId : string).

(** What one call of [resolve] finds: the setting [axe.executablePath]
    (["axe"] when it is not set), what the promise of [deps.which] gives
    ([null] is [None]) or the error with which it is rejected, the same for
    the choice of [deps.showPrompt] ([undefined] is [None]), what
    [runInstallScript] throws and with what [deps.openSettings] is
    rejected. *)
Record deps := mkDeps {
  executablePath : string;
  which : result (option string);
  showPrompt : result (option string);
  runInstallScript : option string;
  openSettings : option string
}.

(** A value of type [string | null] in a condition: [null] and the empty
    string count as false. *)
Definition truthy (s : option string) : bool :=
  match s with
  | Some s => negb (bool_decide (s = ""))
  | None => false
  end.

(** [resolve], from the field [cachedPath]: the effects, the field after
    the call, and the path with which the promise is resolved or the
    message of the error with which it is rejected. *)
Definition resolve (cachedPath : option string) (d : deps)
    : list effect * option string * result string :=
  if truthy cachedPath then ([], cachedPath, Ok (default "" cachedPath))
  else
    let configured := executablePath d in
    if negb (bool_decide (configured = "axe"))
    then ([CheckCliVersion configured], Some configured, Ok configured)
    else
      match which d with
      | Error err => ([Which "axe"], cachedPath, Error err)
      | Ok whichPath =>
          if truthy whichPath
          then ([Which "axe"; CheckCliVersion (default "" whichPath)],
                whichPath, Ok (default "" whichPath))
          else
            let prompt := ShowPrompt "axe CLI was not found. Install it?"
                                     ["Run Install Script"; "Configure Path"] in
            match showPrompt d with
            | Error err => ([Which "axe"; prompt], cachedPath, Error err)
            | Ok choice =>
                if bool_decide (choice = Some "Run Install Script")
                then
                  match runInstallScript d with
                  | Some err => ([Which "axe"; prompt; RunInstallScript], cachedPath, Error err)
                  | None =>
                      ([Which "axe"; prompt; RunInstallScript], cachedPath,
                       Error "axe binary not available")
                  end
                else if bool_decide (choice = Some "Configure Path")
                then
                  match openSettings d with
                  | Some err =>
                      ([Which "axe"; prompt; OpenSettings "axe.executablePath"],
                       cachedPath, Error err)
                  | None =>
                      ([Which "axe"; prompt; OpenSettings "axe.executablePath"],
                       cachedPath, Error "axe binary not available")
                  end
                else ([Which "axe"; prompt], cachedPath, Error "axe binary not available")
          end
      end.

(** [clearCache] *)
Definition clearCache (cachedPath : option string) : option string := None.

(** Calls of [resolve] one after the other, each with what it finds: the
    effects of all of them, the field at the end and the results. *)
Fixpoint resolveEach (cachedPath : option string) (ds : list deps)
    : list effect * option string * list (result string) :=
  match ds with
  | [] => ([], cachedPath, [])
  | d :: rest =>
      let '(t, c, r) := resolve cachedPath d in
      let '(ts, c', rs) := resolveEach c rest in
      (t ++ ts, c', r :: rs)
  end.

Definition isCheck (e : effect) : bool :=
  match e with CheckCliVersion _ => true | _ => false end.

(** The binary is on the PATH and nothing is configured. *)
Definition onPath : deps :=
  mkDeps "axe" (Ok (Some "/opt/homebrew/bin/axe")) (Ok None) None None.

End BinaryResolver.

(** ** vscode-extension: versionCheck.ts *)

Module VersionCheck.
Import Platform.

(** [s.split(".")] *)
Fixpoint split (s : string) : list string :=
  match s with
  | EmptyString => [""]
  | String c rest =>
      if Ascii.eqb c "." then "" :: split rest
      else
        match split rest with
        | p :: ps => String c p :: ps
        | [] => [String c ""]
        end
  end.

(** [Number(s)] where it is modelled: on a string of at most fifteen
    decimal digits, which denotes an integer that a JavaScript number holds
    exactly (the empty string denotes 0). [None] stands for every other
    value of [Number(s)], [NaN] among them. *)
Definition Number (s : string) : option Z :=
  if allDigits s && (String.length s <=? 15)%nat then Some (decimal s) else None.

(** [pa[i] ?? 0] for [pa = a.split(".").map(Number)] *)
Definition component (parts : list string) (i : nat) : option Z :=
  match parts !! i with
  | Some s => Number s
  | None => Some 0
  end.

(** The loop of [compareSemver] from index [i], for [n] more rounds. A
    difference of numbers that are not modelled is not modelled. *)
Fixpoint compareFrom (pa pb : list string) (i n : nat) : option Z :=
  match n with
  | O => Some 0
  | S n' =>
      match component pa i, component pb i with
      | Some x, Some y =>
          let diff := x - y in
          if negb (diff =? 0) then Some diff else compareFrom pa pb (S i) n'
      | _, _ => None
      end
  end.

(** [compareSemver] *)
Definition compareSemver (a b : string) : option Z :=
  compareFrom (split a) (split b) 0 3.

(** The three numbers that [compareSemver] reads in a version, when they
    are all modelled. *)
Definition version (a : string) : option (Z * Z * Z) :=
  match component (split a) 0, component (split a) 1, component (split a) 2 with
  | Some x, Some y, Some z => Some (x, y, z)
  | _, _, _ => None
  end.

(** The order of versions: by major, then minor, then patch. *)
Definition older (v1 v2 : Z * Z * Z) : Prop :=
  let '(x1, y1, z1) := v1 in
  let '(x2, y2, z2) := v2 in
  x1 < x2 \/ (x1 = x2 /\ (y1 < y2 \/ (y1 = y2 /\ z1 < z2))).

End VersionCheck.

(** * Properties *)

(** ** Go string primitives *)

Module GoStringFacts.
Import GoString.

Lemma sapp_nil_l (t : string) : "" +:+ t = t.
Proof. reflexivity. Qed.

Lemma sapp_cons (c : ascii) (s t : string) : String c s +:+ t = String c (s +:+ t).
Proof. reflexivity. Qed.

Lemma slength_app (a b : string) :
  String.length (a +:+ b) = (String.length a + String.length b)%nat.
Proof.
  induction a as [|c a IH]; [reflexivity|].
  rewrite sapp_cons. cbn [String.length]. now rewrite IH.
Qed.

Lemma sapp_assoc (a b c : string) : (a +:+ b) +:+ c = a +:+ (b +:+ c).
Proof.
  induction a as [|x a IH]; [reflexivity|].
  rewrite !sapp_cons. now rewrite IH.
Qed.

Lemma sapp_nil_r (a : string) : a +:+ "" = a.
Proof.
  induction a as [|x a IH]; [reflexivity|].
  rewrite sapp_cons. now rewrite IH.
Qed.

Lemma HasPrefix_nil (s : string) : HasPrefix s "" = true.
Proof. destruct s; reflexivity. Qed.

Lemma HasPrefix_cons (a b : ascii) (s p : string) :
  HasPrefix (String a s) (String b p) =
  if decide (a = b) then HasPrefix s p else false.
Proof. reflexivity. Qed.

Lemma HasPrefix_app (p t : string) : HasPrefix (p +:+ t) p = true.
Proof.
  induction p as [|c p IH]; [apply HasPrefix_nil|].
  rewrite sapp_cons, HasPrefix_cons. rewrite decide_True by reflexivity. exact IH.
Qed.

Lemma HasPrefix_inv (s p : string) :
  HasPrefix s p = true -> exists t, s = p +:+ t.
Proof.
  revert s. induction p as [|c p IH]; intros s H.
  - exists s. reflexivity.
  - destruct s as [|a s]; [discriminate|]. rewrite HasPrefix_cons in H.
    destruct (decide (a = c)) as [->|]; [|discriminate].
    destruct (IH _ H) as [t ->]. exists t. reflexivity.
Qed.

Lemma HasPrefix_iff (s p : string) :
  HasPrefix s p = true <-> exists t, s = p +:+ t.
Proof.
  split; [apply HasPrefix_inv|]. intros [t ->]. apply HasPrefix_app.
Qed.

Lemma substring_all (s : string) : String.substring 0 (String.length s) s = s.
Proof. induction s as [|c s IH]; cbn; [reflexivity | now rewrite IH]. Qed.

Lemma substring_skip (t x : string) (m : nat) :
  String.substring (String.length t) m (t +:+ x) = String.substring 0 m x.
Proof.
  induction t as [|c t IH]; [reflexivity|].
  rewrite sapp_cons. cbn [String.length String.substring]. exact IH.
Qed.

Lemma substring_split (n m : nat) (s : string) :
  (n + m = String.length s)%nat ->
  s = String.substring 0 n s +:+ String.substring n m s.
Proof.
  revert s. induction n as [|n IH]; intros s H.
  - cbn in H. subst m. rewrite substring_all. now destruct s.
  - destruct s as [|c s]; [discriminate|]. cbn in H. injection H as H.
    cbn [String.substring]. rewrite sapp_cons. now rewrite <- (IH s H).
Qed.

(** [HasSuffix s suf] holds exactly when [s] ends in [suf]. *)
Lemma HasSuffix_iff (s suf : string) :
  HasSuffix s suf = true <-> exists t, s = t +:+ suf.
Proof.
  unfold HasSuffix. rewrite andb_true_iff, Nat.leb_le, bool_decide_eq_true. split.
  - intros [L E].
    exists (String.substring 0 (String.length s - String.length suf) s).
    pose proof (substring_split (String.length s - String.length suf)
                  (String.length suf) s) as H.
    rewrite E in H. apply H. lia.
  - intros [t ->]. rewrite slength_app. split; [lia|].
    replace (String.length t + String.length suf - String.length suf)%nat
      with (String.length t) by lia.
    rewrite substring_skip. apply substring_all.
Qed.

Lemma CutPrefix_nil (s : string) : CutPrefix s "" = Some s.
Proof. now destruct s. Qed.

Lemma CutPrefix_cons (a b : ascii) (s p : string) :
  CutPrefix (String a s) (String b p) =
  if decide (a = b) then CutPrefix s p else None.
Proof. reflexivity. Qed.

Lemma CutPrefix_iff (s p t : string) : CutPrefix s p = Some t <-> s = p +:+ t.
Proof.
  revert s. induction p as [|b p IH]; intros s.
  - rewrite CutPrefix_nil, sapp_nil_l. split; congruence.
  - destruct s as [|a s]; rewrite sapp_cons; [split; discriminate|].
    rewrite CutPrefix_cons. destruct (decide (a = b)) as [->|N].
    + rewrite IH. split; congruence.
    + split; [discriminate | congruence].
Qed.

Lemma app_inj_r (t t' suf : string) : t +:+ suf = t' +:+ suf -> t = t'.
Proof.
  intros H. assert (L : String.length t = String.length t').
  { apply (f_equal String.length) in H. rewrite !slength_app in H. lia. }
  revert t' H L. induction t as [|c t IH]; intros [|c' t'] H L; try discriminate.
  - reflexivity.
  - rewrite !sapp_cons in H. injection H as -> H. injection L as L.
    now rewrite (IH _ H L).
Qed.

Lemma CutSuffix_iff (s suf t : string) : CutSuffix s suf = Some t <-> s = t +:+ suf.
Proof.
  unfold CutSuffix. destruct (HasSuffix s suf) eqn:E.
  - apply HasSuffix_iff in E as [t' ->]. rewrite slength_app.
    replace (String.length t' + String.length suf - String.length suf)%nat
      with (String.length t' + 0)%nat by lia.
    pose proof (substring_split (String.length t') 0 t') as H.
    rewrite Nat.add_0_r in *.
    assert (P : String.substring 0 (String.length t') (t' +:+ suf) = t').
    { clear. induction t' as [|c t' IH]; [now destruct suf|].
      rewrite sapp_cons. cbn. now rewrite IH. }
    rewrite P. split; [congruence|]. intros H'. apply app_inj_r in H'. congruence.
  - split; [discriminate|]. intros ->.
    assert (HasSuffix (t +:+ suf) suf = true) by (apply HasSuffix_iff; eauto).
    congruence.
Qed.

End GoStringFacts.

(** ** cmd/axe/preview.go *)

Module PreviewCmdFacts.
Import PreviewCmd.

Lemma fallback_spec (flag : string) (rc : gmap string string) (k : string) :
  fallback flag rc k = if bool_decide (flag = "") then rcGet rc k else flag.
Proof.
  unfold fallback. destruct (bool_decide_reflect (flag = "")) as [->|]; cbn; [|reflexivity].
  destruct (bool_decide_reflect (rcGet rc k = "")) as [->|]; reflexivity.
Qed.

Lemma fallback_explicit (flag : string) (rc : gmap string string) (k : string) :
  flag <> "" -> fallback flag rc k = flag.
Proof. intros H. rewrite fallback_spec. now rewrite bool_decide_eq_false_2. Qed.

Lemma fallback_unset (rc : gmap string string) (k : string) :
  fallback "" rc k = rcGet rc k.
Proof. now rewrite fallback_spec. Qed.

Lemma validate_None (f : flags) :
  validate f = None <->
  ((previewProject f = "" /\ previewWorkspace f <> "") \/
   (previewProject f <> "" /\ previewWorkspace f = "")) /\
  previewScheme f <> "".
Proof.
  unfold validate.
  destruct (bool_decide_reflect (previewProject f = ""));
  destruct (bool_decide_reflect (previewWorkspace f = ""));
  destruct (bool_decide_reflect (previewScheme f = "")); cbn;
  split; try discriminate; try tauto; intros _; tauto.
Qed.

(** C7. Every .axerc key (PROJECT, WORKSPACE, SCHEME, CONFIGURATION, DEVICE)
    is consulted only for a flag that is empty, so a non-empty explicit flag
    is kept whatever .axerc says; and after the merge [RunE] returns an
    error when project and workspace are both set, when neither is set, and
    when the scheme is empty (and it reaches the rest of the command exactly
    when none of these holds). *)
Theorem C7_flags_override_axerc_and_validation
    (run : flags -> option string) (f : flags) (rc : gmap string string) :
  let f' := (RunE run f rc).1 in
  let err := (RunE run f rc).2 in
  (previewProject f' = merged (previewProject f) rc "PROJECT" /\
   previewWorkspace f' = merged (previewWorkspace f) rc "WORKSPACE" /\
   previewScheme f' = merged (previewScheme f) rc "SCHEME" /\
   previewConfiguration f' = merged (previewConfiguration f) rc "CONFIGURATION" /\
   previewDevice f' = merged (previewDevice f) rc "DEVICE") /\
  ((previewProject f <> "" -> previewProject f' = previewProject f) /\
   (previewWorkspace f <> "" -> previewWorkspace f' = previewWorkspace f) /\
   (previewScheme f <> "" -> previewScheme f' = previewScheme f) /\
   (previewConfiguration f <> "" -> previewConfiguration f' = previewConfiguration f) /\
   (previewDevice f <> "" -> previewDevice f' = previewDevice f)) /\
  (previewProject f' <> "" /\ previewWorkspace f' <> "" ->
     err = Some "--project and --workspace are mutually exclusive") /\
  (previewProject f' = "" /\ previewWorkspace f' = "" ->
     err = Some "either --project or --workspace is required. Use flags or set PROJECT/WORKSPACE in .axerc") /\
  (previewScheme f' = "" -> is_Some err) /\
  (((previewProject f' = "" /\ previewWorkspace f' <> "") \/
    (previewProject f' <> "" /\ previewWorkspace f' = "")) /\
   previewScheme f' <> "" -> err = run f').
Proof.
  assert (Hf : (RunE run f rc).1 = mergeRC f rc).
  { unfold RunE. destruct (validate (mergeRC f rc)); reflexivity. }
  cbv zeta. rewrite Hf.
  split; [|split].
  - cbn. unfold merged. rewrite !fallback_spec. repeat split.
  - cbn. repeat split; intros H; now apply fallback_explicit.
  - set (f' := mergeRC f rc). unfold RunE. fold f'.
    pose proof (validate_None f') as HN.
    unfold validate in *.
    destruct (bool_decide_reflect (previewProject f' = ""));
    destruct (bool_decide_reflect (previewWorkspace f' = ""));
    destruct (bool_decide_reflect (previewScheme f' = "")); cbn in *;
    repeat split; intros; try tauto; try (eexists; reflexivity).
Qed.

(** A run of the merge on concrete values: the explicit scheme wins over
    .axerc, the missing project is taken from it. *)
Example mergeRC_example :
  mergeRC (mkFlags "" "" "Explicit" "" "")
          (<["PROJECT" := "MyApp.xcodeproj"]> (<["SCHEME" := "MyApp"]> ∅))
  = mkFlags "MyApp.xcodeproj" "" "Explicit" "" "".
Proof. reflexivity. Qed.

End PreviewCmdFacts.

(** ** cmd/internal/platform/simulator.go: parseIOSVersion *)

Module ParseFacts.
Import GoString GoStringFacts Platform.

Lemma app_same_length (a a' b b' : string) :
  a +:+ b = a' +:+ b' -> String.length a = String.length a' -> a = a' /\ b = b'.
Proof.
  revert a'. induction a as [|c a IH]; intros [|c' a'] H L; try discriminate.
  - split; [reflexivity | exact H].
  - rewrite !sapp_cons in H. injection H as -> H. injection L as L.
    destruct (IH _ H L) as [-> ->]. split; reflexivity.
Qed.

Lemma spanDigits_app (s : string) : s = (spanDigits s).1 +:+ (spanDigits s).2.
Proof.
  induction s as [|c s IH]; [reflexivity|]. cbn.
  destruct (isDigit c); cbn; [|reflexivity].
  rewrite sapp_cons. now rewrite <- IH.
Qed.

Lemma spanDigits_digits (s : string) : allDigits (spanDigits s).1 = true.
Proof.
  induction s as [|c s IH]; [reflexivity|]. cbn.
  destruct (isDigit c) eqn:E; cbn; [|reflexivity]. now rewrite E.
Qed.

Lemma spanDigits_rest (s : string) : noDigitAhead (spanDigits s).2.
Proof.
  induction s as [|c s IH]; [exact I|]. cbn.
  destruct (isDigit c) eqn:E; cbn; [exact IH | exact E].
Qed.

Lemma spanDigits_stop (r : string) : noDigitAhead r -> spanDigits r = ("", r).
Proof.
  destruct r as [|c r]; [reflexivity|]. cbn. now intros ->.
Qed.

Lemma spanDigits_prepend (d r : string) :
  allDigits d = true ->
  spanDigits (d +:+ r) = (d +:+ (spanDigits r).1, (spanDigits r).2).
Proof.
  induction d as [|c d IH]; intros H.
  - rewrite !sapp_nil_l. now destruct (spanDigits r).
  - cbn in H. apply andb_true_iff in H as [Hc Hd].
    rewrite sapp_cons. cbn. rewrite Hc, (IH Hd). reflexivity.
Qed.

Lemma spanDigits_unique (d r : string) :
  allDigits d = true -> noDigitAhead r -> spanDigits (d +:+ r) = (d, r).
Proof.
  intros Hd Hr. rewrite (spanDigits_prepend _ _ Hd), (spanDigits_stop _ Hr).
  cbn. now rewrite sapp_nil_r.
Qed.

Lemma allDigits_app (a b : string) :
  allDigits (a +:+ b) = allDigits a && allDigits b.
Proof.
  induction a as [|c a IH]; [reflexivity|].
  rewrite sapp_cons. cbn. rewrite IH. now rewrite andb_assoc.
Qed.

Lemma dash_not_digit : isDigit "-" = false.
Proof. reflexivity. Qed.

(** A match at the head of [s], whatever the length of its second group,
    makes [matchHere] report the first group and the completed second one. *)
Lemma matchHere_complete (s d1 d2 post : string) :
  iosForm s "" d1 d2 post ->
  matchHere s = Some (d1, d2 +:+ (spanDigits post).1).
Proof.
  intros (-> & H1 & N1 & H2 & N2). rewrite sapp_nil_l.
  change ("iOS-" +:+ d1 +:+ "-" +:+ d2 +:+ post)
    with (String "i" (String "O" (String "S" (String "-"
            (d1 +:+ String "-" (d2 +:+ post)))))).
  unfold matchHere.
  rewrite (spanDigits_unique d1 (String "-" (d2 +:+ post)) H1 dash_not_digit).
  destruct d1 as [|c1 d1]; [congruence|].
  rewrite (spanDigits_prepend d2 post H2).
  destruct d2 as [|c2 d2]; [congruence|]. reflexivity.
Qed.

Lemma matchHere_sound (s d1 d2 : string) :
  matchHere s = Some (d1, d2) ->
  exists post, iosForm s "" d1 d2 post /\ noDigitAhead post.
Proof.
  unfold matchHere. intros H.
  destruct s as [|c0 s]; [discriminate|].
  destruct (decide (c0 = "i"%char)) as [->|N];
    [|destruct c0 as [[] [] [] [] [] [] [] []]; congruence].
  destruct s as [|c1 s]; [discriminate|].
  destruct (decide (c1 = "O"%char)) as [->|N];
    [|destruct c1 as [[] [] [] [] [] [] [] []]; congruence].
  destruct s as [|c2 s]; [discriminate|].
  destruct (decide (c2 = "S"%char)) as [->|N];
    [|destruct c2 as [[] [] [] [] [] [] [] []]; congruence].
  destruct s as [|c3 s]; [discriminate|].
  destruct (decide (c3 = "-"%char)) as [->|N];
    [|destruct c3 as [[] [] [] [] [] [] [] []]; congruence].
  pose proof (spanDigits_app s) as Happ.
  pose proof (spanDigits_digits s) as Hdig.
  destruct (spanDigits s) as [e1 r1]. cbn [fst snd] in *.
  destruct e1 as [|a1 e1]; [discriminate|].
  destruct r1 as [|c4 r1]; [discriminate|].
  destruct (decide (c4 = "-"%char)) as [->|N];
    [|destruct c4 as [[] [] [] [] [] [] [] []]; congruence].
  pose proof (spanDigits_app r1) as Happ2.
  pose proof (spanDigits_digits r1) as Hdig2.
  pose proof (spanDigits_rest r1) as Hrest2.
  destruct (spanDigits r1) as [e2 r2]. cbn [fst snd] in *.
  destruct e2 as [|a2 e2]; [discriminate|].
  injection H as <- <-. exists r2. split; [|exact Hrest2].
  repeat split; try congruence.
  rewrite Happ, Happ2. reflexivity.
Qed.

Lemma iosForm_cons (c : ascii) (s pre d1 d2 post : string) :
  iosForm (String c s) (String c pre) d1 d2 post <-> iosForm s pre d1 d2 post.
Proof.
  unfold iosForm. rewrite sapp_cons. split.
  - intros (H & R). injection H as H. now split.
  - intros (-> & R). now split.
Qed.

Lemma iosForm_nonempty_pre (s : string) (c : ascii) (pre d1 d2 post : string) :
  iosForm s (String c pre) d1 d2 post ->
  exists s', s = String c s' /\ iosForm s' pre d1 d2 post.
Proof.
  intros H. destruct H as (H & R). rewrite sapp_cons in H.
  eexists. split; [exact H|]. now split.
Qed.

Lemma FindStringSubmatch_sound (s d1 d2 : string) :
  FindStringSubmatch s = Some (d1, d2) ->
  exists pre post, leftmostIOSForm s pre d1 d2 post.
Proof.
  induction s as [|c s IH]; cbn [FindStringSubmatch].
  - destruct (matchHere "") eqn:E; [|discriminate]. cbn in E. discriminate.
  - destruct (matchHere (String c s)) as [m|] eqn:E.
    + intros [= ->]. destruct (matchHere_sound _ _ _ E) as (post & F & G).
      exists "", post. split; [exact F|]. split; [exact G|].
      intros. cbn. lia.
    + intros H. destruct (IH H) as (pre & post & F & G & L).
      exists (String c pre), post. split; [now apply iosForm_cons|].
      split; [exact G|].
      intros pre' d1' d2' post' F'. destruct pre' as [|c' pre'].
      * rewrite (matchHere_complete _ _ _ _ F') in E. discriminate.
      * destruct (iosForm_nonempty_pre _ _ _ _ _ _ F') as (s' & [= -> ->] & F'').
        cbn. specialize (L _ _ _ _ F''). lia.
Qed.

Lemma FindStringSubmatch_complete (s : string) :
  hasIOSForm s -> exists m, FindStringSubmatch s = Some m.
Proof.
  intros (pre & d1 & d2 & post & F). revert s F.
  induction pre as [|c pre IH]; intros s F.
  - destruct s as [|c s]; cbn [FindStringSubmatch];
      rewrite (matchHere_complete _ _ _ _ F); eauto.
  - destruct (iosForm_nonempty_pre _ _ _ _ _ _ F) as (s' & -> & F').
    cbn [FindStringSubmatch]. destruct (matchHere (String c s')); eauto.
Qed.

Lemma FindStringSubmatch_None (s : string) :
  FindStringSubmatch s = None <-> ~ hasIOSForm s.
Proof.
  split.
  - intros H F. destruct (FindStringSubmatch_complete _ F) as [m E]. congruence.
  - intros H. destruct (FindStringSubmatch s) as [[d1 d2]|] eqn:E; [|reflexivity].
    destruct (FindStringSubmatch_sound _ _ _ E) as (pre & post & F & _).
    exfalso. apply H. now exists pre, d1, d2, post.
Qed.

Lemma allDigits_head_dash (d1 d2 r1 r2 : string) :
  allDigits d1 = true -> allDigits d2 = true ->
  d1 +:+ String "-" r1 = d2 +:+ String "-" r2 -> d1 = d2 /\ r1 = r2.
Proof.
  revert d2. induction d1 as [|c d1 IH]; intros [|c' d2] H1 H2 E.
  - rewrite !sapp_nil_l in E. injection E as ->. now split.
  - rewrite sapp_nil_l, sapp_cons in E. injection E as <- _. discriminate.
  - rewrite sapp_nil_l, sapp_cons in E. injection E as -> _. discriminate.
  - rewrite !sapp_cons in E. injection E as -> E.
    cbn in H1, H2. apply andb_true_iff in H1 as [_ H1], H2 as [_ H2].
    destruct (IH _ H1 H2 E) as [-> ->]. now split.
Qed.

Lemma leftmostIOSForm_unique (s pre d1 d2 post pre' d1' d2' post' : string) :
  leftmostIOSForm s pre d1 d2 post -> leftmostIOSForm s pre' d1' d2' post' ->
  d1 = d1' /\ d2 = d2'.
Proof.
  intros (F & G & L) (F' & G' & L').
  pose proof (L _ _ _ _ F') as A. pose proof (L' _ _ _ _ F) as B.
  destruct F as (E & H1 & N1 & H2 & N2), F' as (E' & H1' & N1' & H2' & N2').
  rewrite E in E'.
  apply app_same_length in E' as [_ E']; [|lia].
  injection E' as E'.
  apply allDigits_head_dash in E' as [<- E']; [|assumption..].
  split; [reflexivity|].
  assert (S : spanDigits (d2 +:+ post) = spanDigits (d2' +:+ post')) by now rewrite E'.
  rewrite !spanDigits_unique in S by assumption. now injection S.
Qed.

Lemma FindStringSubmatch_leftmost (s pre d1 d2 post : string) :
  leftmostIOSForm s pre d1 d2 post -> FindStringSubmatch s = Some (d1, d2).
Proof.
  intros L. destruct (FindStringSubmatch_complete s) as [[e1 e2] E].
  { destruct L as (F & _). now exists pre, d1, d2, post. }
  destruct (FindStringSubmatch_sound _ _ _ E) as (pre' & post' & L').
  destruct (leftmostIOSForm_unique _ _ _ _ _ _ _ _ _ L L') as [-> ->]. exact E.
Qed.

Lemma decimalFrom_ge (s : string) (acc : Z) :
  allDigits s = true -> 0 <= acc -> acc <= decimalFrom acc s.
Proof.
  revert acc. induction s as [|c s IH]; intros acc H A; cbn; [lia|].
  cbn in H. apply andb_true_iff in H as [Hc Hs].
  assert (0 <= digitVal c <= 9).
  { unfold isDigit in Hc. apply andb_true_iff in Hc as [L U].
    apply Nat.leb_le in L, U. unfold digitVal. lia. }
  specialize (IH (10 * acc + digitVal c) Hs). lia.
Qed.

Lemma decimal_nonneg (s : string) : allDigits s = true -> 0 <= decimal s.
Proof. intros H. now apply (decimalFrom_ge s 0 H). Qed.

Lemma Atoi_digits (d : string) :
  allDigits d = true -> d <> "" -> (Atoi d).1 = intOfDigits d.
Proof.
  intros H N. destruct d as [|c d]; [congruence|].
  pose proof (decimal_nonneg _ H) as P.
  assert (Hc : isDigit c = true) by (cbn in H; now apply andb_true_iff in H as [? _]).
  assert (E : Atoi (String c d) =
              (let v := decimal (String c d) in
               if v >? maxInt then (maxInt, true)
               else if v <? minInt then (minInt, true) else (v, false))).
  { destruct c as [[] [] [] [] [] [] [] []]; try discriminate Hc;
      unfold Atoi; cbv beta iota zeta; rewrite H; reflexivity. }
  rewrite E. cbv zeta. unfold intOfDigits.
  set (v := decimal (String c d)) in *.
  assert (minInt < 0) by reflexivity.
  destruct (Z.gtb_spec v maxInt); cbn [fst]; [lia|].
  destruct (Z.ltb_spec v minInt); cbn [fst]; lia.
Qed.

Lemma intOfDigits_range (d : string) :
  allDigits d = true -> 0 <= intOfDigits d <= maxInt.
Proof.
  intros H. pose proof (decimal_nonneg _ H). unfold intOfDigits.
  assert (0 <= maxInt) by (now compute). lia.
Qed.

Lemma parseIOSVersion_cases (s : string) :
  (FindStringSubmatch s = None /\ parseIOSVersion s = (-1, -1)) \/
  (exists pre d1 d2 post,
     leftmostIOSForm s pre d1 d2 post /\
     parseIOSVersion s = (intOfDigits d1, intOfDigits d2) /\
     0 <= (parseIOSVersion s).1 /\ 0 <= (parseIOSVersion s).2).
Proof.
  unfold parseIOSVersion.
  destruct (FindStringSubmatch s) as [[d1 d2]|] eqn:E; [right|left; now split].
  destruct (FindStringSubmatch_sound _ _ _ E) as (pre & post & L).
  exists pre, d1, d2, post. split; [exact L|].
  destruct L as ((_ & H1 & N1 & H2 & N2) & _).
  rewrite !Atoi_digits by assumption. split; [reflexivity|]. cbn [fst snd].
  split; now apply intOfDigits_range.
Qed.

Lemma parseIOSVersion_minor_nonneg (s : string) :
  0 <= (parseIOSVersion s).1 -> 0 <= (parseIOSVersion s).2.
Proof.
  destruct (parseIOSVersion_cases s) as [[_ E]|(? & ? & ? & ? & _ & _ & _ & M)].
  - rewrite E. cbn. lia.
  - intros _. exact M.
Qed.

Lemma parseIOSVersion_iOS_iff (s : string) :
  0 <= (parseIOSVersion s).1 <-> hasIOSForm s.
Proof.
  destruct (parseIOSVersion_cases s) as [[N E]|(pre & d1 & d2 & post & L & _ & M & _)].
  - rewrite E. cbn. split; [lia|]. intros F. now apply FindStringSubmatch_None in N.
  - split; [intros _|intros _; exact M].
    destruct L as (F & _). now exists pre, d1, d2, post.
Qed.

(** C9. [parseIOSVersion] is defined on every string; on a key of the form
    [...iOS-<major>-<minor>...] it returns the two numbers of the leftmost
    such occurrence as [strconv.Atoi] reads them (their decimal value, which
    for a value beyond the range of [int] is the largest [int]), both
    non-negative; on every other key it returns (-1, -1); and the key
    [com.apple.CoreSimulator.SimRuntime.iOS-18-2] gives (18, 2). *)
Theorem C9_parseIOSVersion_total_and_exact :
  (forall s pre d1 d2 post,
     leftmostIOSForm s pre d1 d2 post ->
     parseIOSVersion s = (intOfDigits d1, intOfDigits d2)) /\
  (forall s, hasIOSForm s ->
     exists pre d1 d2 post,
       leftmostIOSForm s pre d1 d2 post /\
       parseIOSVersion s = (intOfDigits d1, intOfDigits d2) /\
       0 <= (parseIOSVersion s).1 /\ 0 <= (parseIOSVersion s).2) /\
  (forall s, ~ hasIOSForm s <-> parseIOSVersion s = (-1, -1)) /\
  (forall d, allDigits d = true -> decimal d <= maxInt -> intOfDigits d = decimal d) /\
  parseIOSVersion "com.apple.CoreSimulator.SimRuntime.iOS-18-2" = (18, 2).
Proof.
  assert (A : forall s pre d1 d2 post,
     leftmostIOSForm s pre d1 d2 post ->
     parseIOSVersion s = (intOfDigits d1, intOfDigits d2)).
  { intros s pre d1 d2 post L. unfold parseIOSVersion.
    rewrite (FindStringSubmatch_leftmost _ _ _ _ _ L).
    destruct L as ((_ & H1 & N1 & H2 & N2) & _).
    now rewrite !Atoi_digits. }
  split; [exact A|]. split; [|split; [|split]].
  - intros s F. destruct (FindStringSubmatch_complete _ F) as [[d1 d2] E].
    destruct (FindStringSubmatch_sound _ _ _ E) as (pre & post & L).
    exists pre, d1, d2, post. split; [exact L|].
    rewrite (A _ _ _ _ _ L). split; [reflexivity|].
    destruct L as ((_ & H1 & _ & H2 & _) & _). cbn [fst snd].
    split; now apply intOfDigits_range.
  - intros s. rewrite <- FindStringSubmatch_None. unfold parseIOSVersion. split.
    + now intros ->.
    + destruct (FindStringSubmatch s) as [[d1 d2]|] eqn:E; [|reflexivity].
      destruct (FindStringSubmatch_sound _ _ _ E) as (pre & post & L).
      destruct L as ((_ & H1 & N1 & H2 & N2) & _).
      rewrite !Atoi_digits by assumption. intros [= B _].
      pose proof (intOfDigits_range _ H1). lia.
  - intros d H L. unfold intOfDigits. lia.
  - reflexivity.
Qed.

End ParseFacts.

(** ** cmd/internal/platform/simulator.go: findLatestIPhone *)

Module LatestFacts.
Import Go GoString GoStringFacts Platform ParseFacts.

Lemma ltb_leb (a b : string) : String.ltb a b = true -> String.leb a b = true.
Proof. unfold String.ltb, String.leb. now destruct (String.compare a b). Qed.

Lemma ltb_false_leb (a b : string) : String.ltb a b = false -> String.leb b a = true.
Proof.
  unfold String.ltb, String.leb. rewrite (String.compare_antisym a b).
  now destruct (String.compare b a).
Qed.

Lemma leb_refl (a : string) : String.leb a a = true.
Proof.
  pose proof (@reflexivity _ String.le _ a) as H. unfold String.le in H.
  now apply Is_true_true in H.
Qed.

Lemma leb_trans (a b c : string) :
  String.leb a b = true -> String.leb b c = true -> String.leb a c = true.
Proof.
  intros H1 H2. apply Is_true_true.
  apply (@transitivity _ String.le _ a b c); unfold String.le; now apply Is_true_true.
Qed.

Lemma rankLe_refl (v : Z * Z) (n : string) : rankLe v n v n.
Proof. right. right. split; [reflexivity | apply leb_refl]. Qed.

Lemma rankLe_trans (u v w : Z * Z) (a b c : string) :
  rankLe u a v b -> rankLe v b w c -> rankLe u a w c.
Proof.
  destruct u as [u1 u2], v as [v1 v2], w as [w1 w2]. unfold rankLe. cbn.
  intros [H|[[H H']|[[= -> ->] H]]] [K|[[K K']|[[= -> ->] K]]];
    try (left; lia); try (right; left; lia).
  right. right. split; [reflexivity | now apply (leb_trans a b c)].
Qed.

Lemma replaces_true (v : Z * Z) (d : simDevice) (st : selection) :
  replaces v d st = true -> rankLe (bestVersion st) (Name (best st)) v (Name d).
Proof.
  unfold replaces, rankLe. destruct v as [v1 v2], (bestVersion st) as [b1 b2]. cbn.
  intros H. apply orb_true_iff in H as [H|H]; [apply orb_true_iff in H as [H|H]|].
  - left. lia.
  - apply andb_true_iff in H as [H1 H2]. right. left. lia.
  - apply andb_true_iff in H as [H1 H2]. apply bool_decide_eq_true in H1.
    right. right. split; [now symmetry | now apply ltb_leb].
Qed.

Lemma replaces_false (v : Z * Z) (d : simDevice) (st : selection) :
  replaces v d st = false -> rankLe v (Name d) (bestVersion st) (Name (best st)).
Proof.
  unfold replaces, rankLe, GoString.lt.
  destruct v as [v1 v2], (bestVersion st) as [b1 b2]. cbn.
  intros H. apply orb_false_iff in H as [H H3]. apply orb_false_iff in H as [H1 H2].
  apply andb_false_iff in H2, H3.
  destruct (Z.lt_trichotomy v1 b1) as [L|[->|L]]; [left; exact L| |lia].
  destruct (Z.lt_trichotomy v2 b2) as [L|[->|L]]; [right; left; lia| |lia].
  right. right. split; [reflexivity|].
  destruct H3 as [H3|H3]; [now apply bool_decide_eq_false in H3|].
  now apply ltb_false_leb.
Qed.

Lemma considerRuntime_candidates (entry : string * list simDevice) (st : selection) :
  considerRuntime st entry = fold_left step (candidates [entry]) st.
Proof.
  destruct entry as [rt devs]. unfold considerRuntime, candidates. cbn [fst snd flat_map].
  rewrite app_nil_r. destruct (Z.ltb_spec (parseIOSVersion rt).1 0); [reflexivity|].
  revert st. induction devs as [|d devs IH]; intros st; [reflexivity|].
  cbn [fold_left]. rewrite IH. rewrite filter_cons. unfold considerDevice.
  destruct (decide (Contains (Name d) "iPhone" = true)) as [E|E].
  - rewrite E. reflexivity.
  - apply not_true_is_false in E. rewrite E. reflexivity.
Qed.

Lemma candidates_cons (entry : string * list simDevice)
    (entries : list (string * list simDevice)) :
  candidates (entry :: entries) = candidates [entry] ++ candidates entries.
Proof. unfold candidates. cbn [flat_map]. now rewrite app_nil_r. Qed.

Lemma scan_candidates (entries : list (string * list simDevice)) (st : selection) :
  fold_left considerRuntime entries st = fold_left step (candidates entries) st.
Proof.
  revert st. induction entries as [|e es IH]; intros st; [reflexivity|].
  cbn [fold_left]. rewrite IH, candidates_cons, fold_left_app.
  now rewrite considerRuntime_candidates.
Qed.

Lemma In_candidates (entries : list (string * list simDevice))
    (rt : string) (d : simDevice) :
  In (rt, d) (candidates entries) <-> availableIPhone entries rt d.
Proof.
  unfold candidates, availableIPhone. rewrite in_flat_map. split.
  - intros ([rt' devs] & Hin & H). cbn [fst snd] in H.
    destruct (Z.ltb_spec (parseIOSVersion rt').1 0); [contradiction|].
    apply in_map_iff in H as (d' & [= -> ->] & Hd).
    apply list_elem_of_In, list_elem_of_filter in Hd as [Hc Hd].
    apply list_elem_of_In in Hd. eauto 6.
  - intros ((devs & Hin & Hd) & Hv & Hc). exists (rt, devs). split; [exact Hin|].
    cbn [fst snd]. destruct (Z.ltb_spec (parseIOSVersion rt).1 0); [lia|].
    apply in_map_iff. exists d. split; [reflexivity|].
    apply list_elem_of_In, list_elem_of_filter. split; [exact Hc|].
    now apply list_elem_of_In.
Qed.

Lemma step_holdsBest (seen : list (string * simDevice)) (st : selection)
    (c : string * simDevice) :
  holdsBest seen st -> holdsBest (seen ++ [c]) (step st c).
Proof.
  intros (Hin & Hv & Hmax). destruct c as [rt d]. unfold step. cbn [fst snd].
  destruct (replaces (parseIOSVersion rt) d st) eqn:E.
  - split; [|split]; cbn.
    + apply in_or_app. right. now left.
    + reflexivity.
    + intros rt' d' H. apply in_app_or in H as [H|[[= -> ->]|[]]].
      * eapply rankLe_trans; [now apply Hmax | now apply replaces_true].
      * apply rankLe_refl.
  - split; [|split].
    + apply in_or_app. now left.
    + exact Hv.
    + intros rt' d' H. apply in_app_or in H as [H|[[= -> ->]|[]]].
      * now apply Hmax.
      * now apply replaces_false.
Qed.

Lemma fold_holdsBest (l seen : list (string * simDevice)) (st : selection) :
  holdsBest seen st -> holdsBest (seen ++ l) (fold_left step l st).
Proof.
  revert seen st. induction l as [|c l IH]; intros seen st H.
  - now rewrite app_nil_r.
  - cbn [fold_left].
    replace (seen ++ c :: l) with ((seen ++ [c]) ++ l) by now rewrite <- app_assoc.
    apply IH. now apply step_holdsBest.
Qed.

Lemma Contains_nonempty (s : string) : Contains s "iPhone" = true -> s <> "".
Proof. intros H ->. discriminate. Qed.

(** The first candidate always replaces the zero values. *)
Lemma first_candidate (rt : string) (d : simDevice) :
  0 <= (parseIOSVersion rt).1 -> Contains (Name d) "iPhone" = true ->
  step noSelection (rt, d) = mkSelection d rt (parseIOSVersion rt).
Proof.
  intros Hv Hc. unfold step. cbn [fst snd].
  pose proof (parseIOSVersion_minor_nonneg rt Hv) as Hm.
  destruct (replaces (parseIOSVersion rt) d noSelection) eqn:E; [reflexivity|].
  exfalso. apply replaces_false in E. unfold rankLe, noSelection in E.
  cbn [bestVersion best Name zeroDevice fst snd] in E.
  destruct E as [E|[[_ E]|[_ E]]]; [lia..|].
  apply Contains_nonempty in Hc. destruct (Name d); [congruence | discriminate].
Qed.

Lemma scanRuntimes_empty (entries : list (string * list simDevice)) :
  candidates entries = [] -> scanRuntimes entries = noSelection.
Proof. intros H. unfold scanRuntimes. now rewrite scan_candidates, H. Qed.

Lemma scanRuntimes_holdsBest (entries : list (string * list simDevice)) :
  candidates entries <> [] -> holdsBest (candidates entries) (scanRuntimes entries).
Proof.
  intros H. unfold scanRuntimes. rewrite scan_candidates.
  destruct (candidates entries) as [|[rt d] l] eqn:E; [congruence|].
  assert (A : availableIPhone entries rt d) by (apply In_candidates; rewrite E; now left).
  destruct A as (_ & Hv & Hc).
  cbn [fold_left]. rewrite (first_candidate rt d Hv Hc).
  apply (fold_holdsBest l [(rt, d)]).
  split; [|split]; cbn.
  - now left.
  - reflexivity.
  - intros rt' d' [[= -> ->]|[]]. apply rankLe_refl.
Qed.

Lemma skip_non_iOS (rt : string) (devices : list simDevice) (st : selection) :
  ~ hasIOSForm rt -> considerRuntime st (rt, devices) = st.
Proof.
  intros H. apply FindStringSubmatch_None in H.
  unfold considerRuntime, parseIOSVersion. cbn [fst snd]. now rewrite H.
Qed.

Lemma rankLe_antisym (v w : Z * Z) (a b : string) :
  rankLe v a w b -> rankLe w b v a -> v = w /\ a = b.
Proof.
  destruct v as [v1 v2], w as [w1 w2]. unfold rankLe. cbn [fst snd].
  intros [H|[[H H']|[E H]]] [K|[[K K']|[E' K]]]; try lia;
    try (injection E as -> ->; lia); try (injection E' as -> ->; lia).
  split; [exact E | now apply String.leb_antisym].
Qed.

Lemma availableIPhone_Permutation (e1 e2 : list (string * list simDevice))
    (rt : string) (d : simDevice) :
  e1 ≡ₚ e2 -> availableIPhone e1 rt d -> availableIPhone e2 rt d.
Proof.
  intros P ((devs & Hin & Hd) & R). split; [|exact R].
  exists devs. split; [|exact Hd].
  apply list_elem_of_In. rewrite <- P. now apply list_elem_of_In.
Qed.

(** C3. Among the available devices whose name contains "iPhone", in the
    runtimes whose key parses as an iOS version, [findLatestIPhone] returns
    one of maximal (major, minor) version and, among those of that version,
    of the largest name in byte order, whatever the order in which the map
    of runtimes is visited; the devices of a runtime that is not an iOS
    runtime are never looked at; with no such iPhone the function returns
    the error "no available iPhone simulator found"; and it returns a
    device whenever there is such an iPhone and the iPhones listed carry
    their UDID. *)
Theorem C3_findLatestIPhone_selects_maximum
    (entries : list (string * list simDevice)) :
  (forall d rt,
     findLatestIPhone (Listed entries) = Ok (d, rt) ->
     availableIPhone entries rt d /\
     forall rt' d', availableIPhone entries rt' d' ->
       rankLe (parseIOSVersion rt') (Name d') (parseIOSVersion rt) (Name d)) /\
  (forall entries' d rt d' rt',
     entries ≡ₚ entries' ->
     findLatestIPhone (Listed entries) = Ok (d, rt) ->
     findLatestIPhone (Listed entries') = Ok (d', rt') ->
     parseIOSVersion rt = parseIOSVersion rt' /\ Name d = Name d') /\
  (forall rt devices st,
     ~ hasIOSForm rt -> considerRuntime st (rt, devices) = st) /\
  (forall rt d,
     availableIPhone entries rt d <->
     (exists devices, In (rt, devices) entries /\ In d devices) /\
     hasIOSForm rt /\ Contains (Name d) "iPhone" = true) /\
  ((forall rt d, ~ availableIPhone entries rt d) ->
     findLatestIPhone (Listed entries) = Error "no available iPhone simulator found") /\
  ((exists rt d, availableIPhone entries rt d) ->
   (forall rt d, availableIPhone entries rt d -> UDID d <> "") ->
     exists d rt, findLatestIPhone (Listed entries) = Ok (d, rt)).
Proof.
  assert (Max : forall es d rt,
     findLatestIPhone (Listed es) = Ok (d, rt) ->
     availableIPhone es rt d /\
     forall rt' d', availableIPhone es rt' d' ->
       rankLe (parseIOSVersion rt') (Name d') (parseIOSVersion rt) (Name d)).
  { intros es d rt H. cbn in H.
    destruct (bool_decide_reflect (UDID (best (scanRuntimes es)) = "")) as [E|E];
      [discriminate|].
    injection H as <- <-.
    assert (N : candidates es <> []).
    { intros N. rewrite (scanRuntimes_empty _ N) in E. now apply E. }
    destruct (scanRuntimes_holdsBest _ N) as (Hin & Hv & Hmax).
    split; [now apply In_candidates|].
    intros rt' d' A. rewrite <- Hv. apply Hmax. now apply In_candidates. }
  split; [apply Max|]. split; [|split; [|split; [|split]]].
  - intros entries' d rt d' rt' P H H'.
    destruct (Max _ _ _ H) as [A M], (Max _ _ _ H') as [A' M'].
    apply rankLe_antisym.
    + apply M'. now apply (availableIPhone_Permutation entries).
    + apply M. apply (availableIPhone_Permutation entries'); [now symmetry | exact A'].
  - intros rt devices st. apply skip_non_iOS.
  - intros rt d. unfold availableIPhone. now rewrite parseIOSVersion_iOS_iff.
  - intros H. cbn. rewrite scanRuntimes_empty; [reflexivity|].
    destruct (candidates entries) as [|[rt d] l] eqn:E; [reflexivity|].
    exfalso. apply (H rt d), In_candidates. rewrite E. now left.
  - intros (rt & d & A) HU. cbn.
    assert (N : candidates entries <> []).
    { apply In_candidates in A. intros N. now rewrite N in A. }
    destruct (scanRuntimes_holdsBest _ N) as (Hin & _ & _).
    apply In_candidates, HU in Hin.
    rewrite bool_decide_eq_false_2 by exact Hin. eauto.
Qed.

(** The selection on a small device list: the newest iOS runtime wins over
    an older one and over tvOS, and "iPhone 16 Pro" over "iPhone 16". *)
Example findLatestIPhone_example :
  findLatestIPhone (Listed
    [ ("com.apple.CoreSimulator.SimRuntime.iOS-17-5",
         [mkSimDevice "iPhone 15 Pro" "U1" "Shutdown" "t15"]);
      ("com.apple.CoreSimulator.SimRuntime.tvOS-26-0",
         [mkSimDevice "Apple TV iPhone remote" "U2" "Shutdown" "tv"]);
      ("com.apple.CoreSimulator.SimRuntime.iOS-18-2",
         [mkSimDevice "iPhone 16" "U3" "Shutdown" "t16";
          mkSimDevice "iPad Air" "U4" "Shutdown" "tair";
          mkSimDevice "iPhone 16 Pro" "U5" "Shutdown" "t16p"]) ])
  = Ok (mkSimDevice "iPhone 16 Pro" "U5" "Shutdown" "t16p",
         "com.apple.CoreSimulator.SimRuntime.iOS-18-2").
Proof. vm_compute. reflexivity. Qed.

End LatestFacts.

(** ** cmd/internal/platform/simulator.go: ResolveAxeSimulator *)

Module ResolveFacts.
Import Go GoString Platform.

Ltac run_M :=
  unfold mbind, M_bind, mret, M_ret, slog, act, fail, wrap; cbn [fst snd app].

Lemma findByUDID_Some (udid : string) (devices : list simDevice) (d : simDevice) :
  findByUDID udid devices = Some d -> In d devices /\ UDID d = udid.
Proof.
  unfold findByUDID. intros H. apply find_some in H as [H1 H2].
  apply bool_decide_eq_true in H2. now split.
Qed.

Lemma findByUDID_None (udid : string) (devices : list simDevice) :
  findByUDID udid devices = None <-> ~ hasUDID udid devices.
Proof.
  unfold findByUDID, hasUDID. split.
  - intros H (d & Hin & Hd). pose proof (find_none _ _ H d Hin) as N.
    cbn in N. apply bool_decide_eq_false in N. contradiction.
  - intros H. destruct (find _ devices) as [d|] eqn:E; [|reflexivity].
    exfalso. apply H. exists d. apply find_some in E as [E1 E2].
    apply bool_decide_eq_true in E2. now split.
Qed.

Lemma noDeviceCreated_created (t : list action) :
  noDeviceCreated t <-> created t = [].
Proof.
  unfold noDeviceCreated, created. split.
  - intros H. induction t as [|a t IH]; [reflexivity|].
    assert (IH' : List.filter isCreate t = []).
    { apply IH. intros ? ? ? ? N. eapply H. right. exact N. }
    cbn [List.filter]. rewrite IH'. destruct a; cbn [isCreate]; try reflexivity.
    exfalso. eapply H. left. reflexivity.
  - intros H n ty rt p Hin.
    assert (K : In (SimctlCreate n ty rt p) (List.filter isCreate t))
      by (apply filter_In; now split).
    rewrite H in K. exact K.
Qed.

Lemma created_app (t u : list action) : created (t ++ u) = created t ++ created u.
Proof. apply List.filter_app. Qed.

(** Actions that create nothing, put before a trace, change nothing of what
    the priority order says of it. *)
Lemma priorityOrder_prepend (set : list simDevice) (e : env)
    (TrimSpace : string -> string) (path pref : string)
    (pre t : list action) (r : result (string * string)) :
  created pre = [] ->
  priorityOrder TrimSpace set e path pref (t, r) ->
  priorityOrder TrimSpace set e path pref (pre ++ t, r).
Proof.
  intros Hpre (P1 & P2 & P3).
  assert (NC : forall u, noDeviceCreated u -> noDeviceCreated (pre ++ u)).
  { intros u Hu. apply noDeviceCreated_created. rewrite created_app, Hpre.
    now apply noDeviceCreated_created. }
  unfold priorityOrder. cbn [fst snd] in *. split; [|split].
  - intros Hp. destruct (P1 Hp) as [A B]. split.
    + intros H. destruct (A H). split; auto.
    + intros H. destruct (B H). split; auto.
  - intros Hp. destruct (P2 Hp) as (A & B & C). split; [|split].
    + intros H. destruct (A H). split; auto.
    + intros H. apply in_or_app. right. now apply B.
    + intros H. destruct (C H) as [C1 C2]. split.
      * intros d rest Hs. destruct (C1 d rest Hs). split; auto.
      * intros Hs. specialize (C2 Hs). unfold autoCreates in *. cbn [fst snd] in *.
        destruct (findLatestIPhone (availableDevices e)) as [[src rt]|msg].
        -- rewrite created_app, Hpre. exact C2.
        -- destruct C2. split; auto.
  - intros H. apply P3. intros N. apply H. now apply NC.
Qed.

Lemma noDeviceCreated_nil : noDeviceCreated [].
Proof. intros ? ? ? ? []. Qed.

Lemma noDeviceCreated_slog (l : level) (msg : string) (t : list action) :
  noDeviceCreated t -> noDeviceCreated (Slog l msg :: t).
Proof. intros H ? ? ? ? [N|N]; [discriminate | now apply H in N]. Qed.

Create HintDb resolve.

#[local] Hint Resolve noDeviceCreated_nil noDeviceCreated_slog : resolve.

Lemma reuseOrCreate_spec (TrimSpace : string -> string) (e : env)
    (path : string) (devices : list simDevice) :
  let out := reuseOrCreate TrimSpace e path devices in
  (forall d rest, devices = d :: rest ->
     out.2 = Ok (UDID d, path) /\ noDeviceCreated out.1) /\
  (devices = [] -> autoCreates TrimSpace e path out) /\
  (~ noDeviceCreated out.1 -> devices = []).
Proof.
  cbv zeta. destruct devices as [|d rest].
  - split; [intros ? ? [=]|]. split; [intros _|reflexivity].
    unfold reuseOrCreate, autoCreates, createDeviceInSet. run_M.
    destruct (findLatestIPhone (availableDevices e)) as [[src rt]|msg]; cbn [fst snd app].
    + destruct (simctlCreate e _ _ _ _) as [o [err|]]; cbn [fst snd app created List.filter isCreate];
        split; reflexivity.
    + split; [reflexivity | apply noDeviceCreated_nil].
  - unfold reuseOrCreate. run_M. split; [|split].
    + intros d' rest' [= <- <-]. split; [reflexivity | auto with resolve].
    + intros [=].
    + intros N. exfalso. apply N. auto with resolve.
Qed.

Lemma noDeviceCreated_app (t u : list action) :
  created t = [] -> noDeviceCreated u -> noDeviceCreated (t ++ u).
Proof.
  intros Ht Hu. apply noDeviceCreated_created. rewrite created_app, Ht.
  now apply noDeviceCreated_created.
Qed.

Lemma autoCreates_prepend (TrimSpace : string -> string) (e : env) (path : string)
    (pre t : list action) (r : result (string * string)) :
  created pre = [] ->
  autoCreates TrimSpace e path (t, r) -> autoCreates TrimSpace e path (pre ++ t, r).
Proof.
  intros Hpre. unfold autoCreates. cbn [fst snd].
  destruct (findLatestIPhone (availableDevices e)) as [[src rt]|msg].
  - now rewrite created_app, Hpre.
  - intros [A B]. split; [exact A | now apply noDeviceCreated_app].
Qed.

(** Priorities 3 and 4, reached with some log lines [pre] behind. *)
Lemma fallthrough_priorityOrder (TrimSpace : string -> string) (e : env)
    (path : string) (devices : list simDevice) (pre : list action) :
  created pre = [] ->
  (configuredDefault e <> "" -> ~ hasUDID (configuredDefault e) devices ->
     In (Slog Warn "Default simulator not found, falling back to auto-select") pre) ->
  configuredDefault e = "" \/ ~ hasUDID (configuredDefault e) devices ->
  priorityOrder TrimSpace devices e path ""
    (pre ++ (reuseOrCreate TrimSpace e path devices).1,
     (reuseOrCreate TrimSpace e path devices).2).
Proof.
  intros Hpre Hwarn Hfall.
  pose proof (reuseOrCreate_spec TrimSpace e path devices) as (R1 & R2 & R3).
  unfold priorityOrder. cbn [fst snd]. split; [congruence|]. split.
  - intros _. split; [tauto|]. split.
    + intros [A B]. apply in_or_app. left. now apply Hwarn.
    + intros _. split.
      * intros d rest Hs. destruct (R1 d rest Hs) as [A B].
        split; [exact A | now apply noDeviceCreated_app].
      * intros Hs. specialize (R2 Hs).
        apply autoCreates_prepend; [exact Hpre|].
        now destruct (reuseOrCreate TrimSpace e path devices).
  - intros N. apply R3. intros K. apply N. now apply noDeviceCreated_app.
Qed.

Lemma resolveAmong_priorityOrder (TrimSpace : string -> string) (e : env)
    (path pref : string) (devices : list simDevice) :
  priorityOrder TrimSpace devices e path pref
    (resolveAmong TrimSpace e path pref devices).
Proof.
  unfold resolveAmong.
  destruct (bool_decide_reflect (pref = "")) as [->|Hp]; cbn [negb].
  - (* no preferred UDID *)
    pose proof (fallthrough_priorityOrder TrimSpace e path devices) as F.
    unfold useConfigDefault. unfold configuredDefault in *.
    destruct (configDefault e) as [u|] eqn:Ec; cbn [from_option id] in *.
    + destruct (bool_decide_reflect (u = "")) as [->|Hu].
      * run_M. apply (F []); [reflexivity | congruence | now left].
      * destruct (findByUDID u devices) as [d|] eqn:Ef.
        -- destruct (findByUDID_Some _ _ _ Ef) as [Hin Hd]. run_M.
           assert (HU : hasUDID u devices) by now exists d.
           unfold priorityOrder, configuredDefault. rewrite Ec. cbn [fst snd from_option id].
           split; [congruence|]. split.
           ++ intros _. split; [|split; tauto].
              intros _. rewrite Hd. split; [reflexivity | auto with resolve].
           ++ intros N. exfalso. apply N. auto with resolve.
        -- apply findByUDID_None in Ef. run_M.
           apply (F [Slog Warn "Default simulator not found, falling back to auto-select"]);
             [reflexivity | intros _ _; now left | now right].
    + run_M. apply (F []); [reflexivity | congruence | now left].
  - (* a preferred UDID *)
    unfold priorityOrder.
    destruct (findByUDID pref devices) as [d|] eqn:Ef.
    + destruct (findByUDID_Some _ _ _ Ef) as [Hin Hd]. run_M.
      assert (HU : hasUDID pref devices) by now exists d.
      split; [intros _|split; [congruence|]].
      * split; [|tauto]. intros _. rewrite Hd. split; [reflexivity | auto with resolve].
      * intros N. exfalso. apply N. auto with resolve.
    + apply findByUDID_None in Ef. run_M.
      split; [intros _|split; [congruence|]].
      * split; [tauto|]. intros _. split; [reflexivity | auto with resolve].
      * intros N. exfalso. apply N. auto with resolve.
Qed.

Lemma insertByName_In (x d : simDevice) (l : list simDevice) :
  In x (insertByName d l) <-> x = d \/ In x l.
Proof.
  induction l as [|y l IH]; cbn.
  - intuition congruence.
  - destruct (lt (Name d) (Name y)); cbn; [intuition congruence|].
    rewrite IH. intuition congruence.
Qed.

Lemma sortByName_In (x : simDevice) (l : list simDevice) :
  In x (sortByName l) <-> In x l.
Proof.
  unfold sortByName.
  enough (G : forall acc, In x (fold_left (fun acc d => insertByName d acc) l acc)
                          <-> In x l \/ In x acc).
  { rewrite G. cbn. tauto. }
  induction l as [|d l IH]; intros acc; cbn [fold_left].
  - cbn. tauto.
  - rewrite IH, insertByName_In. cbn. intuition congruence.
Qed.

Lemma setDevices_In (e : env) (d : simDevice) :
  In d (setDevices e) <-> exists rt devices, In (rt, devices) (axeSet e) /\ In d devices.
Proof.
  unfold setDevices. rewrite sortByName_In, in_flat_map. split.
  - intros ([rt devs] & H1 & H2). eauto.
  - intros (rt & devs & H1 & H2). exists (rt, devs). now split.
Qed.

(** With the device set directory in place, the call is the four
    priorities over the devices that the listing gives, behind a
    [MkdirAll] and at most one log line. *)
Lemma ResolveAxeSimulator_unfold (Join : list string -> string)
    (TrimSpace : string -> string) (e : env) (pref home : string) :
  userHomeDir e = Ok home ->
  mkdirAllError e (setPathIn Join home) = None ->
  exists pre,
    created pre = [] /\
    ResolveAxeSimulator Join TrimSpace e pref =
      (pre ++ (resolveAmong TrimSpace e (setPathIn Join home) pref (listedDevices e)).1,
       (resolveAmong TrimSpace e (setPathIn Join home) pref (listedDevices e)).2).
Proof.
  intros Hh Hm. unfold ResolveAxeSimulator, AxeDeviceSetPath. rewrite Hh.
  fold (setPathIn Join home). run_M. rewrite Hm. cbn [fst snd app].
  unfold listOrNone, listDevicesInSet, listedDevices, setDevices.
  destruct (axeSetListFailure e) as [[err|err]|]; run_M.
  - exists [MkdirAll (setPathIn Join home);
            Slog Debug "Failed to list devices in axe set, will clone"].
    split; reflexivity.
  - exists [MkdirAll (setPathIn Join home);
            Slog Debug "Failed to list devices in axe set, will clone"].
    split; reflexivity.
  - exists [MkdirAll (setPathIn Join home)]. split; reflexivity.
Qed.

(** C2, as the code has it. Once the directory of the device set is there,
    [ResolveAxeSimulator] follows the priority order over the devices that
    listing the set gives, which are the devices of the set, or none when
    the listing fails: a non-empty preferred UDID is returned if one of
    them has it, and otherwise the call fails with the not-found error and
    creates nothing; with no preferred UDID the configured default is
    returned if one of them has it (a warning is logged if none has);
    otherwise the first of them is returned; and only when there is none
    is a device created, from the latest iPhone. Whenever one of them is
    returned, no device is created. *)
Theorem C2_priority_order_over_listed_devices (Join : list string -> string)
    (TrimSpace : string -> string) (e : env) (preferredUDID home : string) :
  userHomeDir e = Ok home ->
  mkdirAllError e (setPathIn Join home) = None ->
  priorityOrder TrimSpace (listedDevices e) e (setPathIn Join home) preferredUDID
    (ResolveAxeSimulator Join TrimSpace e preferredUDID) /\
  (axeSetListFailure e = None -> listedDevices e = setDevices e) /\
  (axeSetListFailure e <> None -> listedDevices e = []) /\
  (forall d, In d (setDevices e) <->
     exists rt devices, In (rt, devices) (axeSet e) /\ In d devices).
Proof.
  intros Hh Hm. split; [|split; [|split]].
  - destruct (ResolveAxeSimulator_unfold Join TrimSpace e preferredUDID home Hh Hm)
      as (pre & Hpre & ->).
    apply priorityOrder_prepend; [exact Hpre|].
    pose proof (resolveAmong_priorityOrder TrimSpace e (setPathIn Join home)
                  preferredUDID (listedDevices e)) as P.
    now destruct (resolveAmong TrimSpace e (setPathIn Join home) preferredUDID
                    (listedDevices e)).
  - unfold listedDevices. now intros ->.
  - unfold listedDevices. destruct (axeSetListFailure e); [reflexivity | congruence].
  - apply setDevices_In.
Qed.

(** The theorem at work: the device of the set is asked for by its UDID. *)
Lemma C2_priority_order_witness :
  userHomeDir envOneDevice = Ok "/Users/dev" /\
  mkdirAllError envOneDevice (setPathIn (String.concat "/") "/Users/dev") = None /\
  priorityOrder (fun s => s) (listedDevices envOneDevice) envOneDevice
    (setPathIn (String.concat "/") "/Users/dev") "AAAA-1111"
    (ResolveAxeSimulator (String.concat "/") (fun s => s) envOneDevice "AAAA-1111") /\
  ResolveAxeSimulator (String.concat "/") (fun s => s) envOneDevice "AAAA-1111" =
    ([MkdirAll "/Users/dev/Library/Developer/axe/Simulator Devices";
      Slog Info "Using specified simulator"],
     Ok ("AAAA-1111", "/Users/dev/Library/Developer/axe/Simulator Devices")).
Proof.
  split; [reflexivity|]. split; [reflexivity|]. split; [|vm_compute; reflexivity].
  apply (C2_priority_order_over_listed_devices
           (String.concat "/") (fun s => s) envOneDevice "AAAA-1111" "/Users/dev");
    reflexivity.
Defined.

(** What the call does when the listing fails while the set holds a
    device: it creates another one. *)
Example resolve_when_listing_fails :
  ResolveAxeSimulator (String.concat "/") (fun s => s) envListingFails "" =
  ([ MkdirAll "/Users/dev/Library/Developer/axe/Simulator Devices";
     Slog Debug "Failed to list devices in axe set, will clone";
     Slog Info "Creating simulator in axe device set";
     SimctlCreate "axe iPhone 16 Pro (1)"
       "com.apple.CoreSimulator.SimDeviceType.iPhone-16-Pro" iOS_18_2
       "/Users/dev/Library/Developer/axe/Simulator Devices" ],
   Ok ("DDDD-4444" +:+ nl, "/Users/dev/Library/Developer/axe/Simulator Devices")).
Proof. vm_compute. reflexivity. Qed.

(** C2, as stated, fails: with "the set" read as the devices of the axe
    device set, a device is created although the set is not empty, when
    listing the set fails. No behaviour of [filepath.Join] and
    [strings.TrimSpace] makes the stated order hold there. *)
Lemma C2_counterexample_listing_fails :
  ~ exists (Join : list string -> string) (TrimSpace : string -> string),
      priorityOrder TrimSpace (setDevices envListingFails) envListingFails
        (setPathIn Join "/Users/dev") ""
        (ResolveAxeSimulator Join TrimSpace envListingFails "").
Proof.
  intros (Join & TrimSpace & _ & _ & P).
  assert (E : setDevices envListingFails = [axeIPhone16]) by reflexivity.
  rewrite E in P. enough ([axeIPhone16] = []) by discriminate.
  apply P. intros N.
  apply (N "axe iPhone 16 Pro (1)"
           "com.apple.CoreSimulator.SimDeviceType.iPhone-16-Pro" iOS_18_2
           (setPathIn Join "/Users/dev")).
  vm_compute. right. right. right. left. reflexivity.
Qed.

End ResolveFacts.

(** ** cmd/internal/preview/shared_watcher.go *)

Module WatcherFacts.
Import GoString Watcher.

Lemma closed_deliver (c : channel) (v : string) : closed (deliver c v) = closed c.
Proof. unfold deliver. now destruct (parked c). Qed.

Lemma closed_sendOnce (c : channel) (v : string) : closed (sendOnce v c) = closed c.
Proof. unfold sendOnce. destruct (full c); [reflexivity | apply closed_deliver]. Qed.

Lemma sendTimes_S (n : nat) (v : string) (c : channel) :
  sendTimes (S n) v c = sendTimes n v (sendOnce v c).
Proof. reflexivity. Qed.

Lemma trySend_lookup (v : string) (h : heap) (ch : positive) :
  (forall c, h !! ch = Some c -> closed c = false) ->
  exists h', trySend v h ch = Some h' /\
    h' !! ch = sendOnce v <$> (h !! ch) /\
    forall ch', ch' <> ch -> h' !! ch' = h !! ch'.
Proof.
  intros Hc. unfold trySend. destruct (h !! ch) as [c|] eqn:E.
  - rewrite (Hc c eq_refl). destruct (full c) eqn:Ef.
    + exists h. rewrite E. split; [reflexivity|]. split; [|reflexivity].
      cbn. unfold sendOnce. now rewrite Ef.
    + eexists. split; [reflexivity|]. split.
      * rewrite lookup_insert_eq. cbn. unfold sendOnce. now rewrite Ef.
      * intros ch' N. now rewrite lookup_insert_ne.
  - exists h. rewrite E. repeat split.
Qed.

Lemma holders_cons (c ch : positive) (order : list positive) :
  holders (c :: order) ch =
  if bool_decide (c = ch) then S (holders order ch) else holders order ch.
Proof. unfold holders. cbn. now destruct (bool_decide (c = ch)). Qed.

Lemma broadcastIn_lookup (order : list positive) (path : string) (h : heap) :
  noneClosed order h ->
  exists h', broadcastIn order path h = Some h' /\
    forall ch, h' !! ch = sendTimes (holders order ch) path <$> (h !! ch).
Proof.
  revert h. induction order as [|c order IH]; intros h Hn.
  - exists h. split; [reflexivity|]. intros ch. cbn. now destruct (h !! ch).
  - destruct (trySend_lookup path h c) as (h1 & E1 & L1 & L2).
    { intros c0 Hc0. apply (Hn c c0); [now left | exact Hc0]. }
    destruct (IH h1) as (h' & E' & L').
    { intros ch c0 Hin Hl. destruct (decide (ch = c)) as [->|N].
      - rewrite L1 in Hl. destruct (h !! c) as [c1|] eqn:E; [|discriminate].
        injection Hl as <-. rewrite closed_sendOnce.
        apply (Hn c c1); [now left | exact E].
      - rewrite (L2 _ N) in Hl. apply (Hn ch c0); [now right | exact Hl]. }
    exists h'. split; [cbn; now rewrite E1|].
    intros ch. rewrite L', holders_cons.
    destruct (bool_decide_reflect (c = ch)) as [->|N].
    + rewrite L1. destruct (h !! ch); reflexivity.
    + rewrite L2 by congruence. reflexivity.
Qed.

Lemma holders_Permutation (o1 o2 : list positive) (ch : positive) :
  o1 ≡ₚ o2 -> holders o1 ch = holders o2 ch.
Proof.
  induction 1 as [|x l l' _ IH|x y l|l l' l'' _ IH1 _ IH2].
  - reflexivity.
  - rewrite !holders_cons, IH. reflexivity.
  - rewrite !holders_cons.
    destruct (bool_decide (x = ch)), (bool_decide (y = ch)); reflexivity.
  - congruence.
Qed.

Lemma noneClosed_Permutation (o1 o2 : list positive) (h : heap) :
  o1 ≡ₚ o2 -> noneClosed o1 h -> noneClosed o2 h.
Proof.
  intros P H ch c Hin. apply H. apply list_elem_of_In.
  rewrite P. now apply list_elem_of_In.
Qed.

(** The order in which the listeners are visited does not matter. *)
Lemma broadcastIn_Permutation (o1 o2 : list positive) (path : string) (h : heap) :
  o1 ≡ₚ o2 -> noneClosed o1 h -> broadcastIn o1 path h = broadcastIn o2 path h.
Proof.
  intros P Hn.
  destruct (broadcastIn_lookup o1 path h Hn) as (h1 & -> & L1).
  destruct (broadcastIn_lookup o2 path h (noneClosed_Permutation _ _ _ P Hn))
    as (h2 & -> & L2).
  f_equal. apply map_eq. intros ch.
  now rewrite L1, L2, (holders_Permutation _ _ ch P).
Qed.

Lemma holders_zero (order : list positive) (ch : positive) :
  ~ In ch order -> holders order ch = 0%nat.
Proof.
  induction order as [|c order IH]; intros H; [reflexivity|].
  rewrite holders_cons. rewrite bool_decide_eq_false_2.
  - apply IH. intros N. apply H. now right.
  - intros ->. apply H. now left.
Qed.

Lemma In_listenerChannels (sw : sharedWatcher) (ch : positive) :
  In ch (listenerChannels sw) <-> exists id, listeners sw !! id = Some ch.
Proof.
  unfold listenerChannels. rewrite <- list_elem_of_In, list_elem_of_fmap. split.
  - intros ([id c] & -> & H). apply elem_of_map_to_list in H. now exists id.
  - intros (id & H). exists (id, ch). split; [reflexivity|].
    now apply elem_of_map_to_list.
Qed.

(** A channel held by one listener only is visited once. *)
Lemma holders_own (sw : sharedWatcher) (id : string) (ch : positive) :
  listeners sw !! id = Some ch ->
  (forall id', listeners sw !! id' = Some ch -> id' = id) ->
  holders (listenerChannels sw) ch = 1%nat.
Proof.
  intros Hl Hown. unfold listenerChannels.
  rewrite (holders_Permutation _ (((id, ch) :: map_to_list (delete id (listeners sw))).*2)).
  2:{ apply fmap_Permutation. symmetry. now apply map_to_list_delete. }
  cbn [fmap list_fmap snd]. rewrite holders_cons, bool_decide_eq_true_2 by reflexivity.
  f_equal. apply holders_zero. rewrite <- list_elem_of_In, list_elem_of_fmap.
  intros ([id' c] & E & H). cbn in E. subst c.
  apply elem_of_map_to_list in H.
  destruct (decide (id' = id)) as [->|N].
  - now rewrite lookup_delete_eq in H.
  - rewrite lookup_delete_ne in H by congruence. apply Hown in H. contradiction.
Qed.

Lemma onEvent_forwarded (Clean : string -> string) (sw : sharedWatcher)
    (ev : Event) (h : heap) :
  forwarded ev -> onEvent Clean sw ev h = broadcast sw (Clean (EventName ev)) h.
Proof.
  intros [Hs Ho]. unfold onEvent. rewrite Hs. cbn [negb].
  destruct Ho as [-> | ->]; cbn [negb andb]; [reflexivity|].
  now rewrite andb_false_r.
Qed.

Lemma onEvent_ignored (Clean : string -> string) (sw : sharedWatcher)
    (ev : Event) (h : heap) :
  ~ forwarded ev -> onEvent Clean sw ev h = Some h.
Proof.
  intros N. unfold onEvent, forwarded in *.
  destruct (HasSuffix (EventName ev) ".swift"); cbn [negb]; [|reflexivity].
  destruct (Has ev Write); cbn [negb andb]; [exfalso; apply N; auto|].
  destruct (Has ev Create); cbn [negb]; [exfalso; apply N; auto|reflexivity].
Qed.

(** C6. The watcher forwards an event exactly when its path ends in
    ".swift" and the event has the Write or the Create bit; what it sends is
    the cleaned path; each listener is sent to without waiting: a listener
    whose channel is full (or nil) is passed over and keeps its channel as
    it was, every other listener has the path delivered, channels that are
    not registered are left alone, and the broadcast completes whatever the
    state of the channels and the order in which the map is visited. The
    channels of the listeners are supposed not to be closed. *)
Theorem C6_watcher_forwards_swift_writes_without_blocking
    (Clean : string -> string) (sw : sharedWatcher) (ev : Event) (h : heap) :
  noneClosed (listenerChannels sw) h ->
  (forwarded ev <->
     (exists t, EventName ev = t +:+ ".swift") /\
     (Z.land (Op ev) Write <> 0 \/ Z.land (Op ev) Create <> 0)) /\
  (~ forwarded ev -> onEvent Clean sw ev h = Some h) /\
  (forwarded ev ->
     exists h',
       onEvent Clean sw ev h = Some h' /\
       onEvent Clean sw ev h = broadcast sw (Clean (EventName ev)) h /\
       (forall id ch c,
          listeners sw !! id = Some ch -> h !! ch = Some c ->
          (forall id', listeners sw !! id' = Some ch -> id' = id) ->
          h' !! ch = Some (if full c then c else deliver c (Clean (EventName ev)))) /\
       (forall ch,
          h' !! ch =
          sendTimes (holders (listenerChannels sw) ch) (Clean (EventName ev)) <$> (h !! ch)) /\
       (forall ch, (forall id, listeners sw !! id <> Some ch) -> h' !! ch = h !! ch) /\
       (forall order, order ≡ₚ listenerChannels sw ->
          broadcastIn order (Clean (EventName ev)) h = Some h')).
Proof.
  intros Hn. split; [|split].
  - unfold forwarded, Has. rewrite GoStringFacts.HasSuffix_iff.
    rewrite !negb_true_iff, !Z.eqb_neq. reflexivity.
  - apply onEvent_ignored.
  - intros F. rewrite (onEvent_forwarded Clean sw ev h F). unfold broadcast.
    destruct (broadcastIn_lookup (listenerChannels sw) (Clean (EventName ev)) h Hn)
      as (h' & E & L).
    exists h'. split; [exact E|]. split; [reflexivity|]. split; [|split; [|split]].
    + intros id ch c Hl Hc Hown. rewrite L, (holders_own sw id ch Hl Hown), Hc.
      reflexivity.
    + exact L.
    + intros ch Hnone. rewrite L, holders_zero.
      * now destruct (h !! ch).
      * rewrite In_listenerChannels. intros [id Hid]. now apply (Hnone id).
    + intros order P. rewrite <- E. symmetry.
      apply broadcastIn_Permutation; [now symmetry | exact Hn].
Qed.

Lemma noneClosed_heapTwo : noneClosed (listenerChannels swTwo) heapTwo.
Proof.
  intros ch c Hin Hl. vm_compute in Hin.
  destruct Hin as [<-|[<-|[]]]; vm_compute in Hl; injection Hl as <-; reflexivity.
Defined.

(** The theorem at work: stream "a" is sent the path, stream "b", whose
    channel is full, is not. *)
Lemma C6_watcher_witness :
  noneClosed (listenerChannels swTwo) heapTwo /\
  exists h',
    onEvent (fun s => s) swTwo writeOfView heapTwo = Some h' /\
    h' !! 1%positive = Some (mkChannel 4 ["/p/View.swift"] 0 [] false) /\
    h' !! 2%positive = Some (mkChannel 1 ["/p/Old.swift"] 0 [] false).
Proof.
  split; [exact noneClosed_heapTwo|].
  destruct (C6_watcher_forwards_swift_writes_without_blocking
              (fun s => s) swTwo writeOfView heapTwo noneClosed_heapTwo)
    as (_ & _ & F).
  destruct F as (h' & E & _ & Hown & _).
  { split; [reflexivity | left; reflexivity]. }
  exists h'. split; [exact E|]. split.
  - apply (Hown "a" 1%positive (mkChannel 4 [] 0 [] false)); [reflexivity..|].
    intros id' H. destruct (decide (id' = "a")) as [->|N]; [reflexivity|].
    exfalso. unfold swTwo, addListener in H. cbn [listeners] in H.
    destruct (decide (id' = "b")) as [->|N'].
    + rewrite lookup_insert_eq in H. discriminate.
    + rewrite lookup_insert_ne in H by congruence.
      rewrite lookup_insert_ne in H by congruence.
      rewrite lookup_empty in H. discriminate.
  - apply (Hown "b" 2%positive (mkChannel 1 ["/p/Old.swift"] 0 [] false)); [reflexivity..|].
    intros id' H. destruct (decide (id' = "b")) as [->|N]; [reflexivity|].
    exfalso. unfold swTwo, addListener in H. cbn [listeners] in H.
    rewrite lookup_insert_ne in H by congruence.
    destruct (decide (id' = "a")) as [->|N'].
    + rewrite lookup_insert_eq in H. discriminate.
    + rewrite lookup_insert_ne in H by congruence.
      rewrite lookup_empty in H. discriminate.
Defined.

(** The loop on a few inputs: the write of a Swift file reaches "a" only,
    the write of another file and a chmod reach nobody, and after the
    cancellation nothing is read any more. *)
Example loop_example :
  loop (fun s => s) swTwo heapTwo []
    [ Received writeOfView;
      Received (mkEvent "/p/README.md" Write);
      Received (mkEvent "/p/Other.swift" Chmod);
      Failed "too many events";
      Cancelled;
      Received (mkEvent "/p/Late.swift" Create) ]
  = Some (mkSharedWatcher (listeners swTwo) true,
          <[1%positive := mkChannel 4 ["/p/View.swift"] 0 [] false]> heapTwo,
          ["too many events"]).
Proof. vm_compute. reflexivity. Qed.

End WatcherFacts.

(** ** nextSequenceNumber *)

Module SimulatorsFacts.
Import GoString GoStringFacts Simulators.

Lemma sequenceOf_iff (baseName name : string) (n : Z) :
  sequenceOf baseName name = Some n <-> hasSequenceName baseName n name.
Proof.
  unfold sequenceOf, hasSequenceName. split.
  - destruct (CutPrefix name _) as [rest|] eqn:E1; [|discriminate].
    destruct (CutSuffix rest ")") as [digits|] eqn:E2; [|discriminate].
    destruct (Platform.allDigits digits) eqn:E3; [|discriminate].
    destruct (bool_decide_reflect (digits = "")) as [|E4]; [discriminate|].
    cbn. intros [= <-]. exists digits.
    apply CutPrefix_iff in E1. apply CutSuffix_iff in E2. subst.
    rewrite !sapp_assoc. repeat split; assumption.
  - intros (digits & -> & Hd & Hn & <-).
    assert (E1 : CutPrefix ("axe " +:+ baseName +:+ " (" +:+ digits +:+ ")")
                   ("axe " +:+ baseName +:+ " (") = Some (digits +:+ ")")).
    { apply CutPrefix_iff. now rewrite !sapp_assoc. }
    rewrite E1.
    assert (E2 : CutSuffix (digits +:+ ")") ")" = Some digits) by now apply CutSuffix_iff.
    rewrite E2, Hd. now rewrite bool_decide_eq_false_2.
Qed.

Lemma In_sequenceNumbers (devices : list ManagedSimulator) (baseName : string) (n : Z) :
  In n (sequenceNumbers devices baseName) <->
  exists d, In d devices /\ hasSequenceName baseName n (Name d).
Proof.
  unfold sequenceNumbers. rewrite <- list_elem_of_In, list_elem_of_omap.
  split; intros (d & H1 & H2); exists d.
  - apply list_elem_of_In in H1. now apply sequenceOf_iff in H2.
  - split; [now apply list_elem_of_In | now apply sequenceOf_iff].
Qed.

Lemma fold_max_ge (ns : list Z) (n : Z) : n <= fold_left Z.max ns n.
Proof.
  revert n. induction ns as [|x ns IH]; intros n; cbn; [lia|].
  specialize (IH (Z.max n x)). lia.
Qed.

Lemma fold_max_upper (ns : list Z) (n x : Z) :
  In x ns -> x <= fold_left Z.max ns n.
Proof.
  revert n. induction ns as [|y ns IH]; intros n; [intros []|].
  cbn. intros [->|H]; [|now apply IH].
  pose proof (fold_max_ge ns (Z.max n x)). lia.
Qed.

Lemma fold_max_In (ns : list Z) (n : Z) :
  fold_left Z.max ns n = n \/ In (fold_left Z.max ns n) ns.
Proof.
  revert n. induction ns as [|y ns IH]; intros n; cbn; [now left|].
  destruct (IH (Z.max n y)) as [E|H]; [|now right; right].
  rewrite E. destruct (Z.max_spec n y) as [[_ ->]|[_ ->]]; [right; now left | now left].
Qed.

Lemma sequenceNumbers_filter (devices : list ManagedSimulator) (baseName : string) :
  sequenceNumbers
    (List.filter (fun d => bool_decide (is_Some (sequenceOf baseName (Name d)))) devices)
    baseName
  = sequenceNumbers devices baseName.
Proof.
  unfold sequenceNumbers. induction devices as [|d devices IH]; [reflexivity|].
  cbn [List.filter omap list_omap].
  destruct (sequenceOf baseName (Name d)) as [n|] eqn:E.
  - rewrite bool_decide_eq_true_2 by eauto. cbn [omap list_omap]. rewrite E.
    f_equal. exact IH.
  - rewrite bool_decide_eq_false_2 by (intros [? ?]; discriminate). exact IH.
Qed.

(** C8. [nextSequenceNumber devices base] is 1 when no device is named
    "axe <base> (N)", and otherwise one more than the largest such N; the
    devices of another name (another base, no number in parentheses) do not
    count; and the number returned is free: it is above the number of
    every device of that base. *)
Theorem C8_nextSequenceNumber_is_max_plus_one
    (devices : list ManagedSimulator) (baseName : string) :
  let next := nextSequenceNumber devices baseName in
  ((forall d n, In d devices -> ~ hasSequenceName baseName n (Name d)) -> next = 1) /\
  ((exists d n, In d devices /\ hasSequenceName baseName n (Name d)) ->
     exists d m,
       In d devices /\ hasSequenceName baseName m (Name d) /\ next = m + 1 /\
       forall d' n, In d' devices -> hasSequenceName baseName n (Name d') -> n <= m) /\
  (forall d n, In d devices -> hasSequenceName baseName n (Name d) -> n < next) /\
  nextSequenceNumber
    (List.filter (fun d => bool_decide (is_Some (sequenceOf baseName (Name d)))) devices)
    baseName = next /\
  (forall d, In d devices -> is_Some (sequenceOf baseName (Name d)) <->
     exists n, hasSequenceName baseName n (Name d)).
Proof.
  cbv zeta. unfold nextSequenceNumber. rewrite sequenceNumbers_filter.
  pose proof (In_sequenceNumbers devices baseName) as HI.
  destruct (sequenceNumbers devices baseName) as [|n ns].
  - split; [reflexivity|]. split; [|split; [|split; [reflexivity|]]].
    + intros (d & m & Hin & Hm). exfalso. apply (HI m). eauto.
    + intros d m Hin Hm. exfalso. apply (HI m). eauto.
    + intros d Hin. split.
      * intros [m Hm]. exists m. now apply sequenceOf_iff.
      * intros [m Hm]. exists m. now apply sequenceOf_iff.
  - assert (Hmax : In (fold_left Z.max ns n) (n :: ns)).
    { destruct (fold_max_In ns n) as [->|H]; [now left | now right]. }
    assert (Hup : forall x, In x (n :: ns) -> x <= fold_left Z.max ns n).
    { intros x [<-|H]; [apply fold_max_ge | now apply fold_max_upper]. }
    split; [|split; [|split; [|split; [reflexivity|]]]].
    + intros H. exfalso. destruct (proj1 (HI n)) as (d & Hin & Hn); [now left|].
      exact (H d n Hin Hn).
    + intros _. destruct (proj1 (HI _) Hmax) as (d & Hin & Hd).
      exists d, (fold_left Z.max ns n). repeat split; try assumption.
      intros d' k Hin' Hk. apply Hup, HI. eauto.
    + intros d k Hin Hk. enough (k <= fold_left Z.max ns n) by lia.
      apply Hup, HI. eauto.
    + intros d Hin. split.
      * intros [m Hm]. exists m. now apply sequenceOf_iff.
      * intros [m Hm]. exists m. now apply sequenceOf_iff.
Qed.

(** The cases of TestNextSequenceNumber. *)
Example nextSequenceNumber_tests :
  nextSequenceNumber [] "iPhone 16 Pro" = 1 /\
  nextSequenceNumber (named ["axe iPhone 16 Pro (1)"]) "iPhone 16 Pro" = 2 /\
  nextSequenceNumber (named ["axe iPhone 16 Pro (1)"; "axe iPhone 16 Pro (3)"])
    "iPhone 16 Pro" = 4 /\
  nextSequenceNumber (named ["axe iPad Air (1)"; "axe iPhone 16 Pro (2)"])
    "iPhone 16 Pro" = 3 /\
  nextSequenceNumber (named ["axe iPad Air (1)"; "axe iPad Air (2)"])
    "iPhone 16 Pro" = 1 /\
  nextSequenceNumber (named ["axe iPhone Air"]) "iPhone Air" = 1 /\
  nextSequenceNumber (named ["axe iPhone 16 Pro"; "axe iPhone 16 Pro (2)"])
    "iPhone 16 Pro" = 3.
Proof. repeat split; vm_compute; reflexivity. Qed.

End SimulatorsFacts.

(** ** The idb package *)

Module IdbFacts.
Import Go Idb.

Lemma Itoa_nonempty (n : Z) : Itoa n <> "".
Proof.
  unfold Itoa. destruct (Z.to_int n) as [d|d]; cbn.
  - destruct d; discriminate.
  - discriminate.
Qed.

Lemma parseCompanionPort_usable (line : stdoutLine) (p : string) :
  usablePort line p <-> parseCompanionPort line = p /\ p <> "".
Proof.
  unfold usablePort, parseCompanionPort. split.
  - intros (fields & n & -> & Hf & Hn & ->). rewrite Hf.
    destruct (Z.eqb_spec n 0); [contradiction|]. split; [reflexivity | apply Itoa_nonempty].
  - intros [H Hp]. destruct line as [t|fields]; [congruence|].
    destruct (fields !! "grpc_port") as [[| |n| |]|] eqn:E; try congruence.
    destruct (Z.eqb_spec n 0); [congruence|]. exists fields, n. now repeat split.
Qed.

Lemma parseCompanionPort_none (line : stdoutLine) :
  noUsablePort line <-> parseCompanionPort line = "".
Proof.
  unfold noUsablePort. split.
  - intros H. destruct (decide (parseCompanionPort line = "")) as [|N]; [assumption|].
    exfalso. apply (H (parseCompanionPort line)). now apply parseCompanionPort_usable.
  - intros H p U. apply parseCompanionPort_usable in U as [U1 U2]. congruence.
Qed.

Lemma firstPort_Some (lines : list stdoutLine) (p : string) :
  firstPort lines = Some p <->
  exists pre line post,
    lines = pre ++ line :: post /\
    (forall l, In l pre -> noUsablePort l) /\ usablePort line p.
Proof.
  induction lines as [|l lines IH]; cbn [firstPort].
  - split; [discriminate|]. intros (pre & line & post & H & _). now destruct pre.
  - destruct (bool_decide_reflect (parseCompanionPort l = "")) as [E|E].
    + rewrite IH. split.
      * intros (pre & line & post & -> & Hpre & Hl).
        exists (l :: pre), line, post. split; [reflexivity|]. split; [|exact Hl].
        intros x [<-|Hx]; [now apply parseCompanionPort_none | now apply Hpre].
      * intros (pre & line & post & H & Hpre & Hl). destruct pre as [|x pre].
        -- injection H as <- _. apply parseCompanionPort_usable in Hl as [? ?]. congruence.
        -- injection H as <- ->. exists pre, line, post. split; [reflexivity|].
           split; [|exact Hl]. intros y Hy. apply Hpre. now right.
    + split.
      * intros [= <-]. exists [], l, lines. split; [reflexivity|].
        split; [intros ? []|]. now apply parseCompanionPort_usable.
      * intros (pre & line & post & H & Hpre & Hl). destruct pre as [|x pre].
        -- injection H as <- _. apply parseCompanionPort_usable in Hl as [-> _]. reflexivity.
        -- injection H as <- _. exfalso. apply E, parseCompanionPort_none, Hpre. now left.
Qed.

Lemma firstPort_None (lines : list stdoutLine) :
  firstPort lines = None <-> forall l, In l lines -> noUsablePort l.
Proof.
  induction lines as [|l lines IH]; cbn [firstPort].
  - split; [intros _ ? []|reflexivity].
  - destruct (bool_decide_reflect (parseCompanionPort l = "")) as [E|E].
    + rewrite IH. split.
      * intros H x [<-|Hx]; [now apply parseCompanionPort_none | now apply H].
      * intros H x Hx. apply H. now right.
    + split; [discriminate|]. intros H. exfalso.
      apply E, parseCompanionPort_none, H. now left.
Qed.

(** C4. In the handshake of [StartWith], the first line of standard output
    that is a JSON object with a non-zero [grpc_port] makes the call
    succeed with that port; the lines before it that are no such object
    (log lines, objects without the field, a port of zero) are passed over;
    and when the output ends without such a line, the call fails with an
    error and returns no companion. The command is supposed to have
    started. *)
Theorem C4_handshake_first_usable_port (cmdr : Commander) (udid deviceSetPath : string) :
  let cmd := cmdr (["idb_companion"; "--udid"; udid; "--grpc-port"; "0"]
                   ++ deviceSetArgs deviceSetPath) in
  pipeError cmd = None -> startError cmd = None ->
  (forall pre line post p,
     stdoutLines cmd = pre ++ line :: post ->
     (forall l, In l pre -> noUsablePort l) -> usablePort line p ->
     exists c, StartWith cmdr udid deviceSetPath = Ok c /\ Port c = p /\
               Address c = "localhost:" +:+ p) /\
  (forall c, StartWith cmdr udid deviceSetPath = Ok c ->
     exists pre line post,
       stdoutLines cmd = pre ++ line :: post /\
       (forall l, In l pre -> noUsablePort l) /\ usablePort line (Port c)) /\
  ((forall l, In l (stdoutLines cmd) -> noUsablePort l) ->
     StartWith cmdr udid deviceSetPath = Error "idb_companion did not output a port") /\
  (forall line, noUsablePort line <-> parseCompanionPort line = "") /\
  (forall line p, usablePort line p <-> parseCompanionPort line = p /\ p <> "").
Proof.
  cbv zeta. intros Hp Hs. unfold StartWith. rewrite Hp, Hs.
  split; [|split; [|split; [|split]]].
  - intros pre line post p E Hpre Hl.
    assert (F : firstPort (stdoutLines (cmdr
                  (["idb_companion"; "--udid"; udid; "--grpc-port"; "0"]
                   ++ deviceSetArgs deviceSetPath))) = Some p).
    { apply firstPort_Some. now exists pre, line, post. }
    rewrite F. eexists. split; [reflexivity|]. split; reflexivity.
  - intros c. destruct (firstPort _) as [p|] eqn:F; [|discriminate].
    intros [= <-]. now apply firstPort_Some.
  - intros H. apply firstPort_None in H. now rewrite H.
  - apply parseCompanionPort_none.
  - apply parseCompanionPort_usable.
Qed.

(** The theorem at work, on the output of TestStartWith_LogLinesBeforePort. *)
Lemma C4_handshake_witness :
  let cmdr := fakeCommander
                [ Text "IDB Companion Built at Aug 12 2022 08:41:50";
                  Text "Providing targets across Simulator and Device sets.";
                  portLine 12345 ] in
  pipeError (cmdr []) = None /\ startError (cmdr []) = None /\
  exists c, StartWith cmdr "UDID-456" "" = Ok c /\ Port c = "12345" /\
            Address c = "localhost:12345".
Proof.
  cbv zeta. split; [reflexivity|]. split; [reflexivity|].
  apply (proj1 (C4_handshake_first_usable_port
                  (fakeCommander
                     [ Text "IDB Companion Built at Aug 12 2022 08:41:50";
                       Text "Providing targets across Simulator and Device sets.";
                       portLine 12345 ])
                  "UDID-456" "" eq_refl eq_refl)
               [ Text "IDB Companion Built at Aug 12 2022 08:41:50";
                 Text "Providing targets across Simulator and Device sets." ]
               (portLine 12345) [] "12345").
  - reflexivity.
  - intros l [<-|[<-|[]]]; intros p (fields & n & [=] & _).
  - exists (<["grpc_swift_port" := JInt 12345]> (<["grpc_port" := JInt 12345]> ∅)), 12345.
    split; [reflexivity|]. split; [vm_compute; reflexivity|].
    split; [discriminate | reflexivity].
Defined.

(** The cases of TestParseCompanionPort, TestStartWith_EmptyPort and
    TestStartWith_NoPortJSON. *)
Example parseCompanionPort_tests :
  parseCompanionPort (portLine 10882) = "10882" /\
  parseCompanionPort (Object (<["grpc_port" := JInt 9999]> ∅)) = "9999" /\
  parseCompanionPort (Object (<["grpc_port" := JInt 0]> ∅)) = "" /\
  parseCompanionPort (Object ∅) = "" /\
  parseCompanionPort (Text "IDB Companion Built at Aug 12 2022") = "" /\
  parseCompanionPort (Text "") = "" /\
  StartWith (fakeCommander [Text ""]) "UDID-123" ""
    = Error "idb_companion did not output a port" /\
  StartWith (fakeCommander [Text "some log line"; Text "another log line"]) "UDID-789" ""
    = Error "idb_companion did not output a port".
Proof. repeat split; vm_compute; reflexivity. Qed.

Lemma reportsBooted_iff (line : stdoutLine) :
  reportsBooted line = true <->
  exists fields, line = Object fields /\ fields !! "state" = Some (JString "Booted").
Proof.
  unfold reportsBooted. split.
  - destruct line as [t|fields]; [discriminate|].
    destruct (fields !! "state") as [[| | |s|]|] eqn:E; try discriminate.
    intros H. apply bool_decide_eq_true in H as ->. now exists fields.
  - intros (fields & -> & ->). now apply bool_decide_eq_true.
Qed.

Lemma after_app (c : Companion) (t u : list procEvent) :
  after c (t ++ u) = after (after c t) u.
Proof. unfold after. apply fold_left_app. Qed.

Lemma after_running (c : Companion) (trace : list procEvent) :
  running trace -> after c trace = c.
Proof.
  unfold after. revert c. induction trace as [|ev trace IH]; intros c H; [reflexivity|].
  cbn [fold_left]. destruct ev as [line|e].
  - apply IH. intros e N. apply (H e). now right.
  - exfalso. apply (H e). now left.
Qed.

Lemma after_closed (c : Companion) (trace : list procEvent) :
  doneClosed c = true -> after c trace = c.
Proof.
  unfold after. revert c. induction trace as [|ev trace IH]; intros c H; [reflexivity|].
  cbn [fold_left]. destruct ev as [line|e]; cbn [handle]; [now apply IH|].
  rewrite H. now apply IH.
Qed.

(** A trace has no exit, or a first one. *)
Lemma first_exit (trace : list procEvent) :
  running trace \/
  exists pre waitError post,
    trace = pre ++ Exited waitError :: post /\ running pre.
Proof.
  induction trace as [|ev trace IH]; [left; intros ? []|].
  destruct ev as [line|e].
  - destruct IH as [H|(pre & e & post & -> & H)].
    + left. intros e [N|N]; [discriminate | now apply (H e)].
    + right. exists (Wrote line :: pre), e, post. split; [reflexivity|].
      intros e' [N|N]; [discriminate | now apply (H e')].
  - right. exists [], e, trace. split; [reflexivity | intros ? []].
Qed.

(** C5. [BootHeadlessWith] succeeds exactly when the subprocess writes,
    before its standard output is closed, a JSON line whose state is
    "Booted"; the channel of [Done] of the handle it returns is open as
    long as the subprocess runs, and closed once it has exited, and [Err]
    is then the error of the exit: none for a clean exit, the error of the
    crash otherwise. The command is supposed to have started. *)
Theorem C5_boot_succeeds_iff_booted_and_done_on_exit
    (cmdr : Commander) (udid deviceSetPath : string) :
  let cmd := cmdr (["idb_companion"; "--boot"; udid; "--headless"; "1"]
                   ++ deviceSetArgs deviceSetPath) in
  pipeError cmd = None -> startError cmd = None ->
  ((exists c, BootHeadlessWith cmdr udid deviceSetPath = Ok c) <->
   (exists fields, In (Object fields) (stdoutLines cmd) /\
                   fields !! "state" = Some (JString "Booted"))) /\
  ((forall line, In line (stdoutLines cmd) -> reportsBooted line = false) ->
     BootHeadlessWith cmdr udid deviceSetPath =
     Error "idb_companion did not report Booted state") /\
  (forall c, BootHeadlessWith cmdr udid deviceSetPath = Ok c ->
     forall trace,
       (running trace -> Done (after c trace) = false) /\
       (forall pre waitError post,
          trace = pre ++ Exited waitError :: post -> running pre ->
          Done (after c trace) = true /\ Err (after c trace) = waitError) /\
       (Done (after c trace) = true <-> ~ running trace)).
Proof.
  cbv zeta. unfold BootHeadlessWith. cbv zeta.
  set (cmd := cmdr _). intros Hp Hs. rewrite Hp, Hs.
  split; [|split].
  - destruct (existsb reportsBooted (stdoutLines cmd)) eqn:E.
    + split; [intros _|eauto].
      apply existsb_exists in E as (line & Hin & Hb).
      apply reportsBooted_iff in Hb as (fields & -> & Hf). eauto.
    + split; [intros [c [=]]|].
      intros (fields & Hin & Hf). exfalso.
      assert (T : existsb reportsBooted (stdoutLines cmd) = true).
      { apply existsb_exists. exists (Object fields). split; [exact Hin|].
        apply reportsBooted_iff. eauto. }
      congruence.
  - intros H. destruct (existsb reportsBooted (stdoutLines cmd)) eqn:E; [|reflexivity].
    apply existsb_exists in E as (line & Hin & Hb). rewrite (H line Hin) in Hb.
    discriminate.
  - intros c. destruct (existsb reportsBooted (stdoutLines cmd)); [|discriminate].
    intros [= <-] trace.
    set (c0 := mkCompanion "" (processHandle cmd) false None).
    assert (A : forall pre waitError post,
              trace = pre ++ Exited waitError :: post -> running pre ->
              after c0 trace = mkCompanion "" (processHandle cmd) true waitError).
    { intros pre e post -> Hr. rewrite after_app, (after_running _ pre Hr).
      change (Exited e :: post) with ([Exited e] ++ post). rewrite after_app.
      now apply after_closed. }
    split; [|split].
    + intros Hr. now rewrite (after_running c0 trace Hr).
    + intros pre e post Ht Hr. rewrite (A pre e post Ht Hr). split; reflexivity.
    + destruct (first_exit trace) as [Hr|(pre & e & post & Ht & Hr)].
      * rewrite (after_running c0 trace Hr). cbn. split; [discriminate | contradiction].
      * rewrite (A pre e post Ht Hr). cbn. split; [intros _|reflexivity].
        intros N. apply (N e). rewrite Ht. apply in_or_app. right. now left.
Qed.

(** The theorem at work, on the output of TestCompanionDone_ClosesOnExit
    and TestCompanionDone_ReportsExitError. *)
Lemma C5_boot_witness :
  let cmdr := fakeCommander [bootedLine "TEST"] in
  pipeError (cmdr []) = None /\ startError (cmdr []) = None /\
  exists c,
    BootHeadlessWith cmdr "TEST" "" = Ok c /\
    Done (after c []) = false /\
    Done (after c [Exited None]) = true /\
    Err (after c [Exited None]) = None /\
    Err (after c [Exited (Some "signal: killed")]) = Some "signal: killed".
Proof.
  cbv zeta. split; [reflexivity|]. split; [reflexivity|].
  destruct (C5_boot_succeeds_iff_booted_and_done_on_exit
              (fakeCommander [bootedLine "TEST"]) "TEST" "" eq_refl eq_refl)
    as (Hiff & _ & Hdone).
  destruct (proj2 Hiff) as [c Hc].
  { eexists. split; [left; reflexivity | vm_compute; reflexivity]. }
  exists c. split; [exact Hc|].
  split; [apply (Hdone c Hc []); intros ? []|].
  destruct (Hdone c Hc [Exited None]) as (_ & H1 & _).
  destruct (H1 [] None [] eq_refl) as [A B]; [intros ? []|].
  destruct (Hdone c Hc [Exited (Some "signal: killed")]) as (_ & H2 & _).
  destruct (H2 [] (Some "signal: killed") [] eq_refl) as [_ C]; [intros ? []|].
  repeat split; assumption.
Defined.

(** The cases of TestBootHeadlessWith_Success and
    TestBootHeadlessWith_NoBootedState. *)
Example BootHeadlessWith_tests :
  BootHeadlessWith (fakeCommander [bootedLine "ABCD-1234"]) "ABCD-1234" "/tmp/axe-devices"
    = Ok (mkCompanion "" None false None) /\
  BootHeadlessWith
    (fakeCommander [Object (<["state" := JString "Creating"]> ∅)]) "ABCD-1234" ""
    = Error "idb_companion did not report Booted state".
Proof. split; vm_compute; reflexivity. Qed.



End IdbFacts.

(** ** The directory layout *)

Module DirsFacts.
Import GoString GoStringFacts Dirs.



















(** The checks of the tests TestNewPreviewDirs_..., on a layout with a
    sixteen-digit hash and the socket named after the first eight bytes of
    the UDID. *)
Example newPreviewDirs_tests :
  let dirs := layout "/Users/dev/Library/Caches/axe" toyHash toySocketName in
  let a := dirs "/path/to/project" "AAAA-1111" in
  let b := dirs "/path/to/project" "BBBB-2222" in
  Build a = Build b /\ Root a = Root b /\ Session a <> Session b /\
  Thunk a <> Thunk b /\ Loader a <> Loader b /\ Staging a <> Staging b /\
  Socket a <> Socket b /\
  Contains (Session a) "devices/AAAA-1111" = true /\
  HasPrefix (Thunk a) (Session a) = true /\
  HasPrefix (Loader a) (Session a) = true /\
  HasPrefix (Staging a) (Session a) = true /\
  HasPrefix (Socket a) (Root a) = true /\
  (String.length (Socket a) < maxSunPathLen)%nat /\
  Build (dirs "/project-a" "same-device") <> Build (dirs "/path/to/project" "same-device") /\
  Socket a = "/Users/dev/Library/Caches/axe/3f2a9c01d4e5b677/AAAA-111.sock".
Proof.
  cbv zeta. repeat split; try (vm_compute; reflexivity); try (vm_compute; discriminate).
  vm_compute. lia.
Qed.

End DirsFacts.

(** * More of the code *)

(** ** cmd/internal/platform/simulator.go: listDevicesInSet *)

Module ListingFacts.
Import Go GoString Platform PlatformMore.

Lemma insertByName_Permutation (d : simDevice) (l : list simDevice) :
  insertByName d l ≡ₚ d :: l.
Proof.
  induction l as [|x l IH]; cbn [insertByName]; [reflexivity|].
  destruct (lt (Name d) (Name x)); [reflexivity|].
  rewrite IH. apply Permutation_swap.
Qed.

Lemma sortByName_Permutation (l : list simDevice) : sortByName l ≡ₚ l.
Proof.
  unfold sortByName.
  enough (G : forall acc, fold_left (fun acc d => insertByName d acc) l acc ≡ₚ l ++ acc).
  { rewrite G. now rewrite app_nil_r. }
  induction l as [|d l IH]; intros acc; cbn [fold_left]; [reflexivity|].
  rewrite IH, insertByName_Permutation. cbn. now rewrite Permutation_middle.
Qed.

Lemma nameLe_total (a b : simDevice) : lt (Name a) (Name b) = false -> nameLe b a.
Proof. apply LatestFacts.ltb_false_leb. Qed.

Lemma insertByName_HdRel (a d : simDevice) (l : list simDevice) :
  nameLe a d -> HdRel nameLe a l -> HdRel nameLe a (insertByName d l).
Proof.
  intros Had H. destruct l as [|x l]; cbn [insertByName]; [now constructor|].
  destruct (lt (Name d) (Name x)); constructor; [assumption|].
  now inversion H.
Qed.

Lemma insertByName_Sorted (d : simDevice) (l : list simDevice) :
  Sorted nameLe l -> Sorted nameLe (insertByName d l).
Proof.
  induction 1 as [|x l Hs IH Hhd]; cbn [insertByName].
  - repeat constructor.
  - destruct (lt (Name d) (Name x)) eqn:E.
    + constructor; [now constructor|]. constructor. now apply LatestFacts.ltb_leb.
    + constructor; [exact IH|]. apply insertByName_HdRel; [|exact Hhd].
      now apply nameLe_total.
Qed.

Lemma sortByName_Sorted (l : list simDevice) : Sorted nameLe (sortByName l).
Proof.
  unfold sortByName.
  enough (G : forall acc, Sorted nameLe acc ->
                          Sorted nameLe (fold_left (fun acc d => insertByName d acc) l acc)).
  { apply G. constructor. }
  induction l as [|d l IH]; intros acc H; cbn [fold_left]; [exact H|].
  apply IH. now apply insertByName_Sorted.
Qed.

#[local] Instance strLe_trans : Transitive strLe.
Proof. intros a b c. apply LatestFacts.leb_trans. Qed.

#[local] Instance strLe_antisym : AntiSymm (=) strLe.
Proof. intros a b. apply String.leb_antisym. Qed.

Lemma Sorted_names (l : list simDevice) :
  Sorted nameLe l -> Sorted strLe (map Name l).
Proof.
  induction 1 as [|x l Hs IH Hhd]; cbn [map]; constructor; [exact IH|].
  destruct Hhd; cbn [map]; now constructor.
Qed.

Lemma flat_map_snd_Permutation (e1 e2 : list (string * list simDevice)) :
  e1 ≡ₚ e2 -> flat_map snd e1 ≡ₚ flat_map snd e2.
Proof.
  induction 1 as [|x l l' _ IH|x y l|l l' l'' _ IH1 _ IH2]; cbn [flat_map].
  - reflexivity.
  - now rewrite IH.
  - rewrite !app_assoc. apply Permutation_app_tail, Permutation_app_comm.
  - now rewrite IH1.
Qed.

(** X1. When the listing works, [listDevicesInSet] returns every device of
    every runtime of the set exactly once, ordered by name, and logs
    nothing; the sequence of names it returns is the same for every order
    in which the map of runtimes is visited. *)
Theorem X1_listDevicesInSet_sorted_by_name (e : env) (path : string)
    (t : list action) (l : list simDevice) :
  listDevicesInSet e path = (t, Ok l) ->
  t = [] /\
  l ≡ₚ flat_map snd (axeSet e) /\
  Sorted nameLe l /\
  (forall e' t' l',
     axeSet e' ≡ₚ axeSet e -> listDevicesInSet e' path = (t', Ok l') ->
     map Name l' = map Name l).
Proof.
  assert (A : forall e0 t0 l0, listDevicesInSet e0 path = (t0, Ok l0) ->
                 t0 = [] /\ l0 = sortByName (flat_map snd (axeSet e0))).
  { intros e0 t0 l0. unfold listDevicesInSet.
    destruct (axeSetListFailure e0) as [[err|err]|]; try discriminate.
    intros [= <- <-]. now split. }
  intros H. destruct (A _ _ _ H) as [-> ->].
  split; [reflexivity|]. split; [apply sortByName_Permutation|].
  split; [apply sortByName_Sorted|].
  intros e' t' l' P H'. destruct (A _ _ _ H') as [-> ->].
  apply (Sorted_unique strLe).
  - apply Sorted_names, sortByName_Sorted.
  - apply Sorted_names, sortByName_Sorted.
  - apply Permutation_map. rewrite !sortByName_Permutation.
    now apply flat_map_snd_Permutation.
Qed.

(** The theorem at work, on a set of one device. *)
Lemma X1_listDevicesInSet_witness :
  listDevicesInSet envOneDevice "/set" = ([], Ok [axeIPhone16]) /\
  [axeIPhone16] ≡ₚ flat_map snd (axeSet envOneDevice) /\
  Sorted nameLe [axeIPhone16].
Proof.
  split; [reflexivity|].
  destruct (X1_listDevicesInSet_sorted_by_name envOneDevice "/set" [] [axeIPhone16] eq_refl)
    as (_ & P & S & _).
  split; [exact P | exact S].
Defined.

End ListingFacts.

(** ** cmd/internal/platform/simulator.go: what ResolveAxeSimulator does *)

Module ResolveMoreFacts.
Import Go GoString Platform PlatformMore ResolveFacts.

Lemma hasUDID_dec (udid : string) (devices : list simDevice) :
  hasUDID udid devices \/ ~ hasUDID udid devices.
Proof.
  destruct (findByUDID udid devices) as [d|] eqn:E.
  - left. destruct (findByUDID_Some _ _ _ E). now exists d.
  - right. now apply findByUDID_None.
Qed.

(** The four priorities make no directory. *)
Lemma resolveAmong_no_mkdir (TrimSpace : string -> string) (e : env)
    (path pref : string) (devices : list simDevice) :
  List.filter isMkdir (resolveAmong TrimSpace e path pref devices).1 = [].
Proof.
  unfold resolveAmong, useConfigDefault, reuseOrCreate, createDeviceInSet.
  destruct (bool_decide (pref = "")); cbn [negb].
  - destruct (configDefault e) as [u|].
    + destruct (bool_decide (u = "")).
      * destruct devices as [|d rest]; run_M; [|reflexivity].
        destruct (findLatestIPhone (availableDevices e)) as [[src rt]|msg];
          cbn [fst snd app]; [|reflexivity].
        destruct (simctlCreate e _ _ _ _) as [o [err|]]; reflexivity.
      * destruct (findByUDID u devices) as [d|]; run_M; [reflexivity|].
        destruct devices as [|d rest]; cbn [fst snd app]; [|reflexivity].
        destruct (findLatestIPhone (availableDevices e)) as [[src rt]|msg];
          cbn [fst snd app]; [|reflexivity].
        destruct (simctlCreate e _ _ _ _) as [o [err|]]; reflexivity.
    + destruct devices as [|d rest]; run_M; [|reflexivity].
      destruct (findLatestIPhone (availableDevices e)) as [[src rt]|msg];
        cbn [fst snd app]; [|reflexivity].
      destruct (simctlCreate e _ _ _ _) as [o [err|]]; reflexivity.
  - destruct (findByUDID pref devices) as [d|]; reflexivity.
Qed.

(** What the priority order says of the devices created and of a result
    that is not an error. *)
Lemma priorityOrder_outcome (TrimSpace : string -> string) (set : list simDevice)
    (e : env) (path pref : string) (t : list action) (r : result (string * string)) :
  priorityOrder TrimSpace set e path pref (t, r) ->
  (length (created t) <= 1)%nat /\
  forall u p, r = Ok (u, p) ->
    p = path /\
    ((created t = [] /\ hasUDID u set) \/
     (set = [] /\
      exists source runtime o,
        findLatestIPhone (availableDevices e) = Ok (source, runtime) /\
        created t = [SimctlCreate ("axe " +:+ Name source +:+ " (1)")
                       (DeviceTypeIdentifier source) runtime path] /\
        simctlCreate e ("axe " +:+ Name source +:+ " (1)")
          (DeviceTypeIdentifier source) runtime path = (o, None) /\
        u = TrimSpace o)).
Proof.
  intros (P1 & P2 & _). cbn [fst snd] in *.
  assert (Auto : set = [] -> autoCreates TrimSpace e path (t, r) ->
     (length (created t) <= 1)%nat /\
     forall u p, r = Ok (u, p) ->
       p = path /\
       ((created t = [] /\ hasUDID u set) \/
        (set = [] /\
         exists source runtime o,
           findLatestIPhone (availableDevices e) = Ok (source, runtime) /\
           created t = [SimctlCreate ("axe " +:+ Name source +:+ " (1)")
                          (DeviceTypeIdentifier source) runtime path] /\
           simctlCreate e ("axe " +:+ Name source +:+ " (1)")
             (DeviceTypeIdentifier source) runtime path = (o, None) /\
           u = TrimSpace o))).
  { intros Hs A. unfold autoCreates in A. cbn [fst snd] in A.
    destruct (findLatestIPhone (availableDevices e)) as [[src rt]|msg] eqn:F.
    - destruct A as [Hc Hr]. rewrite Hc. split; [cbn; lia|].
      intros u p Hu. rewrite Hu in Hr.
      destruct (simctlCreate e _ _ _ _) as [o [err|]] eqn:S; [discriminate|].
      injection Hr as -> ->. split; [reflexivity|]. right. split; [exact Hs|].
      exists src, rt, o. repeat split; assumption.
    - destruct A as [Hr Hn]. apply noDeviceCreated_created in Hn. rewrite Hn.
      split; [cbn; lia|]. intros u p Hu. congruence. }
  assert (Hit : forall v, hasUDID v set -> r = Ok (v, path) /\ noDeviceCreated t ->
     (length (created t) <= 1)%nat /\
     forall u p, r = Ok (u, p) ->
       p = path /\
       ((created t = [] /\ hasUDID u set) \/
        (set = [] /\
         exists source runtime o,
           findLatestIPhone (availableDevices e) = Ok (source, runtime) /\
           created t = [SimctlCreate ("axe " +:+ Name source +:+ " (1)")
                          (DeviceTypeIdentifier source) runtime path] /\
           simctlCreate e ("axe " +:+ Name source +:+ " (1)")
             (DeviceTypeIdentifier source) runtime path = (o, None) /\
           u = TrimSpace o))).
  { intros v Hv [Hr Hn]. apply noDeviceCreated_created in Hn. rewrite Hn.
    split; [cbn; lia|]. intros u p Hu. rewrite Hu in Hr. injection Hr as -> ->.
    split; [reflexivity|]. left. now split. }
  destruct (decide (pref = "")) as [Hp|Hp].
  - destruct (P2 Hp) as (A & _ & C).
    destruct (decide (configuredDefault e = "")) as [Hd|Hd].
    + destruct (C (or_introl Hd)) as [C1 C2].
      destruct set as [|d rest]; [now apply Auto; [|apply C2]|].
      apply (Hit (UDID d)); [exists d; split; [now left | reflexivity]|].
      now apply (C1 d rest).
    + destruct (hasUDID_dec (configuredDefault e) set) as [Hh|Hh].
      * apply (Hit (configuredDefault e)); [exact Hh|]. now apply A.
      * destruct (C (or_intror Hh)) as [C1 C2].
        destruct set as [|d rest]; [now apply Auto; [|apply C2]|].
        apply (Hit (UDID d)); [exists d; split; [now left | reflexivity]|].
        now apply (C1 d rest).
  - destruct (P1 Hp) as [A B].
    destruct (hasUDID_dec pref set) as [Hh|Hh].
    + apply (Hit pref); [exact Hh|]. now apply A.
    + destruct (B Hh) as [Hr Hn]. apply noDeviceCreated_created in Hn. rewrite Hn.
      split; [cbn; lia|]. intros u p Hu. congruence.
Qed.

Lemma hasUDID_listed_set (e : env) (udid : string) :
  hasUDID udid (listedDevices e) -> hasUDID udid (setDevices e).
Proof.
  unfold listedDevices. destruct (axeSetListFailure e); [|tauto].
  intros (d & [] & _).
Qed.

(** X2. A call of [ResolveAxeSimulator] creates at most one device. When
    the home directory cannot be resolved it does nothing at all, and when
    the directory of the device set cannot be made it does nothing else:
    in both cases it returns the error, wrapped. When the home directory is
    known, the directory of the device set is made once, before anything
    else, and no other directory is made. *)
Theorem X2_ResolveAxeSimulator_effects (Join : list string -> string)
    (TrimSpace : string -> string) (e : env) (preferredUDID : string) :
  let out := ResolveAxeSimulator Join TrimSpace e preferredUDID in
  (length (created out.1) <= 1)%nat /\
  (forall err, userHomeDir e = Error err ->
     out = ([], Error ("resolving home directory: " +:+ err))) /\
  (forall home err,
     userHomeDir e = Ok home -> mkdirAllError e (setPathIn Join home) = Some err ->
     out = ([MkdirAll (setPathIn Join home)],
            Error ("creating axe device set directory: " +:+ err))) /\
  (forall home, userHomeDir e = Ok home ->
     head out.1 = Some (MkdirAll (setPathIn Join home)) /\
     List.filter isMkdir out.1 = [MkdirAll (setPathIn Join home)]).
Proof.
  cbv zeta.
  assert (E1 : forall err, userHomeDir e = Error err ->
            ResolveAxeSimulator Join TrimSpace e preferredUDID
            = ([], Error ("resolving home directory: " +:+ err))).
  { intros err H. unfold ResolveAxeSimulator, AxeDeviceSetPath. rewrite H. reflexivity. }
  assert (E2 : forall home err,
            userHomeDir e = Ok home -> mkdirAllError e (setPathIn Join home) = Some err ->
            ResolveAxeSimulator Join TrimSpace e preferredUDID
            = ([MkdirAll (setPathIn Join home)],
               Error ("creating axe device set directory: " +:+ err))).
  { intros home err H Hm. unfold ResolveAxeSimulator, AxeDeviceSetPath. rewrite H.
    fold (setPathIn Join home). run_M. rewrite Hm. reflexivity. }
  assert (E3 : forall home,
            userHomeDir e = Ok home -> mkdirAllError e (setPathIn Join home) = None ->
            exists logs,
              List.filter isMkdir logs = [] /\ created logs = [] /\
              ResolveAxeSimulator Join TrimSpace e preferredUDID =
              (MkdirAll (setPathIn Join home) :: logs ++
                 (resolveAmong TrimSpace e (setPathIn Join home) preferredUDID
                    (listedDevices e)).1,
               (resolveAmong TrimSpace e (setPathIn Join home) preferredUDID
                    (listedDevices e)).2)).
  { intros home H Hm. unfold ResolveAxeSimulator, AxeDeviceSetPath. rewrite H.
    fold (setPathIn Join home). run_M. rewrite Hm. cbn [fst snd app].
    unfold listOrNone, listDevicesInSet, listedDevices, setDevices.
    destruct (axeSetListFailure e) as [[err|err]|]; run_M.
    - exists [Slog Debug "Failed to list devices in axe set, will clone"].
      repeat split.
    - exists [Slog Debug "Failed to list devices in axe set, will clone"].
      repeat split.
    - exists []. repeat split. }
  split; [|split; [exact E1|split; [exact E2|]]].
  - destruct (userHomeDir e) as [home|err] eqn:H; [|rewrite (E1 err eq_refl); cbn; lia].
    destruct (mkdirAllError e (setPathIn Join home)) as [err|] eqn:Hm;
      [rewrite (E2 home err eq_refl Hm); cbn; lia|].
    destruct (E3 home eq_refl Hm) as (logs & _ & Hc & ->). cbn [fst].
    change (MkdirAll (setPathIn Join home) :: logs ++ ?x)
      with ([MkdirAll (setPathIn Join home)] ++ logs ++ x).
    rewrite !created_app, Hc. cbn [created List.filter isCreate app].
    pose proof (resolveAmong_priorityOrder TrimSpace e (setPathIn Join home)
                  preferredUDID (listedDevices e)) as P.
    destruct (resolveAmong TrimSpace e (setPathIn Join home) preferredUDID
                (listedDevices e)) as [t r].
    now destruct (priorityOrder_outcome _ _ _ _ _ _ _ P).
  - intros home H.
    destruct (mkdirAllError e (setPathIn Join home)) as [err|] eqn:Hm;
      [rewrite (E2 home err H Hm); split; reflexivity|].
    destruct (E3 home H Hm) as (logs & Hl & _ & ->). cbn [fst head].
    split; [reflexivity|]. cbn [List.filter isMkdir].
    now rewrite List.filter_app, Hl, resolveAmong_no_mkdir.
Qed.

(** X3. When [ResolveAxeSimulator] returns a UDID, the path it returns with
    it is the directory of axe's device set in the home directory, and
    either no device was created and the UDID is that of a device of the
    set, or the listing gave no device, exactly one device was created,
    named "axe <name> (1)" after the latest iPhone with its device type
    and runtime, in that directory, and the UDID is the trimmed output of
    the creation. *)
Theorem X3_ResolveAxeSimulator_result (Join : list string -> string)
    (TrimSpace : string -> string) (e : env) (preferredUDID : string)
    (t : list action) (udid path : string) :
  ResolveAxeSimulator Join TrimSpace e preferredUDID = (t, Ok (udid, path)) ->
  exists home,
    userHomeDir e = Ok home /\ path = setPathIn Join home /\
    ((created t = [] /\ hasUDID udid (listedDevices e) /\ hasUDID udid (setDevices e)) \/
     (listedDevices e = [] /\
      exists source runtime o,
        findLatestIPhone (availableDevices e) = Ok (source, runtime) /\
        created t = [SimctlCreate ("axe " +:+ Name source +:+ " (1)")
                       (DeviceTypeIdentifier source) runtime path] /\
        simctlCreate e ("axe " +:+ Name source +:+ " (1)")
          (DeviceTypeIdentifier source) runtime path = (o, None) /\
        udid = TrimSpace o)).
Proof.
  intros H.
  destruct (userHomeDir e) as [home|err] eqn:Hh.
  2:{ unfold ResolveAxeSimulator, AxeDeviceSetPath in H. rewrite Hh in H. discriminate. }
  destruct (mkdirAllError e (setPathIn Join home)) as [err|] eqn:Hm.
  { unfold ResolveAxeSimulator, AxeDeviceSetPath in H. rewrite Hh in H.
    fold (setPathIn Join home) in H. revert H. run_M. rewrite Hm. discriminate. }
  destruct (ResolveAxeSimulator_unfold Join TrimSpace e preferredUDID home Hh Hm)
    as (pre & Hpre & E).
  rewrite E in H. injection H as <- Hr.
  pose proof (resolveAmong_priorityOrder TrimSpace e (setPathIn Join home)
                preferredUDID (listedDevices e)) as P.
  destruct (resolveAmong TrimSpace e (setPathIn Join home) preferredUDID
              (listedDevices e)) as [t' r]. cbn [fst snd] in *.
  destruct (priorityOrder_outcome _ _ _ _ _ _ _ P) as [_ O].
  destruct (O _ _ Hr) as [-> [[Hc Hu]|[Hs (src & rt & o & F & Hc & S & Hu)]]].
  - exists home. split; [reflexivity|]. split; [reflexivity|]. left.
    rewrite created_app, Hpre, Hc. split; [reflexivity|].
    split; [exact Hu | now apply hasUDID_listed_set].
  - exists home. split; [reflexivity|]. split; [reflexivity|]. right.
    split; [exact Hs|]. exists src, rt, o. rewrite created_app, Hpre, Hc.
    repeat split; assumption.
Qed.

(** The theorem at work: the device of the set is found by its UDID. *)
Lemma X3_ResolveAxeSimulator_witness :
  ResolveAxeSimulator (String.concat "/") (fun s => s) envOneDevice "AAAA-1111" =
    ([MkdirAll "/Users/dev/Library/Developer/axe/Simulator Devices";
      Slog Info "Using specified simulator"],
     Ok ("AAAA-1111", "/Users/dev/Library/Developer/axe/Simulator Devices")) /\
  exists home,
    userHomeDir envOneDevice = Ok home /\
    "/Users/dev/Library/Developer/axe/Simulator Devices"
      = setPathIn (String.concat "/") home.
Proof.
  assert (E : ResolveAxeSimulator (String.concat "/") (fun s => s) envOneDevice "AAAA-1111" =
    ([MkdirAll "/Users/dev/Library/Developer/axe/Simulator Devices";
      Slog Info "Using specified simulator"],
     Ok ("AAAA-1111", "/Users/dev/Library/Developer/axe/Simulator Devices")))
    by (vm_compute; reflexivity).
  split; [exact E|].
  destruct (X3_ResolveAxeSimulator_result _ _ _ _ _ _ _ E) as (home & H1 & H2 & _).
  exists home. split; [exact H1 | exact H2].
Defined.

End ResolveMoreFacts.

(** ** cmd/internal/platform/simulator.go: more on the latest iPhone *)

Module LatestMoreFacts.
Import Go GoString GoStringFacts Platform PlatformMore ParseFacts LatestFacts.

Lemma filter_iPhone_twice (l : list simDevice) :
  filter (fun d => Contains (Name d) "iPhone" = true)
         (List.filter (fun d => Contains (Name d) "iPhone") l)
  = filter (fun d => Contains (Name d) "iPhone" = true) l.
Proof.
  induction l as [|d l IH]; [reflexivity|]. cbn [List.filter].
  destruct (Contains (Name d) "iPhone") eqn:E.
  - rewrite !filter_cons. rewrite !decide_True by exact E. now rewrite IH.
  - rewrite filter_cons, decide_False by congruence. exact IH.
Qed.

Lemma candidates_iPhonesOnly (entries : list (string * list simDevice)) :
  candidates (iPhonesOnly entries) = candidates entries.
Proof.
  induction entries as [|[rt ds] es IH]; [reflexivity|].
  rewrite (candidates_cons (rt, ds) es). unfold iPhonesOnly in *.
  cbn [List.filter fst snd].
  destruct (Z.ltb_spec (parseIOSVersion rt).1 0) as [L|L]; cbn [negb].
  - rewrite IH. unfold candidates at 2. cbn [flat_map fst snd].
    destruct (Z.ltb_spec (parseIOSVersion rt).1 0); [reflexivity | lia].
  - cbn [map fst snd].
    rewrite (candidates_cons (rt, List.filter _ ds)). rewrite IH. f_equal.
    unfold candidates. cbn [flat_map fst snd].
    destruct (Z.ltb_spec (parseIOSVersion rt).1 0); [lia|].
    now rewrite filter_iPhone_twice.
Qed.

(** X4. [findLatestIPhone] looks at nothing but the iPhones of the iOS
    runtimes: dropping every other runtime and every other device from the
    listing does not change what it returns; and the device it returns
    always has a UDID. *)
Theorem X4_findLatestIPhone_ignores_the_rest
    (entries : list (string * list simDevice)) :
  findLatestIPhone (Listed (iPhonesOnly entries)) = findLatestIPhone (Listed entries) /\
  (forall d rt, findLatestIPhone (Listed entries) = Ok (d, rt) -> UDID d <> "").
Proof.
  split.
  - cbn [findLatestIPhone]. unfold scanRuntimes.
    now rewrite !scan_candidates, candidates_iPhonesOnly.
  - intros d rt. cbn [findLatestIPhone].
    destruct (bool_decide_reflect (UDID (best (scanRuntimes entries)) = "")) as [E|E];
      [discriminate|].
    now intros [= <- _].
Qed.

Lemma Contains_cons (c : ascii) (s sub : string) :
  Contains (String c s) sub = HasPrefix (String c s) sub || Contains s sub.
Proof. reflexivity. Qed.

Lemma Contains_here (pre x sub : string) :
  HasPrefix x sub = true -> Contains (pre +:+ x) sub = true.
Proof.
  intros H. induction pre as [|c pre IH].
  - rewrite sapp_nil_l. destruct x; cbn [Contains]; now rewrite H.
  - rewrite sapp_cons, Contains_cons, IH. apply orb_true_r.
Qed.

Lemma iosForm_Contains (s pre d1 d2 post : string) :
  iosForm s pre d1 d2 post -> Contains s "iOS-" = true.
Proof.
  intros (-> & _). apply Contains_here. apply HasPrefix_app.
Qed.

(** An occurrence of [iOS-] cannot start in a text that does not contain
    it and end in the [iOS-] that follows the text. *)
Lemma no_earlier_iOS (pre rest pre' rest' : string) :
  Contains pre "iOS-" = false ->
  pre +:+ "iOS-" +:+ rest = pre' +:+ "iOS-" +:+ rest' ->
  (String.length pre <= String.length pre')%nat.
Proof.
  revert pre'. induction pre as [|c p IH]; intros pre' Hc E; [cbn; lia|].
  rewrite Contains_cons in Hc. apply orb_false_iff in Hc as [Hp Hc].
  destruct pre' as [|c' p'].
  - exfalso. rewrite sapp_nil_l, sapp_cons in E.
    change ("iOS-" +:+ rest') with (String "i" (String "O" (String "S" (String "-" rest')))) in E.
    change ("iOS-" +:+ rest) with (String "i" (String "O" (String "S" (String "-" rest)))) in E.
    injection E as -> E.
    destruct p as [|c2 p]; [rewrite sapp_nil_l in E; discriminate|].
    rewrite sapp_cons in E. injection E as -> E.
    destruct p as [|c3 p]; [rewrite sapp_nil_l in E; discriminate|].
    rewrite sapp_cons in E. injection E as -> E.
    destruct p as [|c4 p]; [rewrite sapp_nil_l in E; discriminate|].
    rewrite sapp_cons in E. injection E as -> E.
    destruct p; cbn in Hp; discriminate Hp.
  - rewrite !sapp_cons in E. injection E as -> E.
    cbn [String.length]. specialize (IH p' Hc E). lia.
Qed.

(** X5. A key that reads [<text>iOS-<major>-<minor>], where the text does
    not contain [iOS-] and no digit follows the minor number, parses to the
    two numbers (as [strconv.Atoi] reads them); a key that does not contain
    [iOS-] parses to (-1, -1); and in every case both results are between
    -1 and the largest [int], and one is -1 exactly when the other is. *)
Theorem X5_parseIOSVersion_of_runtime_keys :
  (forall pre d1 d2 post,
     Contains pre "iOS-" = false ->
     allDigits d1 = true -> d1 <> "" -> allDigits d2 = true -> d2 <> "" ->
     noDigitAhead post ->
     parseIOSVersion (pre +:+ "iOS-" +:+ d1 +:+ "-" +:+ d2 +:+ post)
     = (intOfDigits d1, intOfDigits d2)) /\
  (forall s, Contains s "iOS-" = false -> parseIOSVersion s = (-1, -1)) /\
  (forall s,
     -1 <= (parseIOSVersion s).1 <= maxInt /\ -1 <= (parseIOSVersion s).2 <= maxInt /\
     ((parseIOSVersion s).1 = -1 <-> (parseIOSVersion s).2 = -1)).
Proof.
  split; [|split].
  - intros pre d1 d2 post Hc H1 N1 H2 N2 Hpost.
    assert (L : leftmostIOSForm (pre +:+ "iOS-" +:+ d1 +:+ "-" +:+ d2 +:+ post)
                  pre d1 d2 post).
    { split; [repeat split; assumption|]. split; [exact Hpost|].
      intros pre' d1' d2' post' (E & _). now apply (no_earlier_iOS _ _ _ _ Hc E). }
    unfold parseIOSVersion. rewrite (FindStringSubmatch_leftmost _ _ _ _ _ L).
    now rewrite !Atoi_digits.
  - intros s Hc. unfold parseIOSVersion.
    assert (N : FindStringSubmatch s = None).
    { apply FindStringSubmatch_None. intros (pre & d1 & d2 & post & F).
      apply iosForm_Contains in F. congruence. }
    now rewrite N.
  - intros s.
    destruct (parseIOSVersion_cases s)
      as [[_ E]|(pre & d1 & d2 & post & L & E & _)].
    + rewrite E. cbn [fst snd]. assert (0 <= maxInt) by (now compute).
      repeat split; lia.
    + rewrite E. cbn [fst snd]. destruct L as ((_ & H1 & _ & H2 & _) & _).
      pose proof (intOfDigits_range _ H1). pose proof (intOfDigits_range _ H2).
      repeat split; lia.
Qed.

End LatestMoreFacts.

(** ** cmd/internal/preview/shared_watcher.go: listeners that come and go *)

Module WatcherMoreFacts.
Import GoString Watcher WatcherMore WatcherFacts.

Lemma holders_registered (m : gmap string positive) (id : string) (ch c : positive) :
  m !! id = Some ch ->
  holders ((map_to_list m).*2) c =
  ((if bool_decide (ch = c) then 1 else 0) + holders ((map_to_list (delete id m)).*2) c)%nat.
Proof.
  intros H.
  rewrite (holders_Permutation _ (((id, ch) :: map_to_list (delete id m)).*2)).
  2:{ apply fmap_Permutation. symmetry. now apply map_to_list_delete. }
  cbn [fmap list_fmap snd]. rewrite holders_cons.
  now destruct (bool_decide (ch = c)).
Qed.

Lemma holders_unregistered (m : gmap string positive) (id : string) :
  m !! id = None -> delete id m = m.
Proof. apply delete_id. Qed.

Lemma holders_sole (sw : sharedWatcher) (id : string) (ch : positive) :
  listeners sw !! id = Some ch ->
  (forall id', listeners sw !! id' = Some ch -> id' = id) ->
  holders ((map_to_list (delete id (listeners sw))).*2) ch = 0%nat.
Proof.
  intros Hl Hown. pose proof (holders_own sw id ch Hl Hown) as H1.
  unfold listenerChannels in H1.
  rewrite (holders_registered _ id ch ch Hl) in H1.
  rewrite bool_decide_eq_true_2 in H1 by reflexivity. lia.
Qed.

Lemma noneClosed_removeListener (sw : sharedWatcher) (id : string) (h : heap) :
  noneClosed (listenerChannels sw) h ->
  noneClosed (listenerChannels (removeListener sw id)) h.
Proof.
  intros H ch c Hin. apply H. apply In_listenerChannels.
  apply In_listenerChannels in Hin as [id' Hid]. cbn [removeListener listeners] in Hid.
  destruct (decide (id' = id)) as [->|N].
  - now rewrite lookup_delete_eq in Hid.
  - rewrite lookup_delete_ne in Hid by congruence. eauto.
Qed.

(** X6. Once a stream is removed from the listeners, an event that the
    watcher forwards no longer reaches its channel (when no other stream
    listens on it), and reaches every other channel exactly as it did
    before the removal; removing a stream that is not registered changes
    nothing. The channels of the listeners are supposed not to be closed. *)
Theorem X6_removeListener_stops_delivery (Clean : string -> string)
    (sw : sharedWatcher) (id : string) (ev : Event) (h : heap) :
  noneClosed (listenerChannels sw) h -> forwarded ev ->
  exists h1 h2,
    onEvent Clean sw ev h = Some h1 /\
    onEvent Clean (removeListener sw id) ev h = Some h2 /\
    (forall ch, listeners sw !! id = Some ch ->
       (forall id', listeners sw !! id' = Some ch -> id' = id) ->
       h2 !! ch = h !! ch) /\
    (forall c, listeners sw !! id <> Some c -> h2 !! c = h1 !! c) /\
    (listeners sw !! id = None -> h2 = h1).
Proof.
  intros Hn F.
  rewrite !(onEvent_forwarded Clean _ ev h F). unfold broadcast.
  destruct (broadcastIn_lookup (listenerChannels sw) (Clean (EventName ev)) h Hn)
    as (h1 & E1 & L1).
  destruct (broadcastIn_lookup (listenerChannels (removeListener sw id))
              (Clean (EventName ev)) h (noneClosed_removeListener sw id h Hn))
    as (h2 & E2 & L2).
  exists h1, h2. split; [exact E1|]. split; [exact E2|].
  unfold listenerChannels in *. cbn [removeListener listeners] in *.
  split; [|split].
  - intros ch Hl Hown. rewrite L2, (holders_sole sw id ch Hl Hown).
    now destruct (h !! ch).
  - intros c Hc. rewrite L1, L2.
    destruct (listeners sw !! id) as [ch|] eqn:Hl.
    + rewrite (holders_registered _ id ch c Hl).
      rewrite bool_decide_eq_false_2 by congruence. reflexivity.
    + now rewrite (delete_id _ _ Hl).
  - intros Hl. apply map_eq. intros c. rewrite L1, L2.
    now rewrite (delete_id _ _ Hl).
Qed.

(** The theorem at work: stream "a" leaves the watcher with two listeners. *)
Lemma X6_removeListener_witness :
  noneClosed (listenerChannels swTwo) heapTwo /\ forwarded writeOfView /\
  exists h2,
    onEvent (fun s => s) (removeListener swTwo "a") writeOfView heapTwo = Some h2 /\
    h2 !! 1%positive = heapTwo !! 1%positive.
Proof.
  assert (F : forwarded writeOfView) by (split; [reflexivity | left; reflexivity]).
  split; [exact noneClosed_heapTwo|]. split; [exact F|].
  destruct (X6_removeListener_stops_delivery (fun s => s) swTwo "a" writeOfView heapTwo
              noneClosed_heapTwo F) as (h1 & h2 & _ & E2 & Hgone & _).
  exists h2. split; [exact E2|].
  apply Hgone; [reflexivity|].
  intros id' H. destruct (decide (id' = "a")) as [->|N]; [reflexivity|].
  exfalso. unfold swTwo, addListener in H. cbn [listeners] in H.
  destruct (decide (id' = "b")) as [->|N'].
  - rewrite lookup_insert_eq in H. discriminate.
  - rewrite lookup_insert_ne in H by congruence.
    rewrite lookup_insert_ne in H by congruence.
    rewrite lookup_empty in H. discriminate.
Defined.

Lemma holders_inserted (m : gmap string positive) (id : string) (ch c : positive) :
  holders ((map_to_list (<[id := ch]> m)).*2) c =
  ((if bool_decide (ch = c) then 1 else 0) + holders ((map_to_list (delete id m)).*2) c)%nat.
Proof.
  rewrite (holders_registered (<[id := ch]> m) id ch c) by apply lookup_insert_eq.
  now rewrite delete_insert_eq.
Qed.

Lemma noneClosed_addListener (sw : sharedWatcher) (id : string) (ch : positive) (h : heap) :
  noneClosed (listenerChannels sw) h ->
  (forall c, h !! ch = Some c -> closed c = false) ->
  noneClosed (listenerChannels (addListener sw id ch)) h.
Proof.
  intros H Hch c st Hin.
  apply In_listenerChannels in Hin as [id' Hid]. cbn [addListener listeners] in Hid.
  destruct (decide (id' = id)) as [->|N].
  - rewrite lookup_insert_eq in Hid. injection Hid as <-. apply Hch.
  - rewrite lookup_insert_ne in Hid by congruence.
    apply H. apply In_listenerChannels. eauto.
Qed.

(** X7. Once a stream is added to the listeners, an event that the watcher
    forwards is offered once to its channel (when no stream listened on it
    before); the channel that the stream had registered before under the
    same ID gets nothing any more (when no other stream listens on it);
    every other channel gets what it got before; and registering the same
    channel again changes nothing. No channel involved is closed. *)
Theorem X7_addListener_delivers_and_replaces (Clean : string -> string)
    (sw : sharedWatcher) (id : string) (ch : positive) (ev : Event) (h : heap) :
  noneClosed (listenerChannels sw) h ->
  (forall c, h !! ch = Some c -> closed c = false) ->
  forwarded ev ->
  exists h1 h2,
    onEvent Clean sw ev h = Some h1 /\
    onEvent Clean (addListener sw id ch) ev h = Some h2 /\
    ((forall id', listeners sw !! id' <> Some ch) ->
       h2 !! ch = sendOnce (Clean (EventName ev)) <$> h !! ch) /\
    (forall old, listeners sw !! id = Some old -> old <> ch ->
       (forall id', listeners sw !! id' = Some old -> id' = id) ->
       h2 !! old = h !! old) /\
    (forall c, c <> ch -> listeners sw !! id <> Some c -> h2 !! c = h1 !! c) /\
    (listeners sw !! id = Some ch -> h2 = h1).
Proof.
  intros Hn Hch F.
  rewrite !(onEvent_forwarded Clean _ ev h F). unfold broadcast.
  destruct (broadcastIn_lookup (listenerChannels sw) (Clean (EventName ev)) h Hn)
    as (h1 & E1 & L1).
  destruct (broadcastIn_lookup (listenerChannels (addListener sw id ch))
              (Clean (EventName ev)) h (noneClosed_addListener sw id ch h Hn Hch))
    as (h2 & E2 & L2).
  exists h1, h2. split; [exact E1|]. split; [exact E2|].
  unfold listenerChannels in *. cbn [addListener listeners] in *.
  split; [|split; [|split]].
  - intros Hnew. rewrite L2, holders_inserted.
    rewrite bool_decide_eq_true_2 by reflexivity.
    rewrite holders_zero.
    + now destruct (h !! ch).
    + intros Hin.
      assert (Hin' : In ch (listenerChannels (removeListener sw id))) by exact Hin.
      apply In_listenerChannels in Hin' as [id' Hid]. cbn [removeListener listeners] in Hid.
      destruct (decide (id' = id)) as [->|N].
      * now rewrite lookup_delete_eq in Hid.
      * rewrite lookup_delete_ne in Hid by congruence. now apply (Hnew id').
  - intros old Hl Hne Hown. rewrite L2, holders_inserted.
    rewrite bool_decide_eq_false_2 by congruence.
    rewrite (holders_sole sw id old Hl Hown). now destruct (h !! old).
  - intros c Hc Hid. rewrite L1, L2, holders_inserted.
    rewrite bool_decide_eq_false_2 by congruence.
    destruct (listeners sw !! id) as [old|] eqn:Hl.
    + rewrite (holders_registered _ id old c Hl).
      rewrite bool_decide_eq_false_2 by congruence. reflexivity.
    + now rewrite (delete_id _ _ Hl).
  - intros Hl. apply map_eq. intros c. rewrite L1, L2.
    now rewrite (insert_id _ _ _ Hl).
Qed.

(** The theorem at work: a third stream joins the watcher with two
    listeners, on a channel with a receiver parked on it. *)
Lemma X7_addListener_witness :
  let h := <[3%positive := mkChannel 0 [] 1 [] false]> heapTwo in
  noneClosed (listenerChannels swTwo) h /\ forwarded writeOfView /\
  exists h2,
    onEvent (fun s => s) (addListener swTwo "c" 3%positive) writeOfView h = Some h2 /\
    h2 !! 3%positive = Some (mkChannel 0 [] 0 ["/p/View.swift"] false).
Proof.
  intros h.
  assert (F : forwarded writeOfView) by (split; [reflexivity | left; reflexivity]).
  assert (Hn : noneClosed (listenerChannels swTwo) h).
  { intros ch c Hin Hl. vm_compute in Hin.
    destruct Hin as [<-|[<-|[]]]; vm_compute in Hl; injection Hl as <-; reflexivity. }
  assert (Hch : forall c, h !! 3%positive = Some c -> closed c = false).
  { intros c Hl. vm_compute in Hl. injection Hl as <-. reflexivity. }
  split; [exact Hn|]. split; [exact F|].
  destruct (X7_addListener_delivers_and_replaces (fun s => s) swTwo "c" 3%positive
              writeOfView h Hn Hch F) as (h1 & h2 & _ & E2 & Hnew & _).
  exists h2. split; [exact E2|].
  rewrite Hnew; [reflexivity|].
  intros id' H. unfold swTwo, addListener in H. cbn [listeners] in H.
  destruct (decide (id' = "b")) as [->|Nb].
  - rewrite lookup_insert_eq in H. discriminate.
  - rewrite lookup_insert_ne in H by congruence.
    destruct (decide (id' = "a")) as [->|Na].
    + rewrite lookup_insert_eq in H. discriminate.
    + rewrite lookup_insert_ne in H by congruence.
      rewrite lookup_empty in H. discriminate.
Defined.

(** *** What the loop never does to a channel *)

Lemma grownBy_refl (P : string -> Prop) (c : channel) : grownBy P c c.
Proof.
  split; [reflexivity|]. split; [reflexivity|]. exists [], [].
  rewrite !app_nil_r. repeat split; auto; cbn; lia.
Qed.

Lemma grownBy_trans (P : string -> Prop) (c1 c2 c3 : channel) :
  grownBy P c1 c2 -> grownBy P c2 c3 -> grownBy P c1 c3.
Proof.
  intros (C1 & D1 & q1 & g1 & Q1 & G1 & FQ1 & FG1 & N1)
         (C2 & D2 & q2 & g2 & Q2 & G2 & FQ2 & FG2 & N2).
  split; [congruence|]. split; [congruence|].
  exists (q1 ++ q2), (g1 ++ g2).
  rewrite Q2, Q1, G2, G1, !app_assoc. repeat split; auto.
  - now apply Forall_app.
  - now apply Forall_app.
  - rewrite length_app. lia.
Qed.

Lemma grownBy_mono (P Q : string -> Prop) (c c' : channel) :
  (forall v, P v -> Q v) -> grownBy P c c' -> grownBy Q c c'.
Proof.
  intros PQ (C & D & q & g & Hq & Hg & FQ & FG & N).
  split; [exact C|]. split; [exact D|]. exists q, g. repeat split; auto.
  - eapply Forall_impl; [exact FQ | exact PQ].
  - eapply Forall_impl; [exact FG | exact PQ].
Qed.

Lemma grownBy_deliver (c : channel) (v : string) : grownBy (eq v) c (deliver c v).
Proof.
  unfold deliver. destruct (parked c) as [|n] eqn:E; cbn.
  - split; [reflexivity|]. split; [reflexivity|]. exists [v], []. cbn.
    rewrite app_nil_r, E. repeat split; auto.
  - split; [reflexivity|]. split; [reflexivity|]. exists [], [v]. cbn.
    rewrite app_nil_r, E. repeat split; auto. lia.
Qed.

Lemma heapGrownBy_refl (P : string -> Prop) (h : heap) : heapGrownBy P h h.
Proof. intros ch. destruct (h !! ch); [apply grownBy_refl | exact I]. Qed.

Lemma heapGrownBy_trans (P : string -> Prop) (h1 h2 h3 : heap) :
  heapGrownBy P h1 h2 -> heapGrownBy P h2 h3 -> heapGrownBy P h1 h3.
Proof.
  intros H1 H2 ch. specialize (H1 ch). specialize (H2 ch).
  destruct (h1 !! ch), (h2 !! ch), (h3 !! ch); try tauto.
  eapply grownBy_trans; eassumption.
Qed.

Lemma heapGrownBy_mono (P Q : string -> Prop) (h h' : heap) :
  (forall v, P v -> Q v) -> heapGrownBy P h h' -> heapGrownBy Q h h'.
Proof.
  intros PQ H ch. specialize (H ch).
  destruct (h !! ch), (h' !! ch); try tauto.
  eapply grownBy_mono; eassumption.
Qed.

Lemma trySend_grown (v : string) (h h' : heap) (ch : positive) :
  trySend v h ch = Some h' -> heapGrownBy (eq v) h h'.
Proof.
  unfold trySend. destruct (h !! ch) as [c|] eqn:E.
  - destruct (closed c); [discriminate|].
    destruct (full c); intros [= <-]; [apply heapGrownBy_refl|].
    intros ch'. destruct (decide (ch' = ch)) as [->|N].
    + rewrite E, lookup_insert_eq. apply grownBy_deliver.
    + rewrite lookup_insert_ne by congruence.
      destruct (h !! ch'); [apply grownBy_refl | exact I].
  - intros [= <-]. apply heapGrownBy_refl.
Qed.

Lemma trySend_capacity (v : string) (h h' : heap) (ch : positive) :
  trySend v h ch = Some h' -> withinCapacity h -> withinCapacity h'.
Proof.
  unfold trySend. destruct (h !! ch) as [c|] eqn:E.
  - destruct (closed c); [discriminate|].
    destruct (full c) eqn:Ef; intros [= <-] W; [exact W|].
    intros ch' c'. destruct (decide (ch' = ch)) as [->|N].
    + rewrite lookup_insert_eq. intros [= <-].
      specialize (W ch c E). unfold full in Ef. unfold deliver.
      destruct (parked c) as [|n]; cbn in *; [|exact W].
      apply Nat.leb_gt in Ef. rewrite length_app. cbn. lia.
    + rewrite lookup_insert_ne by congruence. apply W.
  - now intros [= <-].
Qed.

Lemma broadcastIn_grown (order : list positive) (v : string) (h h' : heap) :
  broadcastIn order v h = Some h' ->
  heapGrownBy (eq v) h h' /\ (withinCapacity h -> withinCapacity h').
Proof.
  revert h. induction order as [|ch order IH]; intros h; cbn.
  - intros [= <-]. split; [apply heapGrownBy_refl | auto].
  - destruct (trySend v h ch) as [h1|] eqn:E; [|discriminate].
    intros H. destruct (IH h1 H) as [G W]. split.
    + eapply heapGrownBy_trans; [eapply trySend_grown; exact E | exact G].
    + intros W0. apply W. eapply trySend_capacity; eassumption.
Qed.

Lemma onEvent_cases (Clean : string -> string) (sw : sharedWatcher) (ev : Event)
    (h h' : heap) :
  onEvent Clean sw ev h = Some h' ->
  h' = h \/ (forwarded ev /\ broadcast sw (Clean (EventName ev)) h = Some h').
Proof.
  unfold onEvent, forwarded.
  destruct (HasSuffix (EventName ev) ".swift"); cbn [negb]; [|intros [= <-]; now left].
  destruct (Has ev Write); cbn [negb andb].
  - intros H. right. auto.
  - destruct (Has ev Create); cbn [negb].
    + intros H. right. auto.
    + intros [= <-]. now left.
Qed.

(** X8. Whatever arrives, and however the listeners change in between, a
    run of the loop that does not panic only ever adds to the channels: no
    channel appears, disappears, is closed or changes its capacity; what
    was queued or handed over stays, in its place; every value added is the
    cleaned path of an event received that the watcher forwards; a value is
    handed over only to a receiver that was parked; and no queue grows
    beyond the capacity of its channel. *)
Theorem X8_loop_only_appends_forwarded_paths (Clean : string -> string)
    (sw sw' : sharedWatcher) (h h' : heap) (w w' : list string)
    (inputs : list input) :
  loop Clean sw h w inputs = Some (sw', h', w') ->
  heapGrownBy (forwardedPath Clean inputs) h h' /\
  (withinCapacity h -> withinCapacity h').
Proof.
  revert sw h w. induction inputs as [|i rest IH]; intros sw h w; cbn [loop].
  - intros [= <- <- <-]. split; [apply heapGrownBy_refl | auto].
  - assert (Hrest : forall sw0 h0 w0,
              loop Clean sw0 h0 w0 rest = Some (sw', h', w') ->
              heapGrownBy (forwardedPath Clean (i :: rest)) h0 h' /\
              (withinCapacity h0 -> withinCapacity h')).
    { intros sw0 h0 w0 H. destruct (IH sw0 h0 w0 H) as [G W]. split; [|exact W].
      eapply heapGrownBy_mono; [|exact G].
      intros v (ev & Hin & F & ->). exists ev. split; [now right | auto]. }
    destruct (done sw).
    { intros [= <- <- <-]. split; [apply heapGrownBy_refl | auto]. }
    destruct i as [|ev| |err| |id ch|id];
      try (intros [= <- <- <-]; split; [apply heapGrownBy_refl | auto]; fail);
      try (apply Hrest; fail).
    destruct (onEvent Clean sw ev h) as [h1|] eqn:E; [|discriminate].
    intros H. destruct (Hrest sw h1 w H) as [G W].
    destruct (onEvent_cases Clean sw ev h h1 E) as [->|[F B]]; [now split|].
    destruct (broadcastIn_grown _ _ _ _ B) as [G1 W1]. split.
    + eapply heapGrownBy_trans; [|exact G].
      eapply heapGrownBy_mono; [|exact G1].
      intros v <-. exists ev. split; [now left | auto].
    + auto.
Qed.

(** The theorem at work: two writes and a listener that leaves in between. *)
Lemma X8_loop_witness :
  let inputs := [Received writeOfView; Removed "a";
                 Received (mkEvent "/p/Other.swift" Create); EventsClosed] in
  let h' := <[1%positive := mkChannel 4 ["/p/View.swift"] 0 [] false]> heapTwo in
  loop (fun s => s) swTwo heapTwo [] inputs
    = Some (mkSharedWatcher (delete "a" (listeners swTwo)) true, h', []) /\
  heapGrownBy (forwardedPath (fun s => s) inputs) heapTwo h'.
Proof.
  intros inputs h'.
  assert (E : loop (fun s => s) swTwo heapTwo [] inputs
              = Some (mkSharedWatcher (delete "a" (listeners swTwo)) true, h', []))
    by (vm_compute; reflexivity).
  split; [exact E|].
  exact (proj1 (X8_loop_only_appends_forwarded_paths _ _ _ _ _ _ _ _ E)).
Defined.

(** *** When the loop returns, and what it logs *)

Lemma loop_stops (Clean : string -> string) (pre post : list input) (s : input)
    (sw : sharedWatcher) (h : heap) (w : list string) :
  isStop s = true ->
  loop Clean sw h w (pre ++ s :: post) = loop Clean sw h w (pre ++ [s]).
Proof.
  intros Hs. revert sw h w. induction pre as [|i pre IH]; intros sw h w; cbn [app loop].
  - destruct (done sw); [reflexivity|]. now destruct s.
  - destruct (done sw); [reflexivity|].
    destruct i; try reflexivity; try apply IH.
    destruct (onEvent Clean sw ev h); [apply IH | reflexivity].
Qed.

(** X9. In a run of the loop that starts with [done] open and does not
    panic: [done] is closed at the end exactly when the context was
    cancelled or one of the watcher's channels was closed; nothing that
    arrives after that is looked at; the warnings are the errors received
    before, in their order; and the errors have no influence on the
    listeners nor on what the channels get. *)
Theorem X9_loop_returns_on_stop_and_logs_errors (Clean : string -> string)
    (sw sw' : sharedWatcher) (h h' : heap) (w w' : list string)
    (inputs : list input) :
  done sw = false ->
  loop Clean sw h w inputs = Some (sw', h', w') ->
  (done sw' = true <-> Exists (fun i => isStop i = true) inputs) /\
  (forall pre s post, inputs = pre ++ s :: post -> isStop s = true ->
     loop Clean sw h w (pre ++ [s]) = Some (sw', h', w')) /\
  w' = w ++ errorsBeforeStop inputs /\
  (forall w0, loop Clean sw h w0 (List.filter (fun i => negb (isFailed i)) inputs)
              = Some (sw', h', w0)).
Proof.
  intros Hd H. split; [|split].
  2:{ intros pre s post -> Hs. now rewrite <- (loop_stops Clean pre post s). }
  - revert sw h w Hd H. induction inputs as [|i rest IH]; intros sw h w Hd; cbn [loop].
    + intros [= <- <- <-]. rewrite Hd. split; [discriminate | intros E; inversion E].
    + rewrite Hd.
      assert (Hrest : forall sw0 h0 w0, done sw0 = false -> isStop i = false ->
                loop Clean sw0 h0 w0 rest = Some (sw', h', w') ->
                done sw' = true <-> Exists (fun i => isStop i = true) (i :: rest)).
      { intros sw0 h0 w0 Hd0 Hi H0. rewrite (IH sw0 h0 w0 Hd0 H0). split.
        - intros E. now apply Exists_cons_tl.
        - intros E. inversion E as [? ? Hx|? ? Hx]; subst; [congruence | exact Hx]. }
      destruct i as [|ev| |err| |id ch|id];
        try (intros [= <- <- <-]; cbn; split; [intros _; now apply Exists_cons_hd | reflexivity]; fail);
        try (apply Hrest; [exact Hd | reflexivity]; fail).
      destruct (onEvent Clean sw ev h) as [h1|]; [|discriminate].
      apply Hrest; [exact Hd | reflexivity].
  - revert sw h w Hd H. induction inputs as [|i rest IH]; intros sw h w Hd; cbn [loop].
    + intros [= <- <- <-]. cbn. now rewrite app_nil_r.
    + rewrite Hd.
      destruct i as [|ev| |err| |id ch|id]; cbn [errorsBeforeStop isStop isFailed List.filter negb];
        try (intros [= <- <- <-]; split; [now rewrite app_nil_r|];
             intros w0; cbn [loop]; now rewrite Hd).
      * destruct (onEvent Clean sw ev h) as [h1|] eqn:E; [|discriminate].
        intros H. destruct (IH sw h1 w Hd H) as [Hw Hf]. split; [exact Hw|].
        intros w0. cbn [loop]. rewrite Hd, E. apply Hf.
      * intros H. destruct (IH sw h (w ++ [err]) Hd H) as [Hw Hf]. split; [|exact Hf].
        rewrite Hw, <- app_assoc. reflexivity.
      * intros H. destruct (IH (addListener sw id ch) h w Hd H) as [Hw Hf].
        split; [exact Hw|]. intros w0. cbn [loop]. rewrite Hd. apply Hf.
      * intros H. destruct (IH (removeListener sw id) h w Hd H) as [Hw Hf].
        split; [exact Hw|]. intros w0. cbn [loop]. rewrite Hd. apply Hf.
Qed.

(** The theorem at work: an error, a write, the cancellation, and a write
    that comes too late. *)
Lemma X9_loop_witness :
  let inputs := [Failed "too many events"; Received writeOfView; Cancelled;
                 Received (mkEvent "/p/Late.swift" Create)] in
  let h' := <[1%positive := mkChannel 4 ["/p/View.swift"] 0 [] false]> heapTwo in
  let sw' := mkSharedWatcher (listeners swTwo) true in
  done swTwo = false /\
  loop (fun s => s) swTwo heapTwo [] inputs = Some (sw', h', ["too many events"]) /\
  loop (fun s => s) swTwo heapTwo [] [Received writeOfView; Cancelled;
                                      Received (mkEvent "/p/Late.swift" Create)]
    = Some (sw', h', []).
Proof.
  intros inputs h' sw'.
  assert (E : loop (fun s => s) swTwo heapTwo [] inputs = Some (sw', h', ["too many events"]))
    by (vm_compute; reflexivity).
  split; [reflexivity|]. split; [exact E|].
  destruct (X9_loop_returns_on_stop_and_logs_errors (fun s => s) swTwo sw' heapTwo h'
              [] ["too many events"] inputs eq_refl E) as (_ & _ & _ & Hf).
  exact (Hf []).
Defined.

End WatcherMoreFacts.

(** ** cmd/internal/preview/shared_watcher.go: starting the watcher *)

Module WatcherStartFacts.
Import Go Watcher WatcherStart.

Section AddAll.
Variable w : world.

Lemma addAll_attempts (watched dirs : list string) :
  attempts (addAll w watched dirs).1 = dirs.
Proof.
  revert watched. induction dirs as [|d rest IH]; intros watched; cbn [addAll]; [reflexivity|].
  destruct (AddErr w watched d).
  - specialize (IH watched). destruct (addAll w watched rest) as [t final].
    cbn in *. now rewrite IH.
  - specialize (IH (watched ++ [d])). destruct (addAll w (watched ++ [d]) rest) as [t final].
    cbn in *. now rewrite IH.
Qed.

Lemma addAll_neither (watched dirs : list string) :
  List.filter (fun a => isClose a || isGoLoop a) (addAll w watched dirs).1 = [].
Proof.
  revert watched. induction dirs as [|d rest IH]; intros watched; cbn [addAll]; [reflexivity|].
  destruct (AddErr w watched d).
  - specialize (IH watched). destruct (addAll w watched rest) as [t final].
    cbn in *. exact IH.
  - specialize (IH (watched ++ [d])). destruct (addAll w (watched ++ [d]) rest) as [t final].
    cbn in *. exact IH.
Qed.

Lemma addAll_watched (watched dirs : list string) :
  exists added, (addAll w watched dirs).2 = watched ++ added /\ sublist added dirs.
Proof.
  revert watched. induction dirs as [|d rest IH]; intros watched; cbn [addAll].
  - exists []. split; [now rewrite app_nil_r | constructor].
  - destruct (AddErr w watched d).
    + destruct (IH watched) as (added & E & S).
      destruct (addAll w watched rest) as [t final]. cbn in *.
      exists added. split; [exact E | now constructor].
    + destruct (IH (watched ++ [d])) as (added & E & S).
      destruct (addAll w (watched ++ [d]) rest) as [t final]. cbn in *.
      exists (d :: added). split; [now rewrite E, <- app_assoc | now constructor].
Qed.

Lemma addAll_all (watched dirs : list string) :
  (forall l d, In d dirs -> AddErr w l d = None) ->
  (addAll w watched dirs).2 = watched ++ dirs.
Proof.
  revert watched. induction dirs as [|d rest IH]; intros watched H; cbn [addAll].
  - now rewrite app_nil_r.
  - rewrite (H watched d) by now left.
    specialize (IH (watched ++ [d]) (fun l d' Hin => H l d' (or_intror Hin))).
    destruct (addAll w (watched ++ [d]) rest) as [t final]. cbn in *.
    now rewrite IH, <- app_assoc.
Qed.

End AddAll.

Lemma attempts_app (t1 t2 : list action) : attempts (t1 ++ t2) = attempts t1 ++ attempts t2.
Proof. unfold attempts. apply omap_app. Qed.

Lemma start_facts (w : world) (before : list action) (dirs : list string) :
  attempts before = [] ->
  List.filter (fun a => isClose a || isGoLoop a) before = [] ->
  exists t watched,
    start w before dirs = (before ++ t ++ [GoLoop], Ok (mkSharedWatcher ∅ false, watched)) /\
    attempts (before ++ t ++ [GoLoop]) = dirs /\
    List.filter (fun a => isClose a || isGoLoop a) (before ++ t ++ [GoLoop]) = [GoLoop] /\
    sublist watched dirs /\
    ((forall l d, In d dirs -> AddErr w l d = None) -> watched = dirs).
Proof.
  intros Ha Hf. unfold start.
  pose proof (addAll_attempts w [] dirs) as A.
  pose proof (addAll_neither w [] dirs) as N.
  destruct (addAll_watched w [] dirs) as (added & E & S).
  pose proof (addAll_all w [] dirs) as All.
  destruct (addAll w [] dirs) as [t final]. cbn [fst snd] in *.
  exists t, final. split; [reflexivity|]. split; [|split; [|split]].
  - rewrite !attempts_app, Ha, A. cbn. now rewrite app_nil_r.
  - rewrite !List.filter_app, Hf, N. reflexivity.
  - cbn in E. now subst.
  - exact All.
Qed.

(** X10. [newSharedWatcher] fails exactly when fsnotify gives no watcher
    or neither git nor the walk gives the directories, and then with the
    error of fsnotify or of the walk. The watcher that it got is closed
    when it fails and never when it succeeds; the loop is started only when
    it succeeds, once, as the last thing. On success the watcher has no
    listener and [done] is open, [watcher.Add] was called once for each
    directory found, in their order, and a directory that cannot be
    watched is left out without any error. *)
Theorem X10_newSharedWatcher_closes_or_starts (Dir : string -> string) (w : world) :
  let t := (newSharedWatcher Dir w).1 in
  let r := (newSharedWatcher Dir w).2 in
  ((exists err, r = Error err) <->
     NewWatcherErr w <> None \/ exists err, discovered Dir w = Error err) /\
  (forall err, r = Error err ->
     (NewWatcherErr w = Some err /\ t = []) \/
     (NewWatcherErr w = None /\ discovered Dir w = Error err /\
      attempts t = [] /\ last t = Some WatcherClose /\
      List.filter (fun a => isClose a || isGoLoop a) t = [WatcherClose])) /\
  (forall sw watched, r = Ok (sw, watched) ->
     NewWatcherErr w = None /\ listeners sw = ∅ /\ done sw = false /\
     head t = Some NewWatcher /\ last t = Some GoLoop /\
     List.filter (fun a => isClose a || isGoLoop a) t = [GoLoop] /\
     exists dirs,
       discovered Dir w = Ok dirs /\ attempts t = dirs /\ sublist watched dirs /\
       ((forall l d, In d dirs -> AddErr w l d = None) -> watched = dirs)).
Proof.
  cbv zeta. unfold newSharedWatcher, discovered.
  destruct (NewWatcherErr w) as [e0|] eqn:En.
  { cbn. split; [|split].
    - split; [intros _; left; discriminate | intros _; eauto].
    - intros err [= <-]. left. auto.
    - intros sw watched [=]. }
  destruct (gitSwiftDirs w (Dir (primaryPath w))) as [dirs|eg] eqn:Eg.
  - destruct (start_facts w [NewWatcher] dirs eq_refl eq_refl)
      as (t & watched & -> & A & Fl & S & All).
    cbn [fst snd]. split; [|split].
    + split; [intros [err [=]] | intros [N|[err [=]]]; congruence].
    + intros err [=].
    + intros sw wd [= <- <-]. cbn [listeners done].
      repeat (split; [try reflexivity|]); [now rewrite app_assoc, last_snoc | exact Fl|].
      exists dirs. auto.
  - destruct (walkSwiftDirs w (Dir (primaryPath w))) as [dirs|ew] eqn:Ew.
    + set (dbg := SlogDebug _ _).
      destruct (start_facts w [NewWatcher; dbg] dirs eq_refl eq_refl)
        as (t & watched & -> & A & Fl & S & All).
      cbn [fst snd]. split; [|split].
      * split; [intros [err [=]] | intros [N|[err [=]]]; congruence].
      * intros err [=].
      * intros sw wd [= <- <-]. cbn [listeners done].
        repeat (split; [try reflexivity|]); [now rewrite app_assoc, last_snoc | exact Fl|].
        exists dirs. auto.
    + cbn [fst snd]. split; [|split].
      * split; [intros _; right; eauto | intros _; eauto].
      * intros err [= <-]. right. repeat split; reflexivity.
      * intros sw watched [=].
Qed.

(** The start outside git: the walk gives the directories, the one that
    cannot be watched is skipped. *)
Example newSharedWatcher_example :
  newSharedWatcher (fun _ => "/p") outsideGit =
  ([NewWatcher;
    SlogDebug "git ls-files unavailable, falling back to WalkDir" ["exit status 128"];
    WatcherAdd "/p/Sources";
    WatcherAdd "/p/Secret";
    SlogDebug "Cannot watch directory" ["/p/Secret"; "permission denied"];
    GoLoop],
   Ok (mkSharedWatcher ∅ false, ["/p/Sources"])).
Proof. reflexivity. Qed.

End WatcherStartFacts.

(** ** cmd/axe/preview.go: the end of [RunE] *)

Module PreviewCmdMoreFacts.
Import Go PreviewCmd PreviewCmdMore PreviewCmdFacts.

Lemma afterChecks_Run {PC : Type} (hst : host PC) (m : modes) (args : list string)
    (f : flags) (src : string) (pc : PC) (w : bool) (sel : string) (srv : bool)
    (dev : string) (reuse : bool) :
  afterChecks hst m args f = Ok (Run src pc w sel srv dev reuse) <->
  NewProjectConfig hst (previewProject f) (previewWorkspace f)
                   (previewScheme f) (previewConfiguration f) = Ok pc /\
  CheckIDBCompanion hst = None /\
  previewServe m = false /\ srv = false /\
  (exists arg0 rest, args = arg0 :: rest /\ Abs hst arg0 = Ok src) /\
  Stat hst src = None /\
  w = previewWatch m /\ sel = previewSelector m /\
  dev = previewDevice f /\ reuse = previewReuseBuild m.
Proof.
  unfold afterChecks. split.
  - destruct (NewProjectConfig _ _ _ _ _) as [pc'|]; [|discriminate].
    destruct (CheckIDBCompanion hst); [discriminate|].
    destruct (previewServe m) eqn:Es; [discriminate|].
    destruct args as [|arg0 rest]; [discriminate|].
    destruct (Abs hst arg0) as [src'|] eqn:Ea; [|discriminate].
    destruct (Stat hst src') eqn:Est; [discriminate|].
    intros [= <- <- <- <- <- <- <-]. repeat split; eauto.
  - intros (-> & -> & Es & -> & (arg0 & rest & -> & ->) & -> & -> & -> & -> & ->).
    now rewrite Es.
Qed.

Lemma afterChecks_RunServe {PC : Type} (hst : host PC) (m : modes) (args : list string)
    (f : flags) (pc : PC) :
  afterChecks hst m args f = Ok (RunServe pc) <->
  NewProjectConfig hst (previewProject f) (previewWorkspace f)
                   (previewScheme f) (previewConfiguration f) = Ok pc /\
  CheckIDBCompanion hst = None /\ previewServe m = true.
Proof.
  unfold afterChecks. split.
  - destruct (NewProjectConfig _ _ _ _ _) as [pc'|]; [|discriminate].
    destruct (CheckIDBCompanion hst); [discriminate|].
    destruct (previewServe m) eqn:Es; [now intros [= <-]|].
    destruct args as [|arg0 rest]; [discriminate|].
    destruct (Abs hst arg0) as [src'|]; [|discriminate].
    destruct (Stat hst src'); discriminate.
  - intros (-> & -> & ->). reflexivity.
Qed.

Lemma lastCall_Ok {PC : Type} (hst : host PC) (m : modes) (args : list string)
    (f : flags) (rc : gmap string string) (c : call PC) :
  lastCall hst m args f rc = Ok c <->
  validate (mergeRC f rc) = None /\ afterChecks hst m args (mergeRC f rc) = Ok c.
Proof.
  unfold lastCall. destruct (validate (mergeRC f rc)); split.
  - discriminate.
  - intros [[=] _].
  - auto.
  - now intros [_ H].
Qed.

Lemma mergeRC_merged (f : flags) (rc : gmap string string) :
  mergeRC f rc =
  mkFlags (merged (previewProject f) rc "PROJECT")
          (merged (previewWorkspace f) rc "WORKSPACE")
          (merged (previewScheme f) rc "SCHEME")
          (merged (previewConfiguration f) rc "CONFIGURATION")
          (merged (previewDevice f) rc "DEVICE").
Proof. unfold mergeRC, merged. now rewrite !fallback_spec. Qed.

(** X11. [RunE] as a whole.  It returns its own error or what its last
    call returns.  It ends in [preview.Run] only outside serve mode, with
    [serve] false, for a first argument that [filepath.Abs] resolves to a
    file that [os.Stat] finds, with the device of the flag or else of
    .axerc, and only after idb_companion was found and the project
    configuration was built from the merged flags, of which exactly one
    of project and workspace is set and the scheme is set.  It ends in
    [preview.RunServe] under the same conditions on the flags in serve
    mode, where the arguments and the file system play no part. *)
Theorem X11_RunE_reaches_Run_only_for_a_source_file {PC : Type} (hst : host PC)
    (exec : call PC -> option string) (m : modes) (args : list string)
    (f : flags) (rc : gmap string string) :
  let P := merged (previewProject f) rc "PROJECT" in
  let W := merged (previewWorkspace f) rc "WORKSPACE" in
  let S := merged (previewScheme f) rc "SCHEME" in
  let C := merged (previewConfiguration f) rc "CONFIGURATION" in
  let built pc :=
    ((P = "" /\ W <> "") \/ (P <> "" /\ W = "")) /\ S <> "" /\
    NewProjectConfig hst P W S C = Ok pc /\ CheckIDBCompanion hst = None in
  (RunEWith hst exec m args f rc).2 = finish exec (lastCall hst m args f rc) /\
  (forall src pc w sel srv dev reuse,
     lastCall hst m args f rc = Ok (Run src pc w sel srv dev reuse) <->
     built pc /\ previewServe m = false /\ srv = false /\
     (exists arg0 rest, args = arg0 :: rest /\ Abs hst arg0 = Ok src) /\
     Stat hst src = None /\
     w = previewWatch m /\ sel = previewSelector m /\
     dev = merged (previewDevice f) rc "DEVICE" /\ reuse = previewReuseBuild m) /\
  (forall pc,
     lastCall hst m args f rc = Ok (RunServe pc) <-> built pc /\ previewServe m = true) /\
  (previewServe m = true ->
     forall args' abs' stat',
       lastCall (mkHost (NewProjectConfig hst) (CheckIDBCompanion hst) abs' stat')
                m args' f rc
       = lastCall hst m args f rc).
Proof.
  cbv zeta. split; [|split; [|split]].
  - unfold RunEWith, RunE, lastCall. now destruct (validate (mergeRC f rc)).
  - intros src pc w sel srv dev reuse.
    rewrite lastCall_Ok, validate_None, afterChecks_Run, mergeRC_merged. cbn. tauto.
  - intros pc. rewrite lastCall_Ok, validate_None, afterChecks_RunServe, mergeRC_merged.
    cbn. tauto.
  - intros Es args' abs' stat'. unfold lastCall, afterChecks. cbn. now rewrite Es.
Qed.

(** [RunE] on a host where everything succeeds: the scheme of .axerc and
    the device of the flag reach [preview.Run]. *)
Example RunE_example :
  lastCall hostFine (mkModes true "1" false false) ["View.swift"]
    (mkFlags "App.xcodeproj" "" "" "" "UDID-1") (<["SCHEME" := "App"]> ∅)
  = Ok (Run "/cwd/View.swift" "App" true "1" false "UDID-1" false).
Proof. reflexivity. Qed.

End PreviewCmdMoreFacts.

(** ** vscode-extension: binaryResolver.ts *)

Module BinaryResolverFacts.
Import Go BinaryResolver.

Lemma truthy_Some (c : option string) :
  truthy c = true <-> exists p, c = Some p /\ p <> "".
Proof.
  unfold truthy. destruct c as [p|].
  - destruct (bool_decide_reflect (p = "")) as [->|N]; cbn; split.
    + discriminate.
    + intros (p & [= <-] & N). congruence.
    + eauto.
    + reflexivity.
  - split; [discriminate | intros (p & [=] & _)].
Qed.

Lemma resolve_cached (p : string) (d : deps) :
  p <> "" -> resolve (Some p) d = ([], Some p, Ok p).
Proof.
  intros N. unfold resolve, truthy. now rewrite bool_decide_eq_false_2.
Qed.

Lemma resolveEach_cached (p : string) (ds : list deps) :
  p <> "" -> resolveEach (Some p) ds = ([], Some p, map (fun _ => Ok p) ds).
Proof.
  intros N. induction ds as [|d ds IH]; [reflexivity|].
  cbn [resolveEach]. rewrite (resolve_cached p d N), IH. reflexivity.
Qed.

Lemma resolve_falsy (c : option string) (d : deps) :
  truthy c = false ->
  (resolve c d).1.1 = (resolve None d).1.1 /\ (resolve c d).2 = (resolve None d).2.
Proof.
  intros F. unfold resolve. rewrite F. cbn [truthy].
  destruct (negb (bool_decide (executablePath d = "axe"))); [now split|].
  destruct (which d) as [wp|]; [|now split].
  destruct (truthy wp); [now split|].
  destruct (showPrompt d) as [choice|]; [|now split].
  destruct (bool_decide (choice = Some "Run Install Script")).
  { destruct (runInstallScript d); now split. }
  destruct (bool_decide (choice = Some "Configure Path")); [|now split].
  destruct (openSettings d); now split.
Qed.

Lemma resolve_fresh_effects (d : deps) : (resolve None d).1.1 <> [].
Proof.
  unfold resolve. cbn [truthy].
  destruct (negb (bool_decide (executablePath d = "axe"))); [discriminate|].
  destruct (which d) as [wp|]; [|discriminate].
  destruct (truthy wp); [discriminate|].
  destruct (showPrompt d) as [choice|]; [|discriminate].
  destruct (bool_decide (choice = Some "Run Install Script")).
  { destruct (runInstallScript d); discriminate. }
  destruct (bool_decide (choice = Some "Configure Path")); [|discriminate].
  destruct (openSettings d); discriminate.
Qed.

(** X12. When [resolve] gives a path, the path is the one cached (and
    then nothing at all is done), or else the configured one when the
    setting is not "axe", or else the one that [which] finds; in the last
    two cases it is cached and its version is checked, once. A path that
    is not empty is then returned by every later call, whatever the
    setting and the PATH have become, without any effect, until
    [clearCache], after which the next call looks again. The empty path,
    which the setting can hold, is returned but is not remembered. *)
Theorem X12_resolve_caches_the_path (c c' : option string) (d : deps)
    (t : list effect) (p : string) :
  resolve c d = (t, c', Ok p) ->
  ((c = Some p /\ p <> "" /\ t = [] /\ c' = c) \/
   (truthy c = false /\ c' = Some p /\
    ((executablePath d = p /\ p <> "axe" /\ t = [CheckCliVersion p]) \/
     (executablePath d = "axe" /\ which d = Ok (Some p) /\ p <> "" /\
      t = [Which "axe"; CheckCliVersion p])))) /\
  (p <> "" -> forall ds, resolveEach c' ds = ([], c', map (fun _ => Ok p) ds)) /\
  (p = "" -> executablePath d = "" /\
     forall d', (resolve c' d').1.1 = (resolve None d').1.1 /\
                (resolve c' d').2 = (resolve None d').2) /\
  (forall d', (resolve (clearCache c') d').1.1 <> []).
Proof.
  intros H.
  assert (Hc' : c' = Some p \/ (c' = c /\ c = Some p)).
  { revert H. unfold resolve. destruct (truthy c) eqn:T.
    - apply truthy_Some in T as (q & -> & N). cbn. intros [= <- <- <-]. auto.
    - destruct (negb (bool_decide (executablePath d = "axe"))); [intros [= <- <- <-]; auto|].
      destruct (which d) as [wp|]; [|discriminate].
      destruct (truthy wp) eqn:Tw.
      + apply truthy_Some in Tw as (q & -> & N). cbn. intros [= <- <- <-]. auto.
      + destruct (showPrompt d) as [choice|]; [|discriminate].
        destruct (bool_decide (choice = Some "Run Install Script")).
        { destruct (runInstallScript d); discriminate. }
        destruct (bool_decide (choice = Some "Configure Path")); [|discriminate].
        destruct (openSettings d); discriminate. }
  assert (Hc : c' = Some p) by (destruct Hc' as [?|[? ?]]; congruence).
  clear Hc'. split; [|split; [|split]].
  - revert H. unfold resolve. destruct (truthy c) eqn:T.
    + apply truthy_Some in T as (q & -> & N). cbn. intros [= <- <- <-]. left. auto.
    + destruct (bool_decide_reflect (executablePath d = "axe")) as [Ea|Na]; cbn [negb].
      * destruct (which d) as [wp|]; [|discriminate].
        destruct (truthy wp) eqn:Tw.
        -- apply truthy_Some in Tw as (q & -> & N). cbn. intros [= <- <- <-].
           right. split; [reflexivity|]. split; [reflexivity|]. right. auto.
        -- destruct (showPrompt d) as [choice|]; [|discriminate].
           destruct (bool_decide (choice = Some "Run Install Script")).
           { destruct (runInstallScript d); discriminate. }
           destruct (bool_decide (choice = Some "Configure Path")); [|discriminate].
           destruct (openSettings d); discriminate.
      * intros [= <- <- <-]. right. split; [reflexivity|]. split; [reflexivity|].
        left. auto.
  - intros N ds. rewrite Hc. now apply resolveEach_cached.
  - intros ->. split.
    + revert H. unfold resolve. destruct (truthy c) eqn:T.
      * apply truthy_Some in T as (q & -> & N). cbn. intros [= <- <- <-]. congruence.
      * destruct (bool_decide_reflect (executablePath d = "axe")) as [Ea|Na]; cbn [negb].
        -- destruct (which d) as [wp|]; [|discriminate].
           destruct (truthy wp) eqn:Tw.
           ++ apply truthy_Some in Tw as (q & -> & N). cbn. intros [= <- <- <-]. congruence.
           ++ destruct (showPrompt d) as [choice|]; [|discriminate].
              destruct (bool_decide (choice = Some "Run Install Script")).
              { destruct (runInstallScript d); discriminate. }
              destruct (bool_decide (choice = Some "Configure Path")); [|discriminate].
              destruct (openSettings d); discriminate.
        -- now intros [= <- <- <-].
    + intros d'. apply resolve_falsy. now rewrite Hc.
  - intros d'. apply resolve_fresh_effects.
Qed.

(** The theorem at work: the binary is found on the PATH and cached. *)
Lemma X12_resolve_witness :
  resolve None onPath
    = ([Which "axe"; CheckCliVersion "/opt/homebrew/bin/axe"],
       Some "/opt/homebrew/bin/axe", Ok "/opt/homebrew/bin/axe") /\
  forall ds,
    resolveEach (Some "/opt/homebrew/bin/axe") ds
    = ([], Some "/opt/homebrew/bin/axe", map (fun _ => Ok "/opt/homebrew/bin/axe") ds).
Proof.
  split; [reflexivity|].
  refine (proj1 (proj2 (X12_resolve_caches_the_path None _ onPath _ _ eq_refl)) _).
  discriminate.
Defined.

Ltac break_hyps :=
  repeat match goal with
  | H : _ /\ _ |- _ => destruct H
  | H : exists _, _ |- _ => destruct H
  | H : _ \/ _ |- _ => destruct H
  | H : False |- _ => destruct H
  | H : In _ _ |- _ => cbn in H
  end.

Ltac settle :=
  cbn;
  repeat match goal with
  | |- _ /\ _ => split
  | |- _ <-> _ => split
  | |- forall _, _ => intro
  end;
  break_hyps; try discriminate; try congruence;
  try (exfalso; congruence);
  try (do 2 eexists; cbn; eauto 6; fail);
  eauto 8.

(** X13. [resolve] fails exactly when nothing usable is cached, the
    setting is "axe" and [which] does not give a path that is not empty.
    Then the cache is left as it was and no version is checked; the
    prompt is shown (once) only after [which] has given nothing; the
    install script is run only for the choice "Run Install Script" and
    the settings are opened only for the choice "Configure Path"; and the
    error is "axe binary not available" unless one of the dependencies
    failed itself. *)
Theorem X13_resolve_fails_only_without_a_binary (c : option string) (d : deps) :
  let t := (resolve c d).1.1 in
  let c' := (resolve c d).1.2 in
  let r := (resolve c d).2 in
  let found := exists p, which d = Ok (Some p) /\ p <> "" in
  ((exists err, r = Error err) <->
     truthy c = false /\ executablePath d = "axe" /\ ~ found) /\
  (forall err, r = Error err ->
     c' = c /\ List.filter isCheck t = [] /\ head t = Some (Which "axe") /\
     (In RunInstallScript t <-> 
        (exists wp, which d = Ok wp) /\ showPrompt d = Ok (Some "Run Install Script")) /\
     (In (OpenSettings "axe.executablePath") t <->
        (exists wp, which d = Ok wp) /\ showPrompt d = Ok (Some "Configure Path")) /\
     ((exists m items, In (ShowPrompt m items) t) <-> exists wp, which d = Ok wp) /\
     (err = "axe binary not available" \/
      which d = Error err \/ showPrompt d = Error err \/
      runInstallScript d = Some err \/ openSettings d = Some err)).
Proof.
  cbv zeta. unfold resolve.
  destruct (truthy c) eqn:T.
  { cbn. split; [split; [intros [err [=]] | intros [[=] _]] | intros err [=]]. }
  destruct (bool_decide_reflect (executablePath d = "axe")) as [Ea|Na]; cbn [negb].
  2:{ cbn. split; [|intros err [=]].
      split; [intros [err [=]] | intros (_ & E & _); congruence]. }
  destruct (which d) as [wp|ew] eqn:Ew.
  2:{ cbn [fst snd]. split.
      - split; [intros _ | eauto]. repeat split; auto. intros (p & [=] & _).
      - intros err [= <-]. settle. }
  destruct (truthy wp) eqn:Tw.
  { apply truthy_Some in Tw as (q & -> & N). cbn. split; [|intros err [=]].
    split; [intros [err [=]] | intros (_ & _ & F); exfalso; apply F; eauto]. }
  assert (NF : ~ (exists p, Ok wp = Ok (Some p) /\ p <> "")).
  { intros (p & [= ->] & N). unfold truthy in Tw.
    rewrite bool_decide_eq_false_2 in Tw by exact N. discriminate. }
  assert (W : exists wp0 : option string, @Ok (option string) wp = Ok wp0) by eauto.
  destruct (showPrompt d) as [choice|es] eqn:Es.
  2:{ cbn [fst snd]. split; [split; [intros _; auto | eauto]|].
      intros err [= <-]. settle. }
  destruct (bool_decide_reflect (choice = Some "Run Install Script")) as [->|N1].
  { destruct (runInstallScript d) as [ei|] eqn:Ei; cbn [fst snd].
    - split; [split; [intros _; auto | eauto]|]. intros err [= <-]. settle.
    - split; [split; [intros _; auto | eauto]|]. intros err [= <-]. settle. }
  destruct (bool_decide_reflect (choice = Some "Configure Path")) as [->|N2].
  { destruct (openSettings d) as [eo|] eqn:Eo; cbn [fst snd].
    - split; [split; [intros _; auto | eauto]|]. intros err [= <-]. settle.
    - split; [split; [intros _; auto | eauto]|]. intros err [= <-]. settle. }
  cbn [fst snd]. split; [split; [intros _; auto | eauto]|].
  intros err [= <-]. settle.
Qed.

End BinaryResolverFacts.

(** ** vscode-extension: versionCheck.ts *)

Module VersionCheckFacts.
Import GoStringFacts Platform VersionCheck.

Lemma split_nonempty (s : string) : split s <> [].
Proof.
  destruct s as [|c rest]; cbn [split]; [discriminate|].
  destruct (Ascii.eqb c "."); [discriminate|].
  destruct (split rest); discriminate.
Qed.

Lemma split_app (a x : string) : split (a +:+ "." +:+ x) = split a ++ split x.
Proof.
  induction a as [|c a IH].
  - rewrite sapp_nil_l. reflexivity.
  - rewrite sapp_cons. cbn [split]. rewrite IH.
    destruct (Ascii.eqb c "."); [reflexivity|].
    pose proof (split_nonempty a) as N.
    destruct (split a) as [|p ps]; [congruence | reflexivity].
Qed.

Lemma component_app_l (l1 l2 : list string) (i : nat) :
  (i < length l1)%nat -> component (l1 ++ l2) i = component l1 i.
Proof. intros H. unfold component. now rewrite lookup_app_l. Qed.

Lemma component_zero (l : list string) (i : nat) :
  component (l ++ ["0"]) i = component l i \/
  (i = length l /\ component (l ++ ["0"]) i = Some 0 /\ component l i = Some 0).
Proof.
  unfold component. destruct (decide (i < length l)%nat) as [L|G].
  - left. now rewrite lookup_app_l.
  - rewrite lookup_app_r by lia. rewrite (lookup_ge_None_2 l i) by lia.
    destruct (i - length l)%nat as [|k] eqn:E.
    + right. split; [lia|]. split; reflexivity.
    + left. cbn. reflexivity.
Qed.

Lemma compareFrom_ext (pa pa' pb : list string) :
  (forall i, (i < 3)%nat -> component pa' i = component pa i) ->
  compareFrom pa' pb 0 3 = compareFrom pa pb 0 3.
Proof.
  intros H. cbn [compareFrom].
  now rewrite (H 0%nat), (H 1%nat), (H 2%nat) by lia.
Qed.

(** X14. On versions whose first three components are modelled numbers
    (a missing component counts as 0), [compareSemver] gives the order by
    major, then minor, then patch: negative exactly when the first is
    older, zero exactly when the three numbers are the same, positive
    exactly when the second is older, and the opposite number when the two
    are exchanged. What follows the third component is ignored, and a
    version with fewer than three components is the one with ".0"
    appended. *)
Theorem X14_compareSemver_orders_versions (a b : string) (va vb : Z * Z * Z) :
  version a = Some va -> version b = Some vb ->
  exists d,
    compareSemver a b = Some d /\ compareSemver b a = Some (- d) /\
    (d < 0 <-> older va vb) /\ (d = 0 <-> va = vb) /\ (0 < d <-> older vb va) /\
    (forall x, (3 <= length (split a))%nat -> compareSemver (a +:+ "." +:+ x) b = Some d) /\
    ((length (split a) < 3)%nat -> compareSemver (a +:+ "." +:+ "0") b = Some d).
Proof.
  unfold version. intros Ha Hb.
  destruct (component (split a) 0) as [x1|] eqn:A0; [|discriminate].
  destruct (component (split a) 1) as [y1|] eqn:A1; [|discriminate].
  destruct (component (split a) 2) as [z1|] eqn:A2; [|discriminate].
  destruct (component (split b) 0) as [x2|] eqn:B0; [|discriminate].
  destruct (component (split b) 1) as [y2|] eqn:B1; [|discriminate].
  destruct (component (split b) 2) as [z2|] eqn:B2; [|discriminate].
  injection Ha as <-. injection Hb as <-.
  assert (E : exists d, compareSemver a b = Some d /\ compareSemver b a = Some (- d) /\
              (d < 0 <-> older (x1, y1, z1) (x2, y2, z2)) /\
              (d = 0 <-> (x1, y1, z1) = (x2, y2, z2)) /\
              (0 < d <-> older (x2, y2, z2) (x1, y1, z1))).
  { unfold compareSemver, older. cbn [compareFrom]. rewrite A0, A1, A2, B0, B1, B2.
    destruct (Z.eqb_spec (x1 - x2) 0) as [E1|N1]; cbn [negb].
    2:{ rewrite (proj2 (Z.eqb_neq (x2 - x1) 0)) by lia. cbn [negb].
        exists (x1 - x2). split; [reflexivity|]. split; [f_equal; lia|].
        repeat split; intros; try lia. injection H as -> _ _. lia. }
    rewrite (proj2 (Z.eqb_eq (x2 - x1) 0)) by lia. cbn [negb].
    destruct (Z.eqb_spec (y1 - y2) 0) as [E2|N2]; cbn [negb].
    2:{ rewrite (proj2 (Z.eqb_neq (y2 - y1) 0)) by lia. cbn [negb].
        exists (y1 - y2). split; [reflexivity|]. split; [f_equal; lia|].
        repeat split; intros; try lia. injection H as _ -> _. lia. }
    rewrite (proj2 (Z.eqb_eq (y2 - y1) 0)) by lia. cbn [negb].
    destruct (Z.eqb_spec (z1 - z2) 0) as [E3|N3]; cbn [negb].
    2:{ rewrite (proj2 (Z.eqb_neq (z2 - z1) 0)) by lia. cbn [negb].
        exists (z1 - z2). split; [reflexivity|]. split; [f_equal; lia|].
        repeat split; intros; try lia. injection H as _ _ ->. lia. }
    rewrite (proj2 (Z.eqb_eq (z2 - z1) 0)) by lia. cbn [negb].
    exists 0. split; [reflexivity|]. split; [reflexivity|].
    repeat split; intros; try lia. f_equal; [f_equal|]; lia. }
  destruct E as (d & E & E' & S1 & S2 & S3). exists d.
  repeat (split; [assumption|]). split.
  - intros x L. rewrite <- E. unfold compareSemver. rewrite split_app.
    apply compareFrom_ext. intros i Hi. apply component_app_l. lia.
  - intros L. rewrite <- E. unfold compareSemver. rewrite split_app.
    change (split "0") with ["0"].
    apply compareFrom_ext. intros i Hi.
    destruct (component_zero (split a) i) as [H|(Hl & H1 & H2)]; congruence.
Qed.

(** The theorem at work: 1.2.3 is older than 1.10. *)
Lemma X14_compareSemver_witness :
  version "1.2.3" = Some (1, 2, 3) /\ version "1.10" = Some (1, 10, 0) /\
  exists d, compareSemver "1.2.3" "1.10" = Some d /\ d < 0.
Proof.
  split; [reflexivity|]. split; [reflexivity|].
  destruct (X14_compareSemver_orders_versions "1.2.3" "1.10" (1, 2, 3) (1, 10, 0)
              eq_refl eq_refl) as (d & E & _ & S & _).
  exists d. split; [exact E|]. apply S. cbn. lia.
Defined.

End VersionCheckFacts.
